(** * MO translation catalog engine (mo_parser.c): model and properties

    A shallow embedding of the gettext [.mo] catalog reader and its three
    lookup strategies, followed by the properties the design document
    states about them.

    Conventions of the embedding.
    - Integers are [Z]; every C operation that can wrap has its reduction
      written out ([u32], [u64]).  The data model is LP64: [uint32_t] is
      32 bits, [size_t] and pointers are 64 bits, the host is little endian.
    - Memory is byte addressed, [memory := Z -> Z]; a pointer is an address
      and [0] is [NULL].  Every read goes through [load8], which reduces the
      stored value modulo 256.
    - The [mo_context] structure is a record.  A pointer to a context and the
      [pairs] / [hash_table] members are [option]s, [None] being [NULL].
    - The compile-time switches [MO_SEARCH_METHOD_*] and [MO_ENABLE_STATS]
      are the fields of [build]; every function takes the build as its first
      argument.
    - A function whose C code has a [while] loop takes its iteration bound
      from the data it walks; it returns [None] when that bound is exceeded
      or when an array is read outside its bounds, i.e. when the C program
      has no defined result. *)

From Stdlib Require Import ZArith Lia Bool Floats.SpecFloat.
From stdpp Require Import base numbers option list.

Local Open Scope Z_scope.

(** ** Machine integers and memory *)

Definition u32 (x : Z) : Z := x mod 2 ^ 32.
Definition u64 (x : Z) : Z := x mod 2 ^ 64.

Definition ptr := Z.
Definition NULL : ptr := 0.
Definition memory := Z -> Z.

Definition load8 (m : memory) (a : ptr) : Z := m a mod 256.

Definition store8 (m : memory) (a : ptr) (v : Z) : memory :=
  fun x => if x =? a then v mod 256 else m x.

(** Host-order (little-endian) 32-bit access. *)
Definition load32 (m : memory) (a : ptr) : Z :=
  load8 m a + 2 ^ 8 * load8 m (a + 1) + 2 ^ 16 * load8 m (a + 2)
  + 2 ^ 24 * load8 m (a + 3).

Definition store32 (m : memory) (a : ptr) (v : Z) : memory :=
  store8 (store8 (store8 (store8 m a v) (a + 1) (v / 2 ^ 8))
            (a + 2) (v / 2 ^ 16)) (a + 3) (v / 2 ^ 24).

(** [memcpy(dst, src, n)] *)
Definition memcpy (m : memory) (dst src : ptr) (n : Z) : memory :=
  fun x => if (dst <=? x) && (x <? dst + n) then load8 m (src + (x - dst))
           else m x.

(** [memcmp]: the difference of the first pair of bytes that differ. *)
Fixpoint memcmp_n (m : memory) (p q : ptr) (n : nat) : Z :=
  match n with
  | O => 0
  | S n' => if load8 m p =? load8 m q then memcmp_n m (p + 1) (q + 1) n'
            else load8 m p - load8 m q
  end.

Definition memcmp (m : memory) (p q : ptr) (len : Z) : Z :=
  memcmp_n m p q (Z.to_nat len).

(** [strlen], scanning at most [limit] bytes; [None] when no terminator is
    found (the argument is not a C string). *)
Fixpoint strlen_from (m : memory) (p : ptr) (limit : nat) (acc : Z) : option Z :=
  match limit with
  | O => None
  | S k => if load8 m p =? 0 then Some acc
           else strlen_from m (p + 1) k (acc + 1)
  end.

Definition strlen (limit : nat) (m : memory) (p : ptr) : option Z :=
  strlen_from m p limit 0.

(** The bytes of a memory range, and writing a byte list. *)
Fixpoint bytes_n (m : memory) (p : ptr) (n : nat) : list Z :=
  match n with
  | O => []
  | S k => load8 m p :: bytes_n m (p + 1) k
  end.

Definition bytes (m : memory) (p : ptr) (len : Z) : list Z :=
  bytes_n m p (Z.to_nat len).

Fixpoint store_bytes (m : memory) (p : ptr) (bs : list Z) : memory :=
  match bs with
  | [] => m
  | b :: bs' => store_bytes (store8 m p b) (p + 1) bs'
  end.

(** ** Constants and data types of mo_parser.h / mo_parser.c *)

Definition MO_MAGIC : Z := 0x950412de.
Definition MO_MAGIC_REV : Z := 0xde120495.
Definition MO_MAX_STRING_LENGTH : Z := 4096.
Definition MO_CACHE_SIZE : Z := 64.
Definition NOT_FOUND : Z := 0xFFFFFFFF.
Definition sizeof_mo_header_t : Z := 28.
Definition sizeof_mo_string_entry_t : Z := 8.

Inductive mo_error_t :=
| MO_SUCCESS
| MO_ERROR_FILE_NOT_FOUND
| MO_ERROR_INVALID_FORMAT
| MO_ERROR_MEMORY
| MO_ERROR_INVALID_CONTEXT
| MO_ERROR_IO
| MO_ERROR_NOT_INITIALIZED.

Inductive search_method := LINEAR | BINARY | HASH.

Record build := { method : search_method; enable_stats : bool }.

Record mo_string_pair_t := {
  original : ptr;
  translation : ptr;
  original_len : Z;
  translation_len : Z
}.

(** The [hash] member exists in hash builds only; other builds leave it 0. *)
Record mo_cache_item_t := {
  c_original : ptr;
  c_translation : ptr;
  c_hash : Z
}.

Inductive mo_hash_slot_state_t :=
| MO_HASH_SLOT_EMPTY
| MO_HASH_SLOT_OCCUPIED
| MO_HASH_SLOT_DELETED.

Record mo_hash_slot_t := {
  s_original : ptr;
  s_translation : ptr;
  s_original_len : Z;
  s_translation_len : Z;
  s_hash : Z;
  s_state : mo_hash_slot_state_t
}.

Record mo_stats_t := {
  total_lookups : Z;
  cache_hits : Z;
  cache_misses : Z;
  hash_collisions : Z;
  comparisons : Z
}.

(** [struct mo_context].  Members that no modelled function reads
    ([is_mapped], [header], [orig_table], [trans_table], [cache_index],
    [logging_enabled], [search_method]) are left out; the header and the two
    descriptor tables are read from memory at [data]. *)
Record mo_context := {
  data : ptr;
  size : Z;
  pairs : option (list mo_string_pair_t);
  num_strings : Z;
  hash_table : option (list mo_hash_slot_t);
  hash_table_size : Z;
  hash_table_mask : Z;
  hash_table_count : Z;
  cache : list mo_cache_item_t;
  stats : mo_stats_t
}.

#[global] Instance mo_hash_slot_state_eq_dec : EqDecision mo_hash_slot_state_t.
Proof. solve_decision. Defined.
#[global] Instance mo_error_eq_dec : EqDecision mo_error_t.
Proof. solve_decision. Defined.
#[global] Instance search_method_eq_dec : EqDecision search_method.
Proof. solve_decision. Defined.

Definition zero_cache_item : mo_cache_item_t :=
  {| c_original := NULL; c_translation := NULL; c_hash := 0 |}.

Definition zero_slot : mo_hash_slot_t :=
  {| s_original := NULL; s_translation := NULL; s_original_len := 0;
     s_translation_len := 0; s_hash := 0; s_state := MO_HASH_SLOT_EMPTY |}.

Definition zero_stats : mo_stats_t :=
  {| total_lookups := 0; cache_hits := 0; cache_misses := 0;
     hash_collisions := 0; comparisons := 0 |}.

(** Member updates. *)
Definition set_stats (ctx : mo_context) (st : mo_stats_t) : mo_context :=
  {| data := data ctx; size := size ctx; pairs := pairs ctx;
     num_strings := num_strings ctx; hash_table := hash_table ctx;
     hash_table_size := hash_table_size ctx;
     hash_table_mask := hash_table_mask ctx;
     hash_table_count := hash_table_count ctx;
     cache := cache ctx; stats := st |}.

Definition set_cache (ctx : mo_context) (c : list mo_cache_item_t) : mo_context :=
  {| data := data ctx; size := size ctx; pairs := pairs ctx;
     num_strings := num_strings ctx; hash_table := hash_table ctx;
     hash_table_size := hash_table_size ctx;
     hash_table_mask := hash_table_mask ctx;
     hash_table_count := hash_table_count ctx;
     cache := c; stats := stats ctx |}.

Definition set_pairs (ctx : mo_context) (p : option (list mo_string_pair_t))
  : mo_context :=
  {| data := data ctx; size := size ctx; pairs := p;
     num_strings := num_strings ctx; hash_table := hash_table ctx;
     hash_table_size := hash_table_size ctx;
     hash_table_mask := hash_table_mask ctx;
     hash_table_count := hash_table_count ctx;
     cache := cache ctx; stats := stats ctx |}.

Definition set_hash_table (ctx : mo_context) (t : option (list mo_hash_slot_t))
  (sz mask count : Z) : mo_context :=
  {| data := data ctx; size := size ctx; pairs := pairs ctx;
     num_strings := num_strings ctx; hash_table := t;
     hash_table_size := sz; hash_table_mask := mask;
     hash_table_count := count;
     cache := cache ctx; stats := stats ctx |}.

(** Counter increments ([uint32_t], wrapping); no-ops without
    [MO_ENABLE_STATS]. *)
Definition inc_total_lookups (cfg : build) (st : mo_stats_t) : mo_stats_t :=
  if enable_stats cfg then
    {| total_lookups := u32 (total_lookups st + 1); cache_hits := cache_hits st;
       cache_misses := cache_misses st; hash_collisions := hash_collisions st;
       comparisons := comparisons st |}
  else st.

Definition inc_cache_hits (cfg : build) (st : mo_stats_t) : mo_stats_t :=
  if enable_stats cfg then
    {| total_lookups := total_lookups st; cache_hits := u32 (cache_hits st + 1);
       cache_misses := cache_misses st; hash_collisions := hash_collisions st;
       comparisons := comparisons st |}
  else st.

Definition inc_cache_misses (cfg : build) (st : mo_stats_t) : mo_stats_t :=
  if enable_stats cfg then
    {| total_lookups := total_lookups st; cache_hits := cache_hits st;
       cache_misses := u32 (cache_misses st + 1);
       hash_collisions := hash_collisions st; comparisons := comparisons st |}
  else st.

Definition inc_hash_collisions (cfg : build) (st : mo_stats_t) : mo_stats_t :=
  if enable_stats cfg then
    {| total_lookups := total_lookups st; cache_hits := cache_hits st;
       cache_misses := cache_misses st;
       hash_collisions := u32 (hash_collisions st + 1);
       comparisons := comparisons st |}
  else st.

Definition inc_comparisons (cfg : build) (st : mo_stats_t) : mo_stats_t :=
  if enable_stats cfg then
    {| total_lookups := total_lookups st; cache_hits := cache_hits st;
       cache_misses := cache_misses st; hash_collisions := hash_collisions st;
       comparisons := u32 (comparisons st + 1) |}
  else st.

(** ** Byte order *)

Definition mo_swap_uint32 (val : Z) (swap : bool) : Z :=
  if negb swap then val
  else
    Z.lor (Z.lor (Z.lor (Z.land (Z.shiftr val 24) 0x000000FF)
                        (Z.land (Z.shiftr val 8) 0x0000FF00))
                 (Z.land (u32 (Z.shiftl val 8)) 0x00FF0000))
          (Z.land (u32 (Z.shiftl val 24)) 0xFF000000).

(** ** Linear search *)

(** The [for] loop of [mo_find_string_linear]: [k] iterations remain, [i] is
    the loop variable. *)
Fixpoint linear_loop (cfg : build) (m : memory) (prs : list mo_string_pair_t)
    (str : ptr) (len : Z) (k : nat) (i : Z) (st : mo_stats_t)
  : option (mo_stats_t * Z) :=
  match k with
  | O => Some (st, NOT_FOUND)
  | S k' =>
      pair ← prs !! Z.to_nat i;
      let st := inc_comparisons cfg st in
      if negb (original_len pair =? len) then
        linear_loop cfg m prs str len k' (i + 1) st
      else if memcmp m (original pair) str len =? 0 then Some (st, i)
      else linear_loop cfg m prs str len k' (i + 1) st
  end.

Definition mo_find_string_linear (cfg : build) (m : memory)
    (ctx : option mo_context) (str : ptr) (len : Z)
  : option (option mo_context * Z) :=
  match ctx with
  | None => Some (ctx, NOT_FOUND)
  | Some c =>
      match pairs c with
      | None => Some (ctx, NOT_FOUND)
      | Some prs =>
          if num_strings c =? 0 then Some (ctx, NOT_FOUND)
          else
            '(st, r) ← linear_loop cfg m prs str len
                         (Z.to_nat (num_strings c)) 0 (stats c);
            Some (Some (set_stats c st), r)
      end
  end.

(** ** Binary search *)

Definition mo_compare_pairs (m : memory) (pair1 pair2 : mo_string_pair_t) : Z :=
  if original_len pair1 <? original_len pair2 then -1
  else if original_len pair1 >? original_len pair2 then 1
  else memcmp m (original pair1) (original pair2) (original_len pair1).

(** The [while (left <= right)] loop of [mo_find_string_binary]. *)
Fixpoint binary_loop (cfg : build) (m : memory) (prs : list mo_string_pair_t)
    (str : ptr) (len : Z) (fuel : nat) (left right : Z) (st : mo_stats_t)
  : option (mo_stats_t * Z) :=
  match fuel with
  | O => None
  | S fuel' =>
      if left <=? right then
        let mid := u32 (left + u32 (right - left) / 2) in
        pair ← prs !! Z.to_nat mid;
        let st := inc_comparisons cfg st in
        if original_len pair <? len then
          binary_loop cfg m prs str len fuel' (u32 (mid + 1)) right st
        else if original_len pair >? len then
          if mid =? 0 then Some (st, NOT_FOUND)
          else binary_loop cfg m prs str len fuel' left (u32 (mid - 1)) st
        else
          let cmp := memcmp m (original pair) str len in
          if cmp =? 0 then Some (st, mid)
          else if cmp <? 0 then
            binary_loop cfg m prs str len fuel' (u32 (mid + 1)) right st
          else if mid =? 0 then Some (st, NOT_FOUND)
          else binary_loop cfg m prs str len fuel' left (u32 (mid - 1)) st
      else Some (st, NOT_FOUND)
  end.

Definition mo_find_string_binary (cfg : build) (m : memory)
    (ctx : option mo_context) (str : ptr) (len : Z)
  : option (option mo_context * Z) :=
  match ctx with
  | None => Some (ctx, NOT_FOUND)
  | Some c =>
      match pairs c with
      | None => Some (ctx, NOT_FOUND)
      | Some prs =>
          if num_strings c =? 0 then Some (ctx, NOT_FOUND)
          else
            '(st, r) ← binary_loop cfg m prs str len
                         (S (Z.to_nat (num_strings c)))
                         0 (u32 (num_strings c - 1)) (stats c);
            Some (Some (set_stats c st), r)
      end
  end.

(** ** Hash search *)

(** djb2 over [len] bytes; [k] iterations remain. *)
Fixpoint hash_loop (m : memory) (str : ptr) (k : nat) (hash : Z) : Z :=
  match k with
  | O => hash
  | S k' =>
      hash_loop m (str + 1) k'
        (u32 (u32 (u32 (Z.shiftl hash 5) + hash) + load8 m str))
  end.

Definition mo_hash_string (m : memory) (str : ptr) (len : Z) : Z :=
  hash_loop m str (Z.to_nat len) 5381.

Definition mo_next_power_of_two (n : Z) : Z :=
  let n := u32 (n - 1) in
  let n := Z.lor n (Z.shiftr n 1) in
  let n := Z.lor n (Z.shiftr n 2) in
  let n := Z.lor n (Z.shiftr n 4) in
  let n := Z.lor n (Z.shiftr n 8) in
  let n := Z.lor n (Z.shiftr n 16) in
  u32 (n + 1).

(** *** IEEE-754 binary32, for [num_strings / MO_HASH_TABLE_LOAD_FACTOR] *)

Definition f32_prec : Z := 24.
Definition f32_emax : Z := 128.

(** Conversion of an unsigned integer to [float], round to nearest even. *)
Definition f32_of_u32 (n : Z) : spec_float :=
  binary_normalize f32_prec f32_emax n 0 false.

(** [0.75f = 12582912 * 2^-24] *)
Definition MO_HASH_TABLE_LOAD_FACTOR : spec_float :=
  S754_finite false 12582912 (-24).

(** Conversion of a [float] to [uint32_t]: truncation toward zero.  C leaves
    the conversion undefined when the truncated value does not fit; the
    model reduces it modulo 2^32. *)
Definition u32_of_f32 (f : spec_float) : Z :=
  match f with
  | S754_finite s mant e =>
      let v := if 0 <=? e then Z.pos mant * 2 ^ e
               else Z.pos mant / 2 ^ (- e) in
      u32 (if s then - v else v)
  | _ => 0
  end.

(** [(uint32_t)(num_strings / MO_HASH_TABLE_LOAD_FACTOR) + 1] *)
Definition target_size (n : Z) : Z :=
  u32 (u32_of_f32 (SFdiv f32_prec f32_emax (f32_of_u32 n)
                     MO_HASH_TABLE_LOAD_FACTOR) + 1).

(** The probing [while] loop of the insertion: the first slot from [index]
    on that is not occupied. *)
Fixpoint insert_probe (tbl : list mo_hash_slot_t) (mask : Z) (fuel : nat)
    (index : Z) : option Z :=
  match fuel with
  | O => None
  | S fuel' =>
      slot ← tbl !! Z.to_nat index;
      if decide (s_state slot = MO_HASH_SLOT_OCCUPIED) then
        insert_probe tbl mask fuel' (Z.land (u32 (index + 1)) mask)
      else Some index
  end.

(** The insertion [for] loop of [mo_build_hash_table]. *)
Fixpoint build_loop (m : memory) (prs : list mo_string_pair_t) (mask : Z)
    (k : nat) (i : Z) (tbl : list mo_hash_slot_t) (count : Z)
  : option (list mo_hash_slot_t * Z) :=
  match k with
  | O => Some (tbl, count)
  | S k' =>
      pair ← prs !! Z.to_nat i;
      let hash := mo_hash_string m (original pair) (original_len pair) in
      index ← insert_probe tbl mask (length tbl) (Z.land hash mask);
      let slot :=
        {| s_original := original pair; s_translation := translation pair;
           s_original_len := u32 (original_len pair);
           s_translation_len := u32 (translation_len pair);
           s_hash := hash; s_state := MO_HASH_SLOT_OCCUPIED |} in
      build_loop m prs mask k' (i + 1) (<[Z.to_nat index := slot]> tbl)
        (u32 (count + 1))
  end.

(** [calloc_hash] is the outcome of the [calloc] of the table: [false] when
    it returns [NULL]. *)
Definition mo_build_hash_table (m : memory) (calloc_hash : bool)
    (ctx : option mo_context) : option (bool * option mo_context) :=
  match ctx with
  | None => Some (false, ctx)
  | Some c =>
      match pairs c with
      | None => Some (false, ctx)
      | Some prs =>
          if num_strings c =? 0 then Some (false, ctx)
          else
            let sz := mo_next_power_of_two (target_size (num_strings c)) in
            let mask := u32 (sz - 1) in
            if negb calloc_hash then
              Some (false, Some (set_hash_table c None sz mask 0))
            else
              let tbl0 := replicate (Z.to_nat sz) zero_slot in
              '(tbl, count) ← build_loop m prs mask
                                (Z.to_nat (num_strings c)) 0 tbl0 0;
              Some (true, Some (set_hash_table c (Some tbl) sz mask count))
      end
  end.

(** The [while (1)] loop of [mo_find_string_hash]. *)
Fixpoint hash_find_loop (cfg : build) (m : memory) (c : mo_context)
    (tbl : list mo_hash_slot_t) (str : ptr) (len hash : Z) (start_index : Z)
    (fuel : nat) (index : Z) (st : mo_stats_t) : option (mo_stats_t * Z) :=
  match fuel with
  | O => None
  | S fuel' =>
      slot ← tbl !! Z.to_nat index;
      if decide (s_state slot = MO_HASH_SLOT_EMPTY) then Some (st, NOT_FOUND)
      else
        let hit :=
          bool_decide (s_state slot = MO_HASH_SLOT_OCCUPIED)
          && (s_hash slot =? hash) && (s_original_len slot =? len)
          && (memcmp m (s_original slot) str len =? 0) in
        if hit then Some (st, index)
        else
          let st :=
            if bool_decide (s_state slot = MO_HASH_SLOT_OCCUPIED)
               && (hash_table_count c <? hash_table_size c)
            then inc_hash_collisions cfg st else st in
          let index := Z.land (u32 (index + 1)) (hash_table_mask c) in
          if index =? start_index then Some (st, NOT_FOUND)
          else hash_find_loop cfg m c tbl str len hash start_index fuel'
                 index st
  end.

Definition mo_find_string_hash (cfg : build) (m : memory)
    (ctx : option mo_context) (str : ptr) (len hash : Z)
  : option (option mo_context * Z) :=
  match ctx with
  | None => Some (ctx, NOT_FOUND)
  | Some c =>
      match hash_table c with
      | None => Some (ctx, NOT_FOUND)
      | Some tbl =>
          if (hash_table_size c =? 0) || (str =? NULL) then
            Some (ctx, NOT_FOUND)
          else
            let index := Z.land hash (hash_table_mask c) in
            '(st, r) ← hash_find_loop cfg m c tbl str len hash index
                         (Z.to_nat (hash_table_size c)) index (stats c);
            Some (Some (set_stats c st), r)
      end
  end.

(** ** Queries *)

Definition cache_at (ctx : mo_context) (slot : Z) : mo_cache_item_t :=
  default zero_cache_item (cache ctx !! Z.to_nat slot).

(** [mo_translate_n]: the updated context and the returned pointer. *)
Definition mo_translate_n (cfg : build) (m : memory)
    (context : option mo_context) (original : ptr) (original_len : Z)
  : option (option mo_context * ptr) :=
  match context with
  | None => Some (context, original)
  | Some c0 =>
      if bool_decide (pairs c0 = None) || (original =? NULL) then
        Some (context, original)
      else
        let c := set_stats c0 (inc_total_lookups cfg (stats c0)) in
        let hash :=
          match method cfg with
          | HASH => mo_hash_string m original original_len
          | _ => 0
          end in
        let cache_slot :=
          match method cfg with
          | HASH => Z.land hash (MO_CACHE_SIZE - 1)
          | _ => Z.land original (MO_CACHE_SIZE - 1)
          end in
        let cached := cache_at c cache_slot in
        let is_hit :=
          match method cfg with
          | HASH => (c_original cached =? original) && (c_hash cached =? hash)
          | _ => c_original cached =? original
          end in
        if is_hit then
          Some (Some (set_stats c (inc_cache_hits cfg (stats c))),
                if c_translation cached =? NULL then original
                else c_translation cached)
        else
          let c := set_stats c (inc_cache_misses cfg (stats c)) in
          '(ctx', index) ←
            match method cfg with
            | LINEAR => mo_find_string_linear cfg m (Some c) original original_len
            | BINARY => mo_find_string_binary cfg m (Some c) original original_len
            | HASH => mo_find_string_hash cfg m (Some c) original original_len hash
            end;
          c ← ctx';
          if index =? NOT_FOUND then Some (Some c, original)
          else
            result ←
              match method cfg with
              | HASH =>
                  tbl ← hash_table c;
                  slot ← tbl !! Z.to_nat index;
                  Some (s_translation slot)
              | _ =>
                  prs ← pairs c;
                  pair ← prs !! Z.to_nat index;
                  Some (translation pair)
              end;
            let item :=
              {| c_original := original; c_translation := result;
                 c_hash := match method cfg with
                           | HASH => hash
                           | _ => c_hash (cache_at c cache_slot)
                           end |} in
            Some (Some (set_cache c (<[Z.to_nat cache_slot := item]> (cache c))),
                  result)
  end.

(** [mo_translate]; [limit] bounds the scan of [strlen]. *)
Definition mo_translate (cfg : build) (limit : nat) (m : memory)
    (context : option mo_context) (original : ptr)
  : option (option mo_context * ptr) :=
  if original =? NULL then mo_translate_n cfg m context original 0
  else
    len ← strlen limit m original;
    mo_translate_n cfg m context original len.

(** *** Context and plural queries *)

Definition INT_MAX : Z := 2 ^ 31 - 1.

(** The characters produced by the formats ["%s\004%s"] and ["%s"]. *)
Definition format_ctx (limit : nat) (m : memory) (a b : ptr) : option (list Z) :=
  la ← strlen limit m a;
  lb ← strlen limit m b;
  Some (bytes m a la ++ [4] ++ bytes m b lb).

Definition format_plain (limit : nat) (m : memory) (a : ptr) : option (list Z) :=
  la ← strlen limit m a;
  Some (bytes m a la).

(** [snprintf(buf, n, ...)] for the formatted characters [out]: at most
    [n - 1] of them are stored, followed by a terminator; the result is the
    full length, or -1 when it does not fit an [int], converted to
    [size_t]. *)
Definition snprintf (m : memory) (buf : ptr) (n : Z) (out : list Z) : memory * Z :=
  (store_bytes m buf (take (Z.to_nat (n - 1)) out ++ [0]),
   if Z.of_nat (length out) >? INT_MAX then u64 (-1)
   else Z.of_nat (length out)).

(** [mo_translate_cp]; [key] is the address of the local buffer
    [char key[MO_MAX_STRING_LENGTH]].  The result carries the memory, in
    which that buffer has been written. *)
Definition mo_translate_cp (cfg : build) (limit : nat) (m : memory) (key : ptr)
    (context : option mo_context) (context_str singular plural : ptr) (n : Z)
  : option (memory * option mo_context * ptr) :=
  if bool_decide (context = None) || (singular =? NULL) then
    Some (m, context, singular)
  else
    out ← (if negb (context_str =? NULL)
           then format_ctx limit m context_str singular
           else format_plain limit m singular);
    let '(m1, key_len) := snprintf m key MO_MAX_STRING_LENGTH out in
    if key_len >=? MO_MAX_STRING_LENGTH then Some (m1, context, singular)
    else
      '(c1, result) ← mo_translate_n cfg m1 context key key_len;
      '(c2, result) ←
        (if (result =? key) && negb (context_str =? NULL)
         then mo_translate cfg limit m1 c1 singular
         else Some (c1, result));
      if negb (plural =? NULL) && negb (n =? 1) then
        '(m2, c3, plural_translation) ←
          (if negb (context_str =? NULL) then
             out2 ← format_ctx limit m1 context_str plural;
             let '(m2, key_len) := snprintf m1 key MO_MAX_STRING_LENGTH out2 in
             if key_len <? MO_MAX_STRING_LENGTH then
               '(c3, r) ← mo_translate_n cfg m2 c2 key key_len;
               Some (m2, c3, r)
             else Some (m2, c2, NULL)
           else Some (m1, c2, NULL));
        '(c4, plural_translation) ←
          (if (plural_translation =? NULL) || (plural_translation =? key)
           then mo_translate cfg limit m2 c3 plural
           else Some (c3, plural_translation));
        Some (m2, c4, plural_translation)
      else Some (m1, c2, result)
  .

Definition mo_get_string_count (context : option mo_context) : Z :=
  match context with
  | Some c => num_strings c
  | None => 0
  end.

(** ** Loading a catalog *)

(** The outcomes of the allocations of [mo_context_create_from_memory]:
    whether each [calloc] succeeds, and the address [malloc] returns for the
    copy of the file ([NULL] on failure). *)
Record allocator := {
  calloc_ctx : bool;
  malloc_data : ptr;
  calloc_pairs : bool;
  calloc_hash : bool
}.

(** The result code, the context stored through the out-parameter (if any)
    and the memory. *)
Record create_out := {
  err : mo_error_t;
  ctx_out : option mo_context;
  mem_out : memory
}.

(** The [for] loop that resolves the descriptors; [None] is the
    [MO_ERROR_INVALID_FORMAT] exit. *)
Fixpoint pairs_loop (m : memory) (buf : ptr) (size : Z) (need_swap : bool)
    (orig_table trans_table : ptr) (k : nat) (i : Z)
  : option (list mo_string_pair_t) :=
  match k with
  | O => Some []
  | S k' =>
      let orig_len :=
        mo_swap_uint32 (load32 m (orig_table + 8 * i)) need_swap in
      let orig_offset :=
        mo_swap_uint32 (load32 m (orig_table + 8 * i + 4)) need_swap in
      let trans_len :=
        mo_swap_uint32 (load32 m (trans_table + 8 * i)) need_swap in
      let trans_offset :=
        mo_swap_uint32 (load32 m (trans_table + 8 * i + 4)) need_swap in
      if (u32 (u32 (orig_offset + orig_len) + 1) >? size)
         || (u32 (u32 (trans_offset + trans_len) + 1) >? size)
      then None
      else
        rest ← pairs_loop m buf size need_swap orig_table trans_table k' (i + 1);
        Some ({| original := buf + orig_offset;
                 translation := buf + trans_offset;
                 original_len := orig_len;
                 translation_len := trans_len |} :: rest)
  end.

(** The six assignments that put the header fields after [magic] in host
    order, in place: [header->revision = mo_swap_uint32(header->revision,
    need_swap)] and so on, for the fields at offsets 4 to 24. *)
Definition swap_header (m : memory) (header : ptr) (need_swap : bool) : memory :=
  let m := store32 m (header + 4) (mo_swap_uint32 (load32 m (header + 4)) need_swap) in
  let m := store32 m (header + 8) (mo_swap_uint32 (load32 m (header + 8)) need_swap) in
  let m := store32 m (header + 12) (mo_swap_uint32 (load32 m (header + 12)) need_swap) in
  let m := store32 m (header + 16) (mo_swap_uint32 (load32 m (header + 16)) need_swap) in
  let m := store32 m (header + 20) (mo_swap_uint32 (load32 m (header + 20)) need_swap) in
  store32 m (header + 24) (mo_swap_uint32 (load32 m (header + 24)) need_swap).

Section Loader.

(** [qsort] of the C library, applied to the pair array with a comparison
    function. *)
Variable qsort : (mo_string_pair_t -> mo_string_pair_t -> Z) ->
                 list mo_string_pair_t -> list mo_string_pair_t.

Definition failed (e : mo_error_t) (m : memory) : option create_out :=
  Some {| err := e; ctx_out := None; mem_out := m |}.

(** [mo_context_create_from_memory(data, size, context)]; [context_ptr] tells
    whether the out-parameter is non-null.  A failed call leaves the
    caller's memory as it was (the copy is released). *)
Definition mo_context_create_from_memory (cfg : build) (al : allocator)
    (m : memory) (data : ptr) (size : Z) (context_ptr : bool)
  : option create_out :=
  if (data =? NULL) || (size <? sizeof_mo_header_t) || negb context_ptr then
    failed MO_ERROR_INVALID_CONTEXT m
  else if negb (calloc_ctx al) then failed MO_ERROR_MEMORY m
  else
    let buf := malloc_data al in
    if buf =? NULL then failed MO_ERROR_MEMORY m
    else
      let m1 := memcpy m buf data size in
      let magic := load32 m1 buf in
      if negb ((magic =? MO_MAGIC) || (magic =? MO_MAGIC_REV)) then
        failed MO_ERROR_INVALID_FORMAT m
      else
        let need_swap := negb (magic =? MO_MAGIC) in
        let m1 := swap_header m1 buf need_swap in
        let n := load32 m1 (buf + 8) in
        let orig_table_offset := load32 m1 (buf + 12) in
        let trans_table_offset := load32 m1 (buf + 16) in
        if (u64 (orig_table_offset + u64 (n * sizeof_mo_string_entry_t)) >? size)
           || (u64 (trans_table_offset + u64 (n * sizeof_mo_string_entry_t)) >? size)
        then failed MO_ERROR_INVALID_FORMAT m
        else if negb (calloc_pairs al) then failed MO_ERROR_MEMORY m
        else
          match pairs_loop m1 buf size need_swap (buf + orig_table_offset)
                  (buf + trans_table_offset) (Z.to_nat n) 0 with
          | None => failed MO_ERROR_INVALID_FORMAT m
          | Some prs =>
              let prs :=
                match method cfg with
                | BINARY => qsort (mo_compare_pairs m1) prs
                | _ => prs
                end in
              let c :=
                {| data := buf; size := size; pairs := Some prs;
                   num_strings := n; hash_table := None;
                   hash_table_size := 0; hash_table_mask := 0;
                   hash_table_count := 0;
                   cache := replicate (Z.to_nat MO_CACHE_SIZE) zero_cache_item;
                   stats := zero_stats |} in
              match method cfg with
              | HASH =>
                  '(ok, c') ← mo_build_hash_table m1 (calloc_hash al) (Some c);
                  if (ok : bool) then
                    Some {| err := MO_SUCCESS; ctx_out := c'; mem_out := m1 |}
                  else failed MO_ERROR_MEMORY m
              | _ =>
                  Some {| err := MO_SUCCESS; ctx_out := Some c; mem_out := m1 |}
              end
          end.

End Loader.

(** * Properties *)

(** ** Machine arithmetic *)

Lemma u32_range x : 0 <= u32 x < 2 ^ 32.
Proof. unfold u32. apply Z.mod_pos_bound. lia. Qed.

Lemma u32_small x : 0 <= x < 2 ^ 32 -> u32 x = x.
Proof. intros. unfold u32. apply Z.mod_small. lia. Qed.

Lemma u64_small x : 0 <= x < 2 ^ 64 -> u64 x = x.
Proof. intros. unfold u64. apply Z.mod_small. lia. Qed.

Lemma load8_range m a : 0 <= load8 m a < 256.
Proof. unfold load8. apply Z.mod_pos_bound. lia. Qed.

Lemma load32_range m a : 0 <= load32 m a < 2 ^ 32.
Proof.
  unfold load32.
  pose proof (load8_range m a). pose proof (load8_range m (a + 1)).
  pose proof (load8_range m (a + 2)). pose proof (load8_range m (a + 3)).
  lia.
Qed.

Lemma mo_swap_uint32_range v swap :
  0 <= v < 2 ^ 32 -> 0 <= mo_swap_uint32 v swap < 2 ^ 32.
Proof.
  intros Hv. unfold mo_swap_uint32. destruct swap; simpl; [|lia].
  assert (H1 : forall a b, 0 <= a < 2 ^ 32 -> 0 <= b < 2 ^ 32 ->
                           0 <= Z.lor a b < 2 ^ 32).
  { intros a b Ha Hb. split; [apply Z.lor_nonneg; lia|].
    destruct (Z.eq_dec (Z.lor a b) 0) as [->|Hne]; [lia|].
    apply Z.log2_lt_pow2; [pose proof (Z.lor_nonneg a b); lia|].
    rewrite Z.log2_lor by lia.
    destruct (Z.eq_dec a 0) as [->|]; destruct (Z.eq_dec b 0) as [->|];
      simpl in *; try lia.
    - rewrite Z.max_r by apply Z.log2_nonneg. apply Z.log2_lt_pow2; lia.
    - rewrite Z.max_l by apply Z.log2_nonneg. apply Z.log2_lt_pow2; lia.
    - apply Z.max_lub_lt; apply Z.log2_lt_pow2; lia. }
  assert (H2 : forall a k, 0 <= k < 2 ^ 32 -> 0 <= a -> 0 <= Z.land a k < 2 ^ 32).
  { intros a k Hk Ha.
    assert (0 <= Z.land a k) by (apply Z.land_nonneg; lia).
    split; [done|].
    destruct (Z.eq_dec (Z.land a k) 0) as [->|Hne]; [lia|].
    apply Z.log2_lt_pow2; [lia|].
    pose proof (Z.log2_land a k ltac:(lia) ltac:(lia)).
    destruct (Z.eq_dec k 0) as [->|]; [rewrite Z.land_0_r in Hne; lia|].
    assert (Z.log2 k < 32) by (apply Z.log2_lt_pow2; lia). lia. }
  assert (0 <= Z.shiftr v 24) by (apply Z.shiftr_nonneg; lia).
  assert (0 <= Z.shiftr v 8) by (apply Z.shiftr_nonneg; lia).
  pose proof (u32_range (Z.shiftl v 8)). pose proof (u32_range (Z.shiftl v 24)).
  apply H1; [apply H1; [apply H1|]|]; apply H2; lia.
Qed.

(** ** [memcmp] compares the byte sequences lexicographically *)

Lemma memcmp_n_eq m p q n :
  memcmp_n m p q n = 0 <-> bytes_n m p n = bytes_n m q n.
Proof.
  revert p q. induction n as [|n IH]; intros p q; simpl; [done|].
  destruct (Z.eqb_spec (load8 m p) (load8 m q)) as [E|E].
  - rewrite IH, E. split; [congruence|]. intros H; by injection H.
  - split; [lia|]. intros H; injection H; intros; contradiction.
Qed.

Lemma memcmp_eq m p q len :
  memcmp m p q len = 0 <-> bytes m p len = bytes m q len.
Proof. apply memcmp_n_eq. Qed.

Lemma memcmp_n_antisym m p q n : memcmp_n m q p n = - memcmp_n m p q n.
Proof.
  revert p q. induction n as [|n IH]; intros p q; simpl; [done|].
  destruct (Z.eqb_spec (load8 m p) (load8 m q)) as [E|E].
  - rewrite E, Z.eqb_refl. apply IH.
  - destruct (Z.eqb_spec (load8 m q) (load8 m p)); [congruence|lia].
Qed.

Lemma memcmp_n_trans m a b c n :
  memcmp_n m a b n <= 0 -> memcmp_n m b c n <= 0 ->
  memcmp_n m a c n <= 0 /\
  (memcmp_n m a b n < 0 \/ memcmp_n m b c n < 0 -> memcmp_n m a c n < 0).
Proof.
  revert a b c. induction n as [|n IH]; intros a b c; simpl; [lia|].
  destruct (Z.eqb_spec (load8 m a) (load8 m b)) as [E1|E1];
    destruct (Z.eqb_spec (load8 m b) (load8 m c)) as [E2|E2];
    destruct (Z.eqb_spec (load8 m a) (load8 m c)) as [E3|E3];
    try lia; try congruence.
  apply IH.
Qed.

Lemma bytes_n_length m p n : length (bytes_n m p n) = n.
Proof. revert p. induction n; intros; simpl; auto. Qed.

Lemma bytes_n_lookup m p n (i : nat) :
  (i < n)%nat -> bytes_n m p n !! i = Some (load8 m (p + Z.of_nat i)).
Proof.
  revert p i. induction n as [|n IH]; intros p i Hi; [lia|].
  destruct i as [|i]; simpl.
  - by rewrite Z.add_0_r.
  - rewrite IH by lia. do 2 f_equal. lia.
Qed.

Lemma bytes_n_ext m1 m2 p q n :
  (forall k, 0 <= k < Z.of_nat n -> load8 m1 (p + k) = load8 m2 (q + k)) ->
  bytes_n m1 p n = bytes_n m2 q n.
Proof.
  revert p q. induction n as [|n IH]; intros p q H; simpl; [done|].
  f_equal.
  - specialize (H 0). rewrite !Z.add_0_r in H. apply H. lia.
  - apply IH. intros k Hk. specialize (H (k + 1)).
    replace (p + 1 + k) with (p + (k + 1)) by lia.
    replace (q + 1 + k) with (q + (k + 1)) by lia. apply H. lia.
Qed.

Lemma memcmp_n_ext m1 m2 p q p' q' n :
  bytes_n m1 p n = bytes_n m2 p' n -> bytes_n m1 q n = bytes_n m2 q' n ->
  memcmp_n m1 p q n = memcmp_n m2 p' q' n.
Proof.
  revert p q p' q'. induction n as [|n IH]; intros p q p' q' Hp Hq; simpl; [done|].
  simpl in Hp, Hq. injection Hp as Hp1 Hp2. injection Hq as Hq1 Hq2.
  rewrite Hp1, Hq1. destruct (load8 m2 p' =? load8 m2 q'); [|done].
  by apply IH.
Qed.

(** The hash of a string depends on its bytes only. *)
Lemma hash_loop_ext m1 m2 p q n h :
  bytes_n m1 p n = bytes_n m2 q n -> hash_loop m1 p n h = hash_loop m2 q n h.
Proof.
  revert p q h. induction n as [|n IH]; intros p q h H; simpl; [done|].
  simpl in H. injection H as H1 H2. rewrite H1. by apply IH.
Qed.

Lemma mo_hash_string_ext m1 m2 p q len :
  bytes m1 p len = bytes m2 q len ->
  mo_hash_string m1 p len = mo_hash_string m2 q len.
Proof. apply hash_loop_ext. Qed.

(** ** The compound key order: length first, then bytes *)

Definition key_cmp (m : memory) (p1 : ptr) (l1 : Z) (p2 : ptr) (l2 : Z) : Z :=
  if l1 <? l2 then -1
  else if l1 >? l2 then 1
  else memcmp m p1 p2 l1.

Lemma mo_compare_pairs_key m a b :
  mo_compare_pairs m a b =
  key_cmp m (original a) (original_len a) (original b) (original_len b).
Proof. done. Qed.

Lemma key_cmp_trans m p1 l1 p2 l2 p3 l3 :
  key_cmp m p1 l1 p2 l2 <= 0 -> key_cmp m p2 l2 p3 l3 <= 0 ->
  key_cmp m p1 l1 p3 l3 <= 0 /\
  (key_cmp m p1 l1 p2 l2 < 0 \/ key_cmp m p2 l2 p3 l3 < 0 ->
   key_cmp m p1 l1 p3 l3 < 0).
Proof.
  unfold key_cmp, memcmp.
  destruct (Z.ltb_spec l1 l2), (Z.ltb_spec l2 l3), (Z.ltb_spec l1 l3),
    (Z.gtb_spec l1 l2), (Z.gtb_spec l2 l3), (Z.gtb_spec l1 l3); try lia.
  assert (l2 = l1) as -> by lia. apply memcmp_n_trans.
Qed.

Lemma key_cmp_antisym m p1 l1 p2 l2 :
  key_cmp m p2 l2 p1 l1 = - key_cmp m p1 l1 p2 l2.
Proof.
  unfold key_cmp, memcmp.
  destruct (Z.ltb_spec l1 l2), (Z.ltb_spec l2 l1),
    (Z.gtb_spec l1 l2), (Z.gtb_spec l2 l1); try lia.
  assert (l2 = l1) as -> by lia. apply memcmp_n_antisym.
Qed.

Lemma key_cmp_eq m p1 l1 p2 l2 :
  key_cmp m p1 l1 p2 l2 = 0 <-> l1 = l2 /\ bytes m p1 l1 = bytes m p2 l1.
Proof.
  unfold key_cmp.
  destruct (Z.ltb_spec l1 l2), (Z.gtb_spec l1 l2); try lia.
  rewrite memcmp_eq. intuition lia.
Qed.

(** A pair matches a query when the lengths and the bytes agree: the test
    every strategy applies before it returns an index. *)
Definition matchb (m : memory) (str : ptr) (len : Z) (pair : mo_string_pair_t)
  : bool :=
  (original_len pair =? len) && (memcmp m (original pair) str len =? 0).

Lemma matchb_key m str len pair :
  matchb m str len pair = true <->
  key_cmp m (original pair) (original_len pair) str len = 0.
Proof.
  unfold matchb. rewrite key_cmp_eq, andb_true_iff, !Z.eqb_eq, memcmp_eq.
  split; intros [H1 H2]; split; auto; congruence.
Qed.

(** ** What a lookup denotes

    [find_pair] is the first pair of the array that matches the query; a
    lookup is meant to return its translation, and the query itself when
    there is none. *)

Definition find_pair (m : memory) (prs : list mo_string_pair_t) (str : ptr)
    (len : Z) : option (nat * mo_string_pair_t) :=
  list_find (fun pr => matchb m str len pr = true) prs.

Definition lookup_spec (m : memory) (prs : list mo_string_pair_t) (str : ptr)
    (len : Z) : ptr :=
  if str =? NULL then str
  else match find_pair m prs str len with
       | Some (_, pr) => translation pr
       | None => str
       end.

(** No two entries of the array have the same original. *)
Definition distinct_originals (m : memory) (prs : list mo_string_pair_t) : Prop :=
  forall (i j : nat) p q,
    prs !! i = Some p -> prs !! j = Some q ->
    mo_compare_pairs m p q = 0 -> i = j.

Lemma matchb_same_key m str len p q :
  matchb m str len p = true -> matchb m str len q = true ->
  mo_compare_pairs m p q = 0.
Proof.
  rewrite !matchb_key, mo_compare_pairs_key, !key_cmp_eq.
  intros [-> H1] [-> H2]. split; congruence.
Qed.

Lemma matchb_compare m str len p q :
  mo_compare_pairs m p q = 0 ->
  matchb m str len p = matchb m str len q.
Proof.
  rewrite mo_compare_pairs_key, key_cmp_eq. intros [Hl Hb].
  unfold matchb. rewrite <- Hl.
  destruct (Z.eqb_spec (original_len p) len) as [E|E]; [|done]. simpl.
  subst len. unfold memcmp.
  rewrite (memcmp_n_ext m m (original p) str (original q) str); [done|apply Hb|done].
Qed.

Lemma find_pair_unique m prs str len (i : nat) pr :
  distinct_originals m prs ->
  prs !! i = Some pr -> matchb m str len pr = true ->
  find_pair m prs str len = Some (i, pr).
Proof.
  intros Hd Hi Hm. apply list_find_Some. split; [done|]. split; [done|].
  intros j y Hj Hlt Hy.
  assert (j = i) by (eapply Hd; eauto using matchb_same_key). lia.
Qed.

(** ** Linear search *)

Lemma linear_loop_spec cfg m prs str len k i st :
  0 <= i -> i + Z.of_nat k = Z.of_nat (length prs) ->
  exists st' r,
    linear_loop cfg m prs str len k i st = Some (st', r) /\
    ((r = NOT_FOUND /\
      forall (j : nat) p, i <= Z.of_nat j -> prs !! j = Some p ->
                          matchb m str len p = false) \/
     (i <= r < Z.of_nat (length prs) /\
      exists p, prs !! Z.to_nat r = Some p /\ matchb m str len p = true /\
        forall (j : nat) p', i <= Z.of_nat j < r -> prs !! j = Some p' ->
                             matchb m str len p' = false)).
Proof.
  revert i st. induction k as [|k IH]; intros i st Hi Hk; simpl.
  - eexists _, _. split; [done|]. left. split; [done|].
    intros j p Hj Hp. apply lookup_lt_Some in Hp. lia.
  - destruct (prs !! Z.to_nat i) as [pr|] eqn:Hp; simpl.
    2:{ apply lookup_ge_None in Hp. lia. }
    assert (Hstep : forall st0,
      matchb m str len pr = false ->
      exists st' r,
        linear_loop cfg m prs str len k (i + 1) st0 = Some (st', r) /\
        ((r = NOT_FOUND /\
          forall (j : nat) p, i <= Z.of_nat j -> prs !! j = Some p ->
                              matchb m str len p = false) \/
         (i <= r < Z.of_nat (length prs) /\
          exists p, prs !! Z.to_nat r = Some p /\ matchb m str len p = true /\
            forall (j : nat) p', i <= Z.of_nat j < r -> prs !! j = Some p' ->
                                 matchb m str len p' = false))).
    { intros st0 Hno.
      destruct (IH (i + 1) st0) as (st' & r & Hr & Hcase); [lia|lia|].
      exists st', r. split; [done|].
      assert (Hone : forall (j : nat) p, Z.of_nat j = i -> prs !! j = Some p ->
                                         matchb m str len p = false).
      { intros j p Hj Hjp. replace j with (Z.to_nat i) in Hjp by lia. congruence. }
      destruct Hcase as [[-> Hall]|(Hrange & p & Hrp & Hm & Hbefore)].
      - left. split; [done|]. intros j p Hj Hjp.
        destruct (Z.eq_dec (Z.of_nat j) i); [eauto|]. apply (Hall j); [lia|done].
      - right. split; [lia|]. exists p. repeat split; try done.
        intros j p' Hj Hjp.
        destruct (Z.eq_dec (Z.of_nat j) i); [eauto|]. apply (Hbefore j); [lia|done]. }
    unfold matchb in Hstep.
    destruct (Z.eqb_spec (original_len pr) len) as [El|El]; simpl.
    + destruct (Z.eqb_spec (memcmp m (original pr) str len) 0) as [Ec|Ec].
      * eexists _, _. split; [done|]. right. split; [lia|].
        exists pr. split; [done|]. split.
        -- unfold matchb. rewrite El, Ec, !Z.eqb_refl. done.
        -- intros j p' Hj. lia.
      * apply Hstep. simpl in *. done.
    + apply Hstep. done.
Qed.

Lemma linear_loop_find cfg m prs str len st :
  Z.of_nat (length prs) < 2 ^ 32 ->
  exists st',
    linear_loop cfg m prs str len (length prs) 0 st =
    Some (st', match find_pair m prs str len with
               | Some (i, _) => Z.of_nat i
               | None => NOT_FOUND
               end).
Proof.
  intros Hn.
  destruct (linear_loop_spec cfg m prs str len (length prs) 0 st)
    as (st' & r & Hr & Hcase); [lia|lia|].
  exists st'. rewrite Hr. do 2 f_equal.
  destruct Hcase as [[-> Hall]|(Hrange & p & Hrp & Hm & Hbefore)].
  - assert (find_pair m prs str len = None) as ->; [|done].
    apply list_find_None, Forall_forall. intros x Hx.
    apply list_elem_of_lookup in Hx as [j Hj].
    rewrite (Hall j x); [done|lia|done].
  - assert (find_pair m prs str len = Some (Z.to_nat r, p)) as ->; [|lia].
    apply list_find_Some. split; [done|]. split; [done|].
    intros j y Hj Hlt. rewrite (Hbefore j y); [done|lia|done].
Qed.

(** ** Binary search *)

(** The array is ordered by the comparison function given to [qsort]. *)
Definition sorted_pairs (m : memory) (prs : list mo_string_pair_t) : Prop :=
  forall (i j : nat) p q,
    prs !! i = Some p -> prs !! j = Some q -> (i < j)%nat ->
    mo_compare_pairs m p q <= 0.

Definition query_cmp (m : memory) (str : ptr) (len : Z) (p : mo_string_pair_t)
  : Z :=
  key_cmp m (original p) (original_len p) str len.

Lemma sorted_below m prs str len (t mid : nat) pt pm :
  sorted_pairs m prs -> prs !! t = Some pt -> prs !! mid = Some pm ->
  query_cmp m str len pm < 0 -> matchb m str len pt = true ->
  (mid < t)%nat.
Proof.
  intros Hs Ht Hm Hlt Hmatch. apply matchb_key in Hmatch.
  unfold query_cmp in Hlt.
  destruct (decide (mid < t)%nat) as [|Hge]; [done|exfalso].
  destruct (decide (t = mid)) as [->|Hne].
  - assert (pt = pm) by congruence. subst. lia.
  - assert (Hc : mo_compare_pairs m pt pm <= 0) by (eapply (Hs t mid); eauto; lia).
    rewrite mo_compare_pairs_key in Hc.
    pose proof (key_cmp_trans m _ _ _ _ str len Hc ltac:(lia)) as [_ H].
    lia.
Qed.

Lemma sorted_above m prs str len (t mid : nat) pt pm :
  sorted_pairs m prs -> prs !! t = Some pt -> prs !! mid = Some pm ->
  0 < query_cmp m str len pm -> matchb m str len pt = true ->
  (t < mid)%nat.
Proof.
  intros Hs Ht Hm Hgt Hmatch. apply matchb_key in Hmatch.
  unfold query_cmp in Hgt.
  destruct (decide (t < mid)%nat) as [|Hge]; [done|exfalso].
  destruct (decide (t = mid)) as [->|Hne].
  - assert (pt = pm) by congruence. subst. lia.
  - assert (Hc : mo_compare_pairs m pm pt <= 0) by (eapply (Hs mid t); eauto; lia).
    rewrite mo_compare_pairs_key in Hc.
    pose proof (key_cmp_trans m _ _ _ _ str len Hc ltac:(lia)) as [H _].
    lia.
Qed.

Lemma binary_loop_spec cfg m prs str len fuel :
  Z.of_nat (length prs) < 2 ^ 32 ->
  forall left right st,
    0 <= left -> 0 <= right < Z.of_nat (length prs) -> left <= right + 1 ->
    right - left + 1 < Z.of_nat fuel ->
    exists st' r,
      binary_loop cfg m prs str len fuel left right st = Some (st', r) /\
      (r = NOT_FOUND \/
       (left <= r <= right /\
        exists p, prs !! Z.to_nat r = Some p /\ matchb m str len p = true)) /\
      (sorted_pairs m prs ->
       forall (t : nat) p, left <= Z.of_nat t <= right -> prs !! t = Some p ->
                           matchb m str len p = true -> r <> NOT_FOUND).
Proof.
  intros Hn. induction fuel as [|fuel IH]; intros left right st Hl Hr Hlr Hf; [lia|].
  simpl. destruct (Z.leb_spec left right) as [Hle|Hgt].
  2:{ eexists _, _. split; [done|]. split; [by left|]. intros _ t p Ht. lia. }
  set (mid := left + (right - left) / 2).
  assert (Hmid : left <= mid <= right).
  { unfold mid. pose proof (Z.div_pos (right - left) 2).
    assert ((right - left) / 2 <= right - left)
      by (apply Z.div_le_upper_bound; lia). lia. }
  assert (Hu : u32 (left + u32 (right - left) / 2) = mid).
  { rewrite (u32_small (right - left)) by lia. apply u32_small. lia. }
  rewrite Hu.
  destruct (prs !! Z.to_nat mid) as [pm|] eqn:Hpm; simpl.
  2:{ apply lookup_ge_None in Hpm. lia. }
  set (st1 := inc_comparisons cfg st).
  assert (Hup : query_cmp m str len pm < 0 ->
    exists st' r,
      binary_loop cfg m prs str len fuel (u32 (mid + 1)) right st1 = Some (st', r) /\
      (r = NOT_FOUND \/
       (left <= r <= right /\
        exists p, prs !! Z.to_nat r = Some p /\ matchb m str len p = true)) /\
      (sorted_pairs m prs ->
       forall (t : nat) p, left <= Z.of_nat t <= right -> prs !! t = Some p ->
                           matchb m str len p = true -> r <> NOT_FOUND)).
  { intros Hq. rewrite (u32_small (mid + 1)) by lia.
    destruct (IH (mid + 1) right st1) as (st' & r & Hres & Hr1 & Hr2); try lia.
    exists st', r. split; [done|]. split.
    - destruct Hr1 as [|[? ?]]; [by left|right]. split; [lia|done].
    - intros Hs t p Ht Hp Hmatch.
      pose proof (sorted_below m prs str len t (Z.to_nat mid) p pm Hs Hp Hpm Hq Hmatch).
      apply (Hr2 Hs t p); [lia|done|done]. }
  assert (Hdown : 0 < query_cmp m str len pm ->
    exists st' r,
      (if mid =? 0 then Some (st1, NOT_FOUND)
       else binary_loop cfg m prs str len fuel left (u32 (mid - 1)) st1)
      = Some (st', r) /\
      (r = NOT_FOUND \/
       (left <= r <= right /\
        exists p, prs !! Z.to_nat r = Some p /\ matchb m str len p = true)) /\
      (sorted_pairs m prs ->
       forall (t : nat) p, left <= Z.of_nat t <= right -> prs !! t = Some p ->
                           matchb m str len p = true -> r <> NOT_FOUND)).
  { intros Hq. destruct (Z.eqb_spec mid 0) as [E0|E0].
    - eexists _, _. split; [done|]. split; [by left|].
      intros Hs t p Ht Hp Hmatch.
      pose proof (sorted_above m prs str len t (Z.to_nat mid) p pm Hs Hp Hpm Hq Hmatch).
      lia.
    - rewrite (u32_small (mid - 1)) by lia.
      destruct (IH left (mid - 1) st1) as (st' & r & Hres & Hr1 & Hr2); try lia.
      exists st', r. split; [done|]. split.
      + destruct Hr1 as [|[? ?]]; [by left|right]. split; [lia|done].
      + intros Hs t p Ht Hp Hmatch.
        pose proof (sorted_above m prs str len t (Z.to_nat mid) p pm Hs Hp Hpm Hq Hmatch).
        apply (Hr2 Hs t p); [lia|done|done]. }
  unfold query_cmp, key_cmp in Hup, Hdown.
  destruct (Z.ltb_spec (original_len pm) len) as [L1|L1]; [apply Hup; lia|].
  destruct (Z.gtb_spec (original_len pm) len) as [L2|L2]; [apply Hdown; lia|].
  assert (original_len pm = len) as El by lia. rewrite El in Hup, Hdown.
  destruct (Z.eqb_spec (memcmp m (original pm) str len) 0) as [Ec|Ec].
  - eexists _, _. split; [done|].
    assert (matchb m str len pm = true)
      by (unfold matchb; rewrite El, Ec, !Z.eqb_refl; done).
    split.
    + right. split; [lia|]. eauto.
    + intros _ t p _ _ _. unfold NOT_FOUND. lia.
  - destruct (Z.ltb_spec (memcmp m (original pm) str len) 0); [apply Hup|apply Hdown]; lia.
Qed.

(** ** [mo_next_power_of_two] *)

Definition is_pow2 (s : Z) : Prop := exists k, 0 <= k /\ s = 2 ^ k.

Definition smallest_pow2_ge (x s : Z) : Prop :=
  is_pow2 s /\ x <= s /\ forall s', is_pow2 s' -> x <= s' -> s <= s'.

(** Bits [L - w + 1 .. L] of [n] are set and no bit above [L] is. *)
Definition filled (L w n : Z) : Prop :=
  (forall j, L < j -> Z.testbit n j = false) /\
  (forall j, 0 <= j -> L - w < j <= L -> Z.testbit n j = true).

Lemma filled_step L w n :
  0 <= L -> 0 < w -> filled L w n -> filled L (2 * w) (Z.lor n (Z.shiftr n w)).
Proof.
  intros HL Hw [Hhi Hlo]. split; intros j Hj.
  - rewrite Z.lor_spec, Z.shiftr_spec by lia.
    rewrite Hhi by lia. rewrite Hhi by lia. done.
  - intros Hr. rewrite Z.lor_spec, Z.shiftr_spec by lia.
    destruct (Z_lt_dec (L - w) j).
    + rewrite Hlo by lia. done.
    + rewrite (Hlo (j + w)) by lia. apply orb_true_r.
Qed.

Definition smear (n : Z) : Z :=
  let n := Z.lor n (Z.shiftr n 1) in
  let n := Z.lor n (Z.shiftr n 2) in
  let n := Z.lor n (Z.shiftr n 4) in
  let n := Z.lor n (Z.shiftr n 8) in
  Z.lor n (Z.shiftr n 16).

Lemma smear_ones y :
  0 < y < 2 ^ 32 -> smear y = 2 ^ (Z.log2 y + 1) - 1.
Proof.
  intros Hy.
  assert (HL : 0 <= Z.log2 y < 32).
  { split; [apply Z.log2_nonneg|apply Z.log2_lt_pow2; lia]. }
  assert (H1 : filled (Z.log2 y) 1 y).
  { split.
    - intros j Hj. apply Z.bits_above_log2; lia.
    - intros j Hj Hr. replace j with (Z.log2 y) by lia. apply Z.bit_log2. lia. }
  apply (filled_step _ 1) in H1; [|lia..].
  apply (filled_step _ 2) in H1; [|lia..].
  apply (filled_step _ 4) in H1; [|lia..].
  apply (filled_step _ 8) in H1; [|lia..].
  apply (filled_step _ 16) in H1; [|lia..].
  change (2 * 16) with 32 in H1. destruct H1 as [Hhi Hlo].
  unfold smear. cbv zeta.
  transitivity (Z.ones (Z.log2 y + 1)).
  2:{ rewrite Z.ones_equiv. lia. }
  apply Z.bits_inj'. intros j Hj.
  destruct (Z_lt_dec (Z.log2 y) j).
  - rewrite Z.ones_spec_high by lia. apply Hhi. lia.
  - rewrite Z.ones_spec_low by lia. apply Hlo; lia.
Qed.

Lemma mo_next_power_of_two_smear x :
  mo_next_power_of_two x = u32 (smear (u32 (x - 1)) + 1).
Proof. done. Qed.

Lemma mo_next_power_of_two_spec x :
  1 <= x <= 2 ^ 31 ->
  smallest_pow2_ge x (mo_next_power_of_two x) /\
  mo_next_power_of_two x <= 2 ^ 31.
Proof.
  intros Hx. rewrite mo_next_power_of_two_smear.
  destruct (Z.eq_dec x 1) as [->|Hne].
  - change (u32 (smear (u32 (1 - 1)) + 1)) with 1.
    split; [|lia]. split; [exists 0; lia|]. split; [lia|].
    intros s' [k [Hk ->]] _. pose proof (Z.pow_pos_nonneg 2 k). lia.
  - rewrite (u32_small (x - 1)) by lia.
    rewrite smear_ones by lia.
    set (L := Z.log2 (x - 1)).
    assert (HL : 0 <= L < 31).
    { split; [apply Z.log2_nonneg|apply Z.log2_lt_pow2; lia]. }
    pose proof (Z.log2_spec (x - 1) ltac:(lia)) as Hspec. fold L in Hspec.
    assert (2 ^ (L + 1) <= 2 ^ 31) by (apply Z.pow_le_mono_r; lia).
    replace (2 ^ (L + 1) - 1 + 1) with (2 ^ (L + 1)) by lia.
    rewrite u32_small by lia.
    split; [|lia]. split; [exists (L + 1); lia|].
    replace (Z.succ L) with (L + 1) in Hspec by lia.
    split; [lia|].
    intros s' [k [Hk ->]] Hle.
    apply Z.pow_le_mono_r; [lia|].
    assert (L < k); [|lia].
    apply (Z.pow_lt_mono_r_iff 2); lia.
Qed.

Lemma mo_next_power_of_two_zero x :
  0 <= x < 2 ^ 32 -> ~ (1 <= x <= 2 ^ 31) -> mo_next_power_of_two x = 0.
Proof.
  intros Hx Hout. rewrite mo_next_power_of_two_smear.
  destruct (Z.eq_dec x 0) as [->|Hne]; [done|].
  rewrite (u32_small (x - 1)) by lia.
  rewrite smear_ones by lia.
  assert (Z.log2 (x - 1) = 31) as ->.
  { apply Z.log2_unique; lia. }
  done.
Qed.

Lemma mo_next_power_of_two_pow2 x :
  0 <= x < 2 ^ 32 -> mo_next_power_of_two x <> 0 ->
  exists k, 0 <= k <= 31 /\ mo_next_power_of_two x = 2 ^ k.
Proof.
  intros Hx Hnz.
  destruct (decide (1 <= x <= 2 ^ 31)) as [Hin|Hout].
  - destruct (mo_next_power_of_two_spec x Hin) as [[[k [Hk Hs]] _] Hle].
    exists k. split; [|done]. split; [done|].
    rewrite Hs in Hle. apply (Z.pow_le_mono_r_iff 2) in Hle; lia.
  - by rewrite mo_next_power_of_two_zero in Hnz.
Qed.

(** ** The open-addressing table *)

Lemma land_mask k x : 0 <= k -> Z.land x (2 ^ k - 1) = x mod 2 ^ k.
Proof. intros Hk. rewrite <- Z.land_ones by done. by rewrite Z.ones_equiv. Qed.

Lemma next_index k i :
  0 <= k <= 31 -> 0 <= i < 2 ^ k ->
  Z.land (u32 (i + 1)) (2 ^ k - 1) = (i + 1) mod 2 ^ k.
Proof.
  intros Hk Hi.
  assert (2 ^ k <= 2 ^ 31) by (apply Z.pow_le_mono_r; lia).
  rewrite u32_small by lia. apply land_mask; lia.
Qed.

Lemma probe_step sz s d : 0 < sz -> ((s + d) mod sz + 1) mod sz = (s + (d + 1)) mod sz.
Proof.
  intros Hsz. rewrite Z.add_assoc.
  rewrite <- (Zplus_mod_idemp_l (s + d) 1 sz). done.
Qed.

Lemma probe_wrap sz s d :
  0 <= s < sz -> 0 < d < sz -> (s + d) mod sz <> s.
Proof.
  intros Hs Hd Heq.
  destruct (Z_lt_dec (s + d) sz).
  - rewrite Z.mod_small in Heq by lia. lia.
  - assert ((s + d) mod sz = s + d - sz); [|lia].
    symmetry. apply (Z.mod_unique _ _ 1); lia.
Qed.

Definition occupied (tbl : list mo_hash_slot_t) (j : Z) : Prop :=
  exists s, tbl !! Z.to_nat j = Some s /\ s_state s = MO_HASH_SLOT_OCCUPIED.

(** The slot the build stores for a pair. *)
Definition slot_of (m : memory) (pr : mo_string_pair_t) : mo_hash_slot_t :=
  {| s_original := original pr; s_translation := translation pr;
     s_original_len := u32 (original_len pr);
     s_translation_len := u32 (translation_len pr);
     s_hash := mo_hash_string m (original pr) (original_len pr);
     s_state := MO_HASH_SLOT_OCCUPIED |}.

Lemma insert_probe_sound tbl k fuel :
  0 <= k <= 31 -> Z.of_nat (length tbl) = 2 ^ k ->
  forall i j,
    0 <= i < 2 ^ k ->
    insert_probe tbl (2 ^ k - 1) fuel i = Some j ->
    exists d, 0 <= d < Z.of_nat fuel /\ j = (i + d) mod 2 ^ k /\
      (exists s, tbl !! Z.to_nat j = Some s /\ s_state s <> MO_HASH_SLOT_OCCUPIED) /\
      forall d', 0 <= d' < d -> occupied tbl ((i + d') mod 2 ^ k).
Proof.
  intros Hk Hlen. induction fuel as [|fuel IH]; intros i j Hi H; [done|].
  simpl in H. destruct (tbl !! Z.to_nat i) as [s|] eqn:Hs; [|done]. simpl in H.
  destruct (decide (s_state s = MO_HASH_SLOT_OCCUPIED)) as [Ho|Ho].
  - rewrite next_index in H by lia.
    assert (0 < 2 ^ k) by lia.
    apply IH in H as (d & Hd & -> & Hfree & Hpath).
    2:{ apply Z.mod_pos_bound. lia. }
    exists (d + 1). split; [lia|]. split.
    { rewrite Zplus_mod_idemp_l. f_equal. lia. }
    split; [done|]. intros d' Hd'.
    destruct (Z.eq_dec d' 0) as [->|Hne].
    + rewrite Z.add_0_r, Z.mod_small by lia. by exists s.
    + specialize (Hpath (d' - 1) ltac:(lia)).
      rewrite Zplus_mod_idemp_l in Hpath.
      by replace (i + 1 + (d' - 1)) with (i + d') in Hpath by lia.
  - injection H as <-. exists 0. split; [lia|]. split.
    { by rewrite Z.add_0_r, Z.mod_small by lia. }
    split; [by exists s|]. intros d' Hd'. lia.
Qed.


(** Counting the occupied slots. *)
Definition count_occupied (tbl : list mo_hash_slot_t) : nat :=
  length (filter (fun s => s_state s = MO_HASH_SLOT_OCCUPIED) tbl).



Lemma count_occupied_replicate n : count_occupied (replicate n zero_slot) = 0%nat.
Proof.
  unfold count_occupied. induction n as [|n IH]; [done|].
  simpl. rewrite filter_cons. by case_decide.
Qed.

(** The test of [mo_find_string_hash] on a slot. *)
Definition slot_hit (m : memory) (str : ptr) (len hash : Z)
    (slot : mo_hash_slot_t) : bool :=
  bool_decide (s_state slot = MO_HASH_SLOT_OCCUPIED)
  && (s_hash slot =? hash) && (s_original_len slot =? len)
  && (memcmp m (s_original slot) str len =? 0).

(** The table after the first [done] pairs have been inserted: every slot in
    use holds one of them, and each of them is reached from its home slot
    through occupied slots only. *)
Record table_inv (m : memory) (prs : list mo_string_pair_t) (done k : Z)
    (tbl : list mo_hash_slot_t) : Prop := {
  ti_len : Z.of_nat (length tbl) = 2 ^ k;
  ti_slots : forall (j : nat) s, tbl !! j = Some s ->
    s_state s = MO_HASH_SLOT_EMPTY \/
    exists (t : nat) pr, Z.of_nat t < done /\ prs !! t = Some pr /\ s = slot_of m pr;
  ti_reach : forall (t : nat) pr, Z.of_nat t < done -> prs !! t = Some pr ->
    exists d, 0 <= d < 2 ^ k /\
      tbl !! Z.to_nat ((s_hash (slot_of m pr) mod 2 ^ k + d) mod 2 ^ k)
        = Some (slot_of m pr) /\
      forall d', 0 <= d' < d ->
        occupied tbl ((s_hash (slot_of m pr) mod 2 ^ k + d') mod 2 ^ k)
}.

Lemma occupied_insert tbl (j : nat) s p :
  occupied tbl p -> s_state s = MO_HASH_SLOT_OCCUPIED ->
  occupied (<[j := s]> tbl) p.
Proof.
  intros (s0 & Hs0 & Ho) Hs. unfold occupied.
  destruct (decide (j = Z.to_nat p)) as [->|Hne].
  - exists s. split; [|done]. apply list_lookup_insert_eq.
    by apply lookup_lt_Some in Hs0.
  - exists s0. split; [|done]. by rewrite list_lookup_insert_ne.
Qed.

Lemma table_inv_empty m prs k :
  0 <= k -> table_inv m prs 0 k (replicate (Z.to_nat (2 ^ k)) zero_slot).
Proof.
  intros Hk. pose proof (Z.pow_pos_nonneg 2 k). split.
  - rewrite length_replicate. lia.
  - intros j s Hj. apply lookup_replicate in Hj as [-> _]. by left.
  - intros t pr Ht. lia.
Qed.

Lemma build_loop_inv m prs k :
  0 <= k <= 31 ->
  forall (kk : nat) i tbl count tbl' count',
    0 <= i ->
    build_loop m prs (2 ^ k - 1) kk i tbl count = Some (tbl', count') ->
    table_inv m prs i k tbl ->
    table_inv m prs (i + Z.of_nat kk) k tbl'.
Proof.
  intros Hk. assert (0 < 2 ^ k) by lia.
  induction kk as [|kk IH]; intros i tbl count tbl' count' Hi Hb Hinv.
  - simpl in Hb. injection Hb as <- <-. by rewrite Z.add_0_r.
  - simpl in Hb.
    destruct (prs !! Z.to_nat i) as [pr|] eqn:Hpr; [|done]. simpl in Hb.
    destruct (insert_probe tbl (2 ^ k - 1) (length tbl)
                (Z.land (mo_hash_string m (original pr) (original_len pr))
                   (2 ^ k - 1))) as [j|] eqn:Hj; [|done].
    simpl in Hb. change ({| s_original := original pr;
                            s_translation := translation pr;
                            s_original_len := u32 (original_len pr);
                            s_translation_len := u32 (translation_len pr);
                            s_hash := mo_hash_string m (original pr) (original_len pr);
                            s_state := MO_HASH_SLOT_OCCUPIED |})
      with (slot_of m pr) in Hb.
    destruct Hinv as [Hlen Hslots Hreach].
    rewrite land_mask in Hj by lia.
    apply (insert_probe_sound tbl k) in Hj
      as (d & Hd & -> & (s0 & Hs0 & Hfree) & Hpath); [|lia|done|].
    2:{ apply Z.mod_pos_bound. lia. }
    set (j := (mo_hash_string m (original pr) (original_len pr) mod 2 ^ k + d)
                mod 2 ^ k) in *.
    assert (Hjlt : (Z.to_nat j < length tbl)%nat) by (by apply lookup_lt_Some in Hs0).
    apply IH in Hb; [|lia|].
    { by replace (i + Z.of_nat (S kk)) with (i + 1 + Z.of_nat kk) by lia. }
    split.
    + by rewrite length_insert.
    + intros j' s Hs.
      destruct (decide (Z.to_nat j = j')) as [<-|Hne].
      * rewrite list_lookup_insert_eq in Hs by done. injection Hs as <-.
        right. exists (Z.to_nat i), pr. split; [lia|done].
      * rewrite list_lookup_insert_ne in Hs by done.
        destruct (Hslots j' s Hs) as [?|(t & pr' & Ht & Hpr' & ->)]; [by left|].
        right. exists t, pr'. split; [lia|done].
    + intros t pr' Ht Hpr'.
      destruct (decide (Z.of_nat t < i)) as [Hold|Hnew].
      * destruct (Hreach t pr' Hold Hpr') as (d0 & Hd0 & Hat & Hp0).
        exists d0. split; [done|]. split.
        -- rewrite list_lookup_insert_ne; [done|].
           intros Heq. rewrite <- Heq in Hat. rewrite Hs0 in Hat.
           injection Hat as ->. by apply Hfree.
        -- intros d' Hd'. apply occupied_insert; [by apply Hp0|done].
      * assert (t = Z.to_nat i) as -> by lia.
        assert (pr' = pr) as -> by congruence.
        exists d. split.
        { destruct (Z_lt_dec d (2 ^ k)); [lia|]. lia. }
        split.
        -- by apply list_lookup_insert_eq.
        -- intros d' Hd'. apply occupied_insert; [by apply Hpath|done].
Qed.


Lemma hash_find_loop_unfold cfg m c tbl str len hash start fuel index st :
  hash_find_loop cfg m c tbl str len hash start (S fuel) index st =
  slot ← tbl !! Z.to_nat index;
  if decide (s_state slot = MO_HASH_SLOT_EMPTY) then Some (st, NOT_FOUND)
  else if slot_hit m str len hash slot then Some (st, index)
  else
    let st :=
      if bool_decide (s_state slot = MO_HASH_SLOT_OCCUPIED)
         && (hash_table_count c <? hash_table_size c)
      then inc_hash_collisions cfg st else st in
    let index := Z.land (u32 (index + 1)) (hash_table_mask c) in
    if index =? start then Some (st, NOT_FOUND)
    else hash_find_loop cfg m c tbl str len hash start fuel index st.
Proof. done. Qed.

(** Probing ends within [table_size] steps, whatever the table holds. *)
Lemma hash_find_loop_total cfg m c tbl str len hash k s :
  0 <= k <= 31 -> Z.of_nat (length tbl) = 2 ^ k ->
  hash_table_mask c = 2 ^ k - 1 -> 0 <= s < 2 ^ k ->
  forall (fuel : nat) d st,
    0 <= d -> d + Z.of_nat fuel = 2 ^ k -> (1 <= fuel)%nat ->
    exists st' r,
      hash_find_loop cfg m c tbl str len hash s fuel ((s + d) mod 2 ^ k) st
        = Some (st', r) /\
      (r = NOT_FOUND \/
       (0 <= r < 2 ^ k /\
        exists slot, tbl !! Z.to_nat r = Some slot /\
                     slot_hit m str len hash slot = true)).
Proof.
  intros Hk Hlen Hmask Hs. assert (0 < 2 ^ k) by lia.
  induction fuel as [|fuel IH]; intros d st Hd Hsum Hf; [lia|].
  rewrite hash_find_loop_unfold.
  assert (Hidx : 0 <= (s + d) mod 2 ^ k < 2 ^ k) by (apply Z.mod_pos_bound; lia).
  destruct (tbl !! Z.to_nat ((s + d) mod 2 ^ k)) as [slot|] eqn:Hslot.
  2:{ apply lookup_ge_None in Hslot. lia. }
  simpl. destruct (decide (s_state slot = MO_HASH_SLOT_EMPTY)); [eauto|].
  destruct (slot_hit m str len hash slot) eqn:Hhit.
  { eexists _, _. split; [done|]. right. eauto. }
  cbv zeta. rewrite Hmask, next_index, probe_step by lia.
  destruct (Z.eqb_spec ((s + (d + 1)) mod 2 ^ k) s) as [E|E]; [eauto|].
  apply IH; try lia.
  destruct fuel; [|lia]. exfalso. apply E.
  replace (s + (d + 1)) with (s + 1 * 2 ^ k) by lia.
  rewrite Z.mod_add by lia. apply Z.mod_small. lia.
Qed.

(** A slot that passes the test and is reached through occupied slots is
    found. *)
Lemma hash_find_loop_reach cfg m c tbl str len hash k s D :
  0 <= k <= 31 -> Z.of_nat (length tbl) = 2 ^ k ->
  hash_table_mask c = 2 ^ k - 1 -> 0 <= s < 2 ^ k -> 0 <= D < 2 ^ k ->
  (exists slot, tbl !! Z.to_nat ((s + D) mod 2 ^ k) = Some slot /\
                slot_hit m str len hash slot = true) ->
  (forall d', 0 <= d' < D -> occupied tbl ((s + d') mod 2 ^ k)) ->
  forall (fuel : nat) d st,
    0 <= d <= D -> D < d + Z.of_nat fuel ->
    exists st' r,
      hash_find_loop cfg m c tbl str len hash s fuel ((s + d) mod 2 ^ k) st
        = Some (st', r) /\
      0 <= r < 2 ^ k /\
      exists slot, tbl !! Z.to_nat r = Some slot /\
                   slot_hit m str len hash slot = true.
Proof.
  intros Hk Hlen Hmask Hs HD (slotD & HslotD & HhitD) Hpath.
  assert (0 < 2 ^ k) by lia.
  induction fuel as [|fuel IH]; intros d st Hd Hf; [lia|].
  rewrite hash_find_loop_unfold.
  assert (Hidx : 0 <= (s + d) mod 2 ^ k < 2 ^ k) by (apply Z.mod_pos_bound; lia).
  destruct (tbl !! Z.to_nat ((s + d) mod 2 ^ k)) as [slot|] eqn:Hslot.
  2:{ apply lookup_ge_None in Hslot. lia. }
  simpl.
  assert (Hocc : s_state slot = MO_HASH_SLOT_OCCUPIED).
  { destruct (Z.eq_dec d D) as [->|Hne].
    - assert (slot = slotD) as -> by congruence.
      unfold slot_hit in HhitD. rewrite !andb_true_iff in HhitD.
      destruct HhitD as [[[Hst _] _] _]. by apply bool_decide_eq_true in Hst.
    - destruct (Hpath d ltac:(lia)) as (s1 & Hs1 & Ho). congruence. }
  destruct (decide (s_state slot = MO_HASH_SLOT_EMPTY)); [congruence|].
  destruct (slot_hit m str len hash slot) eqn:Hhit.
  { eexists _, _. split; [done|]. split; [done|]. eauto. }
  assert (d <> D).
  { intros ->. assert (slot = slotD) by congruence. subst. congruence. }
  cbv zeta. rewrite Hmask, next_index, probe_step by lia.
  destruct (Z.eqb_spec ((s + (d + 1)) mod 2 ^ k) s) as [E|E].
  { exfalso. revert E. apply probe_wrap; lia. }
  apply IH; lia.
Qed.

(** ** The lookup counters are left alone by the searches *)

Definition same_counters (st st' : mo_stats_t) : Prop :=
  total_lookups st' = total_lookups st /\
  cache_hits st' = cache_hits st /\
  cache_misses st' = cache_misses st.

Lemma same_counters_refl st : same_counters st st.
Proof. done. Qed.

Lemma same_counters_trans a b c :
  same_counters a b -> same_counters b c -> same_counters a c.
Proof. unfold same_counters. intuition congruence. Qed.

Lemma inc_comparisons_counters cfg st : same_counters st (inc_comparisons cfg st).
Proof. unfold inc_comparisons. by destruct (enable_stats cfg). Qed.

Lemma inc_hash_collisions_counters cfg st :
  same_counters st (inc_hash_collisions cfg st).
Proof. unfold inc_hash_collisions. by destruct (enable_stats cfg). Qed.

Create HintDb counters.
#[local] Hint Resolve same_counters_refl inc_comparisons_counters
  inc_hash_collisions_counters : counters.

Lemma linear_loop_counters cfg m prs str len k :
  forall i st st' r,
    linear_loop cfg m prs str len k i st = Some (st', r) ->
    same_counters st st'.
Proof.
  induction k as [|k IH]; intros i st st' r H; simpl in H.
  - injection H as <- _. auto with counters.
  - destruct (prs !! Z.to_nat i) as [pr|]; [|done]. simpl in H.
    destruct (negb (original_len pr =? len)).
    + apply IH in H. eauto using same_counters_trans with counters.
    + destruct (memcmp m (original pr) str len =? 0).
      * injection H as <- _. auto with counters.
      * apply IH in H. eauto using same_counters_trans with counters.
Qed.

Lemma binary_loop_counters cfg m prs str len fuel :
  forall left right st st' r,
    binary_loop cfg m prs str len fuel left right st = Some (st', r) ->
    same_counters st st'.
Proof.
  induction fuel as [|fuel IH]; intros left right st st' r H; [done|].
  simpl in H. destruct (left <=? right).
  2:{ injection H as <- _. auto with counters. }
  destruct (prs !! _) as [pr|]; [|done]. simpl in H.
  repeat match type of H with
         | (if ?b then _ else _) = _ => destruct b
         end;
    try (injection H as <- _; auto with counters);
    try (apply IH in H; eauto using same_counters_trans with counters).
Qed.

Lemma hash_find_loop_counters cfg m c tbl str len hash start fuel :
  forall index st st' r,
    hash_find_loop cfg m c tbl str len hash start fuel index st = Some (st', r) ->
    same_counters st st'.
Proof.
  induction fuel as [|fuel IH]; intros index st st' r H; [done|].
  rewrite hash_find_loop_unfold in H.
  destruct (tbl !! _) as [slot|]; [|done]. simpl in H.
  destruct (decide _).
  { injection H as <- _. auto with counters. }
  destruct (slot_hit _ _ _ _ _).
  { injection H as <- _. auto with counters. }
  cbv zeta in H.
  destruct (_ =? start).
  - injection H as <- _. destruct (_ && _); auto with counters.
  - apply IH in H. destruct (_ && _) in H;
      eauto using same_counters_trans with counters.
Qed.

(** ** Well-formed catalogs *)

(** The shape every loaded catalog has: [prs] is the pair array, of
    [num_strings] entries; in a hash build the table has a power-of-two
    size and every slot in use holds an entry of the array. *)
Definition catalog_wf (cfg : build) (m : memory) (c : mo_context)
    (prs : list mo_string_pair_t) : Prop :=
  pairs c = Some prs /\
  Z.of_nat (length prs) = num_strings c /\
  num_strings c < 2 ^ 32 /\
  (forall (i : nat) pr, prs !! i = Some pr -> 0 <= original_len pr < 2 ^ 32) /\
  (method cfg = HASH ->
   exists tbl k,
     hash_table c = Some tbl /\ 0 <= k <= 31 /\
     hash_table_size c = 2 ^ k /\ hash_table_mask c = 2 ^ k - 1 /\
     Z.of_nat (length tbl) = 2 ^ k /\
     forall (j : nat) s, tbl !! j = Some s ->
       s_state s = MO_HASH_SLOT_EMPTY \/
       exists (t : nat) pr, prs !! t = Some pr /\ s = slot_of m pr).

(** What the build adds: a binary build has ordered the array, a hash build
    has made every entry reachable by probing. *)
Definition catalog_ok (cfg : build) (m : memory) (c : mo_context)
    (prs : list mo_string_pair_t) : Prop :=
  catalog_wf cfg m c prs /\
  match method cfg with
  | LINEAR => True
  | BINARY => sorted_pairs m prs
  | HASH =>
      exists tbl k,
        hash_table c = Some tbl /\ 0 <= k <= 31 /\
        hash_table_mask c = 2 ^ k - 1 /\
        table_inv m prs (num_strings c) k tbl
  end.

Lemma catalog_wf_set_stats cfg m c prs st :
  catalog_wf cfg m c prs -> catalog_wf cfg m (set_stats c st) prs.
Proof. done. Qed.

Lemma catalog_wf_set_cache cfg m c prs ca :
  catalog_wf cfg m c prs -> catalog_wf cfg m (set_cache c ca) prs.
Proof. done. Qed.

Lemma catalog_ok_set_stats cfg m c prs st :
  catalog_ok cfg m c prs -> catalog_ok cfg m (set_stats c st) prs.
Proof. done. Qed.

Lemma catalog_ok_set_cache cfg m c prs ca :
  catalog_ok cfg m c prs -> catalog_ok cfg m (set_cache c ca) prs.
Proof. done. Qed.

(** The active strategy and the translation pointer read at its index. *)
Definition search (cfg : build) (m : memory) (c : mo_context) (str : ptr)
    (len : Z) : option (option mo_context * Z) :=
  match method cfg with
  | LINEAR => mo_find_string_linear cfg m (Some c) str len
  | BINARY => mo_find_string_binary cfg m (Some c) str len
  | HASH => mo_find_string_hash cfg m (Some c) str len (mo_hash_string m str len)
  end.

Definition translation_at (cfg : build) (c : mo_context) (index : Z)
  : option ptr :=
  match method cfg with
  | HASH =>
      tbl ← hash_table c; slot ← tbl !! Z.to_nat index;
      Some (s_translation slot)
  | _ =>
      prs ← pairs c; pr ← prs !! Z.to_nat index;
      Some (translation pr)
  end.

Lemma find_pair_None m prs str len (i : nat) pr :
  find_pair m prs str len = None -> prs !! i = Some pr ->
  matchb m str len pr = false.
Proof.
  intros Hnone Hi. apply list_find_None in Hnone.
  rewrite Forall_forall in Hnone.
  specialize (Hnone pr ltac:(apply list_elem_of_lookup; eauto)).
  by destruct (matchb m str len pr).
Qed.

Lemma slot_hit_slot_of m str len pr :
  0 <= original_len pr < 2 ^ 32 ->
  slot_hit m str len (mo_hash_string m str len) (slot_of m pr)
  = matchb m str len pr.
Proof.
  intros Hl. unfold slot_hit, matchb, slot_of. simpl.
  rewrite (u32_small (original_len pr)) by done.
  destruct (Z.eqb_spec (original_len pr) len) as [E|E];
    [|by rewrite andb_false_r].
  destruct (Z.eqb_spec (memcmp m (original pr) str len) 0) as [Ec|Ec];
    [|by rewrite andb_false_r].
  rewrite !andb_true_r. apply Z.eqb_eq. subst len.
  apply mo_hash_string_ext. by apply memcmp_eq.
Qed.

(** Every search returns; an index it returns designates an entry that
    matches the query. *)
Lemma search_total cfg m c prs str len :
  catalog_wf cfg m c prs -> str <> NULL ->
  exists st idx,
    search cfg m c str len = Some (Some (set_stats c st), idx) /\
    same_counters (stats c) st /\
    (idx = NOT_FOUND \/
     (idx <> NOT_FOUND /\
      exists (i : nat) pr, prs !! i = Some pr /\ matchb m str len pr = true /\
        translation_at cfg c idx = Some (translation pr))).
Proof.
  intros (Hp & Hlen & Hn & Hwf & Hh) Hstr.
  unfold search, translation_at. destruct (method cfg) eqn:Hm.
  - (* linear *)
    unfold mo_find_string_linear. rewrite Hp.
    destruct (Z.eqb_spec (num_strings c) 0) as [E|E].
    { exists (stats c), NOT_FOUND. split; [by destruct c|]. split; [done|by left]. }
    rewrite <- Hlen, Nat2Z.id.
    destruct (linear_loop_spec cfg m prs str len (length prs) 0 (stats c))
      as (st' & r & Hr & Hcase); [lia|lia|].
    rewrite Hr. simpl. exists st', r. split; [done|].
    split; [by apply linear_loop_counters in Hr|].
    destruct Hcase as [[-> _]|(Hrange & p & Hrp & Hpm & _)]; [by left|right].
    split; [unfold NOT_FOUND; lia|]. exists (Z.to_nat r), p.
    by rewrite Hrp.
  - (* binary *)
    unfold mo_find_string_binary. rewrite Hp.
    destruct (Z.eqb_spec (num_strings c) 0) as [E|E].
    { exists (stats c), NOT_FOUND. split; [by destruct c|]. split; [done|by left]. }
    assert (0 < num_strings c) by lia.
    rewrite (u32_small (num_strings c - 1)) by lia.
    destruct (binary_loop_spec cfg m prs str len (S (Z.to_nat (num_strings c)))
                ltac:(lia) 0 (num_strings c - 1) (stats c))
      as (st' & r & Hr & Hcase & _); try lia.
    rewrite Hr. simpl. exists st', r. split; [done|].
    split; [by apply binary_loop_counters in Hr|].
    destruct Hcase as [|(Hrange & p & Hrp & Hpm)]; [by left|right].
    split; [unfold NOT_FOUND; lia|]. exists (Z.to_nat r), p.
    by rewrite Hrp.
  - (* hash *)
    destruct (Hh eq_refl) as (tbl & k & Htbl & Hk & Hsz & Hmask & Htl & Hslots).
    assert (0 < 2 ^ k) by lia.
    assert (2 ^ k <= 2 ^ 31) by (apply Z.pow_le_mono_r; lia).
    unfold mo_find_string_hash. rewrite Htbl.
    destruct (Z.eqb_spec (hash_table_size c) 0) as [E|_]; [lia|].
    destruct (Z.eqb_spec str NULL) as [E|_]; [done|]. simpl.
    set (h := mo_hash_string m str len).
    rewrite Hmask, land_mask, Hsz by lia.
    set (s := h mod 2 ^ k).
    assert (Hs : 0 <= s < 2 ^ k) by (apply Z.mod_pos_bound; lia).
    destruct (hash_find_loop_total cfg m c tbl str len h k s Hk Htl Hmask Hs
                (Z.to_nat (2 ^ k)) 0 (stats c))
      as (st' & r & Hr & Hcase); try lia.
    rewrite Z.add_0_r, (Z.mod_small s) in Hr by lia.
    rewrite Hr. simpl. exists st', r. split; [done|].
    split; [by apply hash_find_loop_counters in Hr|].
    destruct Hcase as [|(Hrange & slot & Hslot & Hsl)]; [by left|right].
    split; [unfold NOT_FOUND; lia|].
    destruct (Hslots _ _ Hslot) as [He|(t & pr & Hpr & ->)].
    { unfold slot_hit in Hsl. rewrite He in Hsl. done. }
    exists t, pr. split; [done|]. split.
    + rewrite <- (slot_hit_slot_of m str len pr); eauto.
    + by rewrite Hslot.
Qed.

(** In a built catalog, a query that matches an entry is found. *)
Lemma search_found cfg m c prs str len (i : nat) pr ctx' idx :
  catalog_ok cfg m c prs -> str <> NULL ->
  prs !! i = Some pr -> matchb m str len pr = true ->
  search cfg m c str len = Some (ctx', idx) ->
  idx <> NOT_FOUND.
Proof.
  intros [(Hp & Hlen & Hn & Hwf & Hh) Hok] Hstr Hi Hmatch.
  pose proof (lookup_lt_Some _ _ _ Hi) as Hilt.
  unfold search. destruct (method cfg) eqn:Hm.
  - unfold mo_find_string_linear. rewrite Hp.
    destruct (Z.eqb_spec (num_strings c) 0) as [E|E]; [lia|].
    rewrite <- Hlen, Nat2Z.id.
    destruct (linear_loop_spec cfg m prs str len (length prs) 0 (stats c))
      as (st' & r & Hr & Hcase); [lia|lia|].
    rewrite Hr. simpl. intros [= _ <-].
    destruct Hcase as [[-> Hall]|(Hrange & _)]; [|unfold NOT_FOUND; lia].
    rewrite (Hall i pr) in Hmatch; [done|lia|done].
  - unfold mo_find_string_binary. rewrite Hp.
    destruct (Z.eqb_spec (num_strings c) 0) as [E|E]; [lia|].
    rewrite (u32_small (num_strings c - 1)) by lia.
    destruct (binary_loop_spec cfg m prs str len (S (Z.to_nat (num_strings c)))
                ltac:(lia) 0 (num_strings c - 1) (stats c))
      as (st' & r & Hr & _ & Hfound); try lia.
    rewrite Hr. simpl. intros [= _ <-].
    apply (Hfound Hok i pr); [lia|done|done].
  - destruct Hok as (tbl & k & Htbl & Hk & Hmask & [Htl Hslots Hreach]).
    assert (0 < 2 ^ k) by lia.
    assert (2 ^ k <= 2 ^ 31) by (apply Z.pow_le_mono_r; lia).
    destruct (Hh eq_refl) as (tbl' & k' & Htbl' & Hk' & Hsz & Hmask' & Htl' & _).
    assert (tbl' = tbl) as -> by congruence.
    assert (k' = k) as ->.
    { apply (Z.pow_inj_r 2); lia. }
    unfold mo_find_string_hash. rewrite Htbl.
    destruct (Z.eqb_spec (hash_table_size c) 0) as [E|_]; [lia|].
    destruct (Z.eqb_spec str NULL) as [E|_]; [done|]. simpl.
    set (h := mo_hash_string m str len).
    rewrite Hmask, land_mask, Hsz by lia.
    set (s := h mod 2 ^ k).
    assert (Hs : 0 <= s < 2 ^ k) by (apply Z.mod_pos_bound; lia).
    destruct (Hreach i pr ltac:(lia) Hi) as (D & HD & Hat & Hpath).
    assert (Hsame : s_hash (slot_of m pr) = h).
    { unfold slot_of, h. simpl. apply matchb_key, key_cmp_eq in Hmatch as [<- Hb].
      by apply mo_hash_string_ext. }
    rewrite Hsame in Hat, Hpath. fold s in Hat, Hpath.
    destruct (hash_find_loop_reach cfg m c tbl str len h k s D Hk Htl Hmask Hs HD)
      with (fuel := Z.to_nat (2 ^ k)) (d := 0) (st := stats c)
      as (st' & r & Hr & Hrange & _); try lia.
    { exists (slot_of m pr). split; [done|].
      rewrite slot_hit_slot_of; eauto. }
    { done. }
    rewrite Z.add_0_r, (Z.mod_small s) in Hr by lia.
    rewrite Hr. simpl. intros [= _ <-]. unfold NOT_FOUND. lia.
Qed.

(** ** [mo_translate_n] *)

(** The cache slot a query selects and the comparison made on it. *)
Definition cache_slot (cfg : build) (m : memory) (p : ptr) (len : Z) : Z :=
  match method cfg with
  | HASH => Z.land (mo_hash_string m p len) (MO_CACHE_SIZE - 1)
  | _ => Z.land p (MO_CACHE_SIZE - 1)
  end.

Definition cache_hit (cfg : build) (m : memory) (c : mo_context) (p : ptr)
    (len : Z) : bool :=
  let cached := cache_at c (cache_slot cfg m p len) in
  match method cfg with
  | HASH => (c_original cached =? p)
            && (c_hash cached =? mo_hash_string m p len)
  | _ => c_original cached =? p
  end.

(** The entry written after a successful search. *)
Definition cache_entry (cfg : build) (m : memory) (c : mo_context) (p : ptr)
    (len : Z) (result : ptr) : mo_cache_item_t :=
  {| c_original := p; c_translation := result;
     c_hash := match method cfg with
               | HASH => mo_hash_string m p len
               | _ => c_hash (cache_at c (cache_slot cfg m p len))
               end |}.

Definition passes_guard (c : mo_context) (p : ptr) : Prop :=
  pairs c <> None /\ p <> NULL.

Lemma mo_translate_n_unfold cfg m c p len :
  passes_guard c p ->
  mo_translate_n cfg m (Some c) p len =
  let c1 := set_stats c (inc_total_lookups cfg (stats c)) in
  if cache_hit cfg m c p len then
    Some (Some (set_stats c1 (inc_cache_hits cfg (stats c1))),
          if c_translation (cache_at c (cache_slot cfg m p len)) =? NULL then p
          else c_translation (cache_at c (cache_slot cfg m p len)))
  else
    let c2 := set_stats c1 (inc_cache_misses cfg (stats c1)) in
    '(ctx', index) ← search cfg m c2 p len;
    c3 ← ctx';
    if index =? NOT_FOUND then Some (Some c3, p)
    else
      result ← translation_at cfg c3 index;
      Some (Some (set_cache c3
                    (<[Z.to_nat (cache_slot cfg m p len) :=
                         cache_entry cfg m c3 p len result]> (cache c3))),
            result).
Proof.
  intros [Hp Hnull]. unfold mo_translate_n.
  rewrite bool_decide_eq_false_2 by done.
  destruct (Z.eqb_spec p NULL) as [|_]; [done|]. simpl.
  unfold cache_entry, cache_hit, cache_slot, search, translation_at.
  destruct (method cfg); reflexivity.
Qed.

(** A hit returns the cached translation and writes no slot. *)
Lemma mo_translate_n_hit cfg m c p len :
  passes_guard c p -> cache_hit cfg m c p len = true ->
  exists c',
    mo_translate_n cfg m (Some c) p len
    = Some (Some c',
            if c_translation (cache_at c (cache_slot cfg m p len)) =? NULL then p
            else c_translation (cache_at c (cache_slot cfg m p len))) /\
    cache c' = cache c /\
    stats c' = inc_cache_hits cfg (inc_total_lookups cfg (stats c)) /\
    forall prs, (catalog_wf cfg m c prs -> catalog_wf cfg m c' prs) /\
                (catalog_ok cfg m c prs -> catalog_ok cfg m c' prs).
Proof.
  intros Hg Hhit. rewrite mo_translate_n_unfold by done. cbv zeta.
  rewrite Hhit. eexists. split; [done|]. done.
Qed.

(** A miss runs the search: the result is the query itself and the cache is
    untouched, or the translation of a matching entry, which is cached. *)
Lemma mo_translate_n_miss cfg m c prs p len :
  catalog_wf cfg m c prs -> p <> NULL -> cache_hit cfg m c p len = false ->
  exists c' r,
    mo_translate_n cfg m (Some c) p len = Some (Some c', r) /\
    catalog_wf cfg m c' prs /\
    (catalog_ok cfg m c prs -> catalog_ok cfg m c' prs) /\
    same_counters (inc_cache_misses cfg (inc_total_lookups cfg (stats c)))
      (stats c') /\
    ((r = p /\ cache c' = cache c) \/
     (exists (i : nat) pr,
        prs !! i = Some pr /\ matchb m p len pr = true /\ r = translation pr /\
        cache c' = <[Z.to_nat (cache_slot cfg m p len) :=
                       cache_entry cfg m c p len r]> (cache c))) /\
    (catalog_ok cfg m c prs ->
     forall (i : nat) pr, prs !! i = Some pr -> matchb m p len pr = true ->
       cache c' = <[Z.to_nat (cache_slot cfg m p len) :=
                      cache_entry cfg m c p len r]> (cache c) /\
       exists (j : nat) pr', prs !! j = Some pr' /\
         matchb m p len pr' = true /\ r = translation pr').
Proof.
  intros Hwf Hnull Hmiss.
  assert (Hg : passes_guard c p).
  { split; [|done]. destruct Hwf as [-> _]. done. }
  rewrite mo_translate_n_unfold by done. cbv zeta. rewrite Hmiss.
  set (c2 := set_stats (set_stats c (inc_total_lookups cfg (stats c)))
               (inc_cache_misses cfg
                  (stats (set_stats c (inc_total_lookups cfg (stats c)))))).
  assert (Hwf2 : catalog_wf cfg m c2 prs) by done.
  destruct (search_total cfg m c2 prs p len Hwf2 Hnull)
    as (st & idx & Hs & Hcnt & Hcase).
  rewrite Hs. simpl.
  destruct Hcase as [->|(Hnf & i & pr & Hi & Hm & Htr)].
  - rewrite Z.eqb_refl. eexists _, _. split; [done|].
    split; [done|]. split; [done|]. split; [done|]. split; [by left|].
    intros Hok i pr Hi Hm. exfalso.
    eapply (search_found cfg m c2 prs p len i pr); eauto.
  - destruct (Z.eqb_spec idx NOT_FOUND) as [|_]; [done|].
    assert (Htr' : translation_at cfg (set_stats c2 st) idx = Some (translation pr))
      by done.
    rewrite Htr'. simpl. eexists _, _. split; [done|].
    split; [done|]. split; [done|]. split; [done|].
    split.
    + right. exists i, pr. done.
    + intros _ _ _ _ _. split; [done|]. exists i, pr. done.
Qed.

(** ** Memory *)

Lemma load8_store8 m a v x :
  load8 (store8 m a v) x = if x =? a then v mod 256 else load8 m x.
Proof.
  unfold load8, store8. destruct (x =? a); [|done].
  apply Z.mod_mod. lia.
Qed.

Lemma load8_memcpy m dst src n x :
  load8 (memcpy m dst src n) x =
  if (dst <=? x) && (x <? dst + n) then load8 m (src + (x - dst)) else load8 m x.
Proof.
  unfold memcpy, load8 at 1. destruct (_ && _); [|done].
  apply Z.mod_small, load8_range.
Qed.

Lemma load8_store32 m a v x :
  load8 (store32 m a v) x =
  if x =? a then v mod 256
  else if x =? a + 1 then v / 2 ^ 8 mod 256
  else if x =? a + 2 then v / 2 ^ 16 mod 256
  else if x =? a + 3 then v / 2 ^ 24 mod 256
  else load8 m x.
Proof.
  unfold store32. rewrite !load8_store8.
  repeat match goal with |- context [?u =? ?w] => destruct (Z.eqb_spec u w) end;
    try done; lia.
Qed.

Lemma load8_store32_other m a v x :
  x < a \/ a + 4 <= x -> load8 (store32 m a v) x = load8 m x.
Proof.
  intros H. rewrite load8_store32.
  repeat match goal with |- context [?u =? ?w] => destruct (Z.eqb_spec u w) end;
    try done; lia.
Qed.

Lemma load32_ext m1 m2 a b :
  (forall k, 0 <= k < 4 -> load8 m1 (a + k) = load8 m2 (b + k)) ->
  load32 m1 a = load32 m2 b.
Proof.
  intros H. unfold load32.
  pose proof (H 0 ltac:(lia)) as H0. rewrite !Z.add_0_r in H0.
  rewrite H0, (H 1), (H 2), (H 3) by lia. done.
Qed.

Lemma load32_store32_same m a v : 0 <= v < 2 ^ 32 -> load32 (store32 m a v) a = v.
Proof.
  intros Hv. unfold load32. rewrite !load8_store32.
  repeat match goal with |- context [?u =? ?w] => destruct (Z.eqb_spec u w) end;
    try lia.
  change (2 ^ 8) with 256. change (2 ^ 16) with 65536.
  change (2 ^ 24) with 16777216. change (2 ^ 32) with 4294967296 in Hv.
  Z.div_mod_to_equations. lia.
Qed.

Lemma load32_store32_other m a v b :
  b + 4 <= a \/ a + 4 <= b -> load32 (store32 m a v) b = load32 m b.
Proof.
  intros H. apply load32_ext. intros k Hk. apply load8_store32_other. lia.
Qed.

Lemma load8_store32_load32 m a x :
  load8 (store32 m a (load32 m a)) x = load8 m x.
Proof.
  rewrite load8_store32. unfold load32.
  pose proof (load8_range m a). pose proof (load8_range m (a + 1)).
  pose proof (load8_range m (a + 2)). pose proof (load8_range m (a + 3)).
  change (2 ^ 8) with 256. change (2 ^ 16) with 65536.
  change (2 ^ 24) with 16777216.
  repeat match goal with |- context [?u =? ?w] => destruct (Z.eqb_spec u w) end;
    try done; subst x;
    generalize dependent (load8 m a); generalize dependent (load8 m (a + 1));
    generalize dependent (load8 m (a + 2)); generalize dependent (load8 m (a + 3));
    intros; Z.div_mod_to_equations; lia.
Qed.

Lemma swap_header_out m h s x :
  x < h + 4 \/ h + 28 <= x -> load8 (swap_header m h s) x = load8 m x.
Proof.
  intros H. unfold swap_header. cbv zeta.
  rewrite !load8_store32_other by lia. done.
Qed.

Lemma swap_header_noswap m h x : load8 (swap_header m h false) x = load8 m x.
Proof.
  unfold swap_header, mo_swap_uint32. simpl.
  rewrite !load8_store32_load32. done.
Qed.

Lemma swap_header_field m h s f :
  f = 4 \/ f = 8 \/ f = 12 \/ f = 16 \/ f = 20 \/ f = 24 ->
  load32 (swap_header m h s) (h + f) = mo_swap_uint32 (load32 m (h + f)) s.
Proof.
  intros Hf. unfold swap_header. cbv zeta.
  assert (Hr : forall m' a, 0 <= mo_swap_uint32 (load32 m' a) s < 2 ^ 32).
  { intros. apply mo_swap_uint32_range, load32_range. }
  destruct Hf as [->|[->|[->|[->|[->| ->]]]]];
    repeat first
      [ rewrite load32_store32_same by apply Hr
      | rewrite load32_store32_other by lia ];
    done.
Qed.

(** ** The catalog file and its copy *)

(** The fields of the source file at [data], decoded in the byte order its
    magic word announces. *)
Definition file_swap (m : memory) (data : ptr) : bool :=
  negb (load32 m data =? MO_MAGIC).

Definition file_u32 (m : memory) (data : ptr) (off : Z) : Z :=
  mo_swap_uint32 (load32 m (data + off)) (file_swap m data).

Definition file_num_strings (m : memory) (data : ptr) : Z := file_u32 m data 8.
Definition file_orig_table (m : memory) (data : ptr) : Z := file_u32 m data 12.
Definition file_trans_table (m : memory) (data : ptr) : Z := file_u32 m data 16.

Definition file_orig_len (m : memory) (data : ptr) (i : Z) : Z :=
  file_u32 m data (file_orig_table m data + 8 * i).
Definition file_orig_offset (m : memory) (data : ptr) (i : Z) : Z :=
  file_u32 m data (file_orig_table m data + 8 * i + 4).
Definition file_trans_len (m : memory) (data : ptr) (i : Z) : Z :=
  file_u32 m data (file_trans_table m data + 8 * i).
Definition file_trans_offset (m : memory) (data : ptr) (i : Z) : Z :=
  file_u32 m data (file_trans_table m data + 8 * i + 4).

Lemma file_u32_range m data off : 0 <= file_u32 m data off < 2 ^ 32.
Proof. apply mo_swap_uint32_range, load32_range. Qed.

(** The memory once the file has been copied to [buf] and its header put
    in host order. *)
Definition loaded (m : memory) (buf data : ptr) (size : Z) : memory :=
  swap_header (memcpy m buf data size) buf (file_swap m data).

Lemma loaded_outside m buf data size a :
  28 <= size -> a < buf \/ buf + size <= a ->
  load8 (loaded m buf data size) a = load8 m a.
Proof.
  intros Hsz Ha. unfold loaded. rewrite swap_header_out by lia.
  rewrite load8_memcpy.
  destruct (Z.leb_spec buf a), (Z.ltb_spec a (buf + size)); simpl; try done; lia.
Qed.

Lemma loaded_byte m buf data size x :
  28 <= size -> 0 <= x < size ->
  file_swap m data = false \/ x < 4 \/ 28 <= x ->
  load8 (loaded m buf data size) (buf + x) = load8 m (data + x).
Proof.
  intros Hsz Hx Hc. unfold loaded.
  assert (Hcp : load8 (memcpy m buf data size) (buf + x) = load8 m (data + x)).
  { rewrite load8_memcpy.
    destruct (Z.leb_spec buf (buf + x)), (Z.ltb_spec (buf + x) (buf + size));
      simpl; try lia. f_equal. lia. }
  destruct Hc as [->|Hc].
  - by rewrite swap_header_noswap.
  - by rewrite swap_header_out by lia.
Qed.

Lemma memcpy_load32 m buf data size off :
  0 <= off -> off + 4 <= size ->
  load32 (memcpy m buf data size) (buf + off) = load32 m (data + off).
Proof.
  intros H1 H2. apply load32_ext. intros k Hk. rewrite load8_memcpy.
  destruct (Z.leb_spec buf (buf + off + k)),
    (Z.ltb_spec (buf + off + k) (buf + size)); simpl; try lia.
  f_equal. lia.
Qed.

Lemma loaded_field m buf data size f :
  28 <= size -> f = 4 \/ f = 8 \/ f = 12 \/ f = 16 \/ f = 20 \/ f = 24 ->
  load32 (loaded m buf data size) (buf + f) = file_u32 m data f.
Proof.
  intros Hsz Hf. unfold loaded. rewrite swap_header_field by done.
  rewrite memcpy_load32 by lia. done.
Qed.

Lemma loaded_load32 m buf data size off :
  28 <= size -> 28 <= off -> off + 4 <= size ->
  load32 (loaded m buf data size) (buf + off) = load32 m (data + off).
Proof.
  intros Hsz H1 H2. apply load32_ext. intros k Hk.
  rewrite <- !Z.add_assoc. apply loaded_byte; lia.
Qed.

Lemma loaded_bytes m buf data size off len :
  28 <= size -> 28 <= off -> off + len <= size ->
  bytes (loaded m buf data size) (buf + off) len = bytes m (data + off) len.
Proof.
  intros Hsz H1 H2. apply bytes_n_ext. intros k Hk.
  rewrite <- !Z.add_assoc. apply loaded_byte; lia.
Qed.

(** The pair the loader resolves for index [i] from the tables at [ot] and
    [tt]. *)
Definition resolved_pair (m : memory) (buf : ptr) (swap : bool) (ot tt : ptr)
    (i : Z) : mo_string_pair_t :=
  {| original := buf + mo_swap_uint32 (load32 m (ot + 8 * i + 4)) swap;
     translation := buf + mo_swap_uint32 (load32 m (tt + 8 * i + 4)) swap;
     original_len := mo_swap_uint32 (load32 m (ot + 8 * i)) swap;
     translation_len := mo_swap_uint32 (load32 m (tt + 8 * i)) swap |}.

Lemma pairs_loop_spec m buf size swap ot tt :
  forall (k : nat) i prs,
    pairs_loop m buf size swap ot tt k i = Some prs ->
    length prs = k /\
    forall (j : nat), (j < k)%nat ->
      prs !! j = Some (resolved_pair m buf swap ot tt (i + Z.of_nat j)).
Proof.
  induction k as [|k IH]; intros i prs H; simpl in H.
  - injection H as <-. split; [done|]. intros j Hj. lia.
  - destruct (_ || _); [done|].
    destruct (pairs_loop m buf size swap ot tt k (i + 1)) as [rest|] eqn:Hrest;
      [|done].
    simpl in H. injection H as <-.
    destruct (IH _ _ Hrest) as [Hlen Hall]. split; [simpl; lia|].
    intros [|j] Hj; simpl.
    + by rewrite Z.add_0_r.
    + rewrite Hall by lia. do 2 f_equal. lia.
Qed.

Lemma mo_build_hash_table_ok m ch c prs c' :
  pairs c = Some prs -> Z.of_nat (length prs) = num_strings c ->
  mo_build_hash_table m ch (Some c) = Some (true, c') ->
  exists tbl k cnt,
    c' = Some (set_hash_table c (Some tbl) (2 ^ k) (2 ^ k - 1) cnt) /\
    0 <= k <= 31 /\ 0 < num_strings c /\
    table_inv m prs (num_strings c) k tbl.
Proof.
  intros Hp Hlen. unfold mo_build_hash_table. rewrite Hp.
  destruct (Z.eqb_spec (num_strings c) 0) as [|Hn]; [done|].
  destruct ch; simpl; [|done].
  set (sz := mo_next_power_of_two (target_size (num_strings c))).
  destruct (build_loop m prs (u32 (sz - 1)) (Z.to_nat (num_strings c)) 0
              (replicate (Z.to_nat sz) zero_slot) 0) as [[tbl cnt]|] eqn:Hb;
    [|done].
  simpl. intros [= <-].
  assert (Hsz : sz <> 0).
  { intros Hz. rewrite Hz in Hb.
    destruct (Z.to_nat (num_strings c)) as [|n'] eqn:Hn'; [lia|].
    simpl in Hb. destruct (prs !! Z.to_nat 0); simpl in Hb; done. }
  destruct (mo_next_power_of_two_pow2 (target_size (num_strings c)))
    as (k & Hk & Hpow); [apply u32_range|done|].
  fold sz in Hpow. rewrite Hpow in Hb |- *.
  assert (0 < 2 ^ k) by lia.
  assert (2 ^ k <= 2 ^ 31) by (apply Z.pow_le_mono_r; lia).
  rewrite (u32_small (2 ^ k - 1)) in Hb |- * by lia.
  exists tbl, k, cnt. split; [done|]. split; [done|]. split; [lia|].
  apply (build_loop_inv m prs k Hk) in Hb; [|lia|apply table_inv_empty; lia].
  by rewrite Z.add_0_l, Z2Nat.id in Hb by lia.
Qed.

(** ** What a successful load establishes *)

Section LoaderFacts.

Variable qsort : (mo_string_pair_t -> mo_string_pair_t -> Z) ->
                 list mo_string_pair_t -> list mo_string_pair_t.

Lemma create_success cfg al m src size cp o :
  mo_context_create_from_memory qsort cfg al m src size cp = Some o ->
  err o = MO_SUCCESS ->
  let buf := malloc_data al in
  let m1 := loaded m buf src size in
  let n := file_num_strings m src in
  src <> NULL /\ 28 <= size /\ buf <> NULL /\ mem_out o = m1 /\
  file_orig_table m src + 8 * n <= size /\
  file_trans_table m src + 8 * n <= size /\
  exists c prs0,
    ctx_out o = Some c /\ data c = buf /\ num_strings c = n /\
    pairs_loop m1 buf size (file_swap m src) (buf + file_orig_table m src)
      (buf + file_trans_table m src) (Z.to_nat n) 0 = Some prs0 /\
    pairs c = Some (match method cfg with
                    | BINARY => qsort (mo_compare_pairs m1) prs0
                    | _ => prs0
                    end) /\
    cache c = replicate (Z.to_nat MO_CACHE_SIZE) zero_cache_item /\
    stats c = zero_stats /\
    (method cfg = HASH ->
     exists tbl k,
       hash_table c = Some tbl /\ 0 <= k <= 31 /\
       hash_table_size c = 2 ^ k /\ hash_table_mask c = 2 ^ k - 1 /\
       table_inv m1 prs0 n k tbl).
Proof.
  unfold mo_context_create_from_memory, failed, sizeof_mo_header_t,
    sizeof_mo_string_entry_t.
  destruct (Z.eqb_spec src NULL) as [|Hdata]; cbn [orb negb andb];
    [intros [= <-]; done|].
  destruct (Z.ltb_spec size 28) as [|Hsize]; cbn [orb negb andb]; [intros [= <-]; done|].
  destruct cp; cbn [orb negb andb]; [|intros [= <-]; done].
  destruct (calloc_ctx al); cbn [orb negb andb]; [|intros [= <-]; done].
  destruct (Z.eqb_spec (malloc_data al) NULL) as [|Hbuf]; [intros [= <-]; done|].
  replace (load32 (memcpy m (malloc_data al) src size) (malloc_data al))
    with (load32 m src).
  2:{ rewrite <- (Z.add_0_r (malloc_data al)) at 2.
      rewrite memcpy_load32 by lia. by rewrite Z.add_0_r. }
  destruct ((load32 m src =? MO_MAGIC) || (load32 m src =? MO_MAGIC_REV));
    cbn [orb negb andb]; [|intros [= <-]; done].
  fold (file_swap m src). fold (loaded m (malloc_data al) src size).
  set (m1 := loaded m (malloc_data al) src size).
  rewrite !(loaded_field m (malloc_data al) src size) by (auto; lia).
  fold (file_num_strings m src) (file_orig_table m src)
    (file_trans_table m src).
  pose proof (file_u32_range m src 8) as Hn.
  pose proof (file_u32_range m src 12) as HO.
  pose proof (file_u32_range m src 16) as HT.
  fold (file_num_strings m src) in Hn. fold (file_orig_table m src) in HO.
  fold (file_trans_table m src) in HT.
  rewrite (u64_small (file_num_strings m src * 8)) by lia.
  rewrite !u64_small by lia.
  destruct (Z.gtb_spec (file_orig_table m src + file_num_strings m src * 8) size);
    cbn [orb negb andb]; [intros [= <-]; done|].
  destruct (Z.gtb_spec (file_trans_table m src + file_num_strings m src * 8) size);
    cbn [orb negb andb]; [intros [= <-]; done|].
  destruct (calloc_pairs al); cbn [orb negb andb]; [|intros [= <-]; done].
  destruct (pairs_loop m1 (malloc_data al) size (file_swap m src)
              (malloc_data al + file_orig_table m src)
              (malloc_data al + file_trans_table m src)
              (Z.to_nat (file_num_strings m src)) 0) as [prs0|] eqn:Hprs;
    [|intros [= <-]; done].
  intros Hres Herr.
  destruct (method cfg) eqn:Hm.
  - injection Hres as <-. cbn [mem_out ctx_out].
    repeat (split; [first [done|lia]|]).
    eexists _, prs0. cbn [data num_strings pairs cache stats].
    repeat (split; [done|]). done.
  - injection Hres as <-. cbn [mem_out ctx_out].
    repeat (split; [first [done|lia]|]).
    eexists _, prs0. cbn [data num_strings pairs cache stats].
    repeat (split; [done|]). done.
  - destruct (mo_build_hash_table m1 (calloc_hash al) _) as [[ok c']|] eqn:Hb;
      [|done].
    cbn [mbind option_bind] in Hres. destruct ok; [|injection Hres as <-; done].
    injection Hres as <-.
    apply (mo_build_hash_table_ok m1 _ _ prs0) in Hb
      as (tbl & k & cnt & -> & Hk & Hpos & Hinv); [|done|].
    2:{ cbn [num_strings]. apply pairs_loop_spec in Hprs as [-> _]. lia. }
    cbn [num_strings] in Hinv. cbn [mem_out ctx_out].
    repeat (split; [first [done|lia]|]).
    eexists _, prs0.
    cbn [data num_strings pairs cache stats set_hash_table hash_table
         hash_table_size hash_table_mask].
    repeat (split; [done|]).
    intros _. exists tbl, k. done.
Qed.

(** The contract of [qsort]: the result is a rearrangement of the array,
    ordered by the comparison function whenever that function is a total
    preorder. *)
Hypothesis qsort_perm : forall cmp l, qsort cmp l ≡ₚ l.
Hypothesis qsort_sorted : forall (cmp : mo_string_pair_t -> mo_string_pair_t -> Z) l,
  (forall a b, cmp a b <= 0 \/ cmp b a <= 0) ->
  (forall a b c, cmp a b <= 0 -> cmp b c <= 0 -> cmp a c <= 0) ->
  forall (i j : nat) p q,
    qsort cmp l !! i = Some p -> qsort cmp l !! j = Some q -> (i < j)%nat ->
    cmp p q <= 0.

(** A file is well laid out when its tables and strings lie after the
    header and every string, with its terminator, lies inside the file. *)
Definition well_laid_out (m : memory) (src : ptr) (size : Z) : Prop :=
  28 <= file_orig_table m src /\ 28 <= file_trans_table m src /\
  forall i, 0 <= i < file_num_strings m src ->
    28 <= file_orig_offset m src i /\
    file_orig_offset m src i + file_orig_len m src i < size /\
    28 <= file_trans_offset m src i /\
    file_trans_offset m src i + file_trans_len m src i < size.

(** The pair of string [i] of the file, resolved against the copy at [buf]. *)
Definition file_pair (buf : ptr) (m : memory) (src : ptr) (i : Z)
  : mo_string_pair_t :=
  {| original := buf + file_orig_offset m src i;
     translation := buf + file_trans_offset m src i;
     original_len := file_orig_len m src i;
     translation_len := file_trans_len m src i |}.

Definition file_pairs (buf : ptr) (m : memory) (src : ptr)
  : list mo_string_pair_t :=
  file_pair buf m src <$> seqZ 0 (file_num_strings m src).

(** The originals of the file are pairwise distinct. *)
Definition distinct_file_originals (m : memory) (src : ptr) : Prop :=
  forall i j,
    0 <= i < file_num_strings m src -> 0 <= j < file_num_strings m src ->
    file_orig_len m src i = file_orig_len m src j ->
    bytes m (src + file_orig_offset m src i) (file_orig_len m src i)
    = bytes m (src + file_orig_offset m src j) (file_orig_len m src i) ->
    i = j.

Lemma file_pairs_lookup buf m src (i : nat) pr :
  file_pairs buf m src !! i = Some pr <->
  Z.of_nat i < file_num_strings m src /\ pr = file_pair buf m src (Z.of_nat i).
Proof.
  unfold file_pairs. rewrite list_lookup_fmap.
  destruct (seqZ 0 (file_num_strings m src) !! i) as [x|] eqn:Hx; simpl.
  - apply lookup_seqZ in Hx as [-> Hlt]. rewrite Z.add_0_l.
    split; [intros [= <-]; done|]. intros [_ ->]. done.
  - split; [done|]. intros [Hlt _].
    by rewrite lookup_seqZ_lt in Hx by done.
Qed.

Lemma pairs_loop_file buf m src size prs0 :
  28 <= size -> well_laid_out m src size ->
  file_orig_table m src + 8 * file_num_strings m src <= size ->
  file_trans_table m src + 8 * file_num_strings m src <= size ->
  pairs_loop (loaded m buf src size) buf size (file_swap m src)
    (buf + file_orig_table m src) (buf + file_trans_table m src)
    (Z.to_nat (file_num_strings m src)) 0 = Some prs0 ->
  prs0 = file_pairs buf m src.
Proof.
  intros Hsz (HO & HT & _) HOn HTn Hl.
  pose proof (file_u32_range m src 8) as Hn. fold (file_num_strings m src) in Hn.
  apply pairs_loop_spec in Hl as [Hlen Hall].
  apply list_eq. intros i.
  destruct (decide (i < Z.to_nat (file_num_strings m src))%nat) as [Hi|Hi].
  - rewrite Hall by done.
    symmetry. apply file_pairs_lookup. split; [lia|].
    unfold resolved_pair, file_pair, file_orig_offset, file_orig_len,
      file_trans_offset, file_trans_len, file_u32.
    rewrite Z.add_0_l.
    rewrite <- !Z.add_assoc. rewrite !loaded_load32 by lia.
    by rewrite !Z.add_assoc.
  - rewrite (lookup_ge_None_2 prs0) by lia.
    symmetry. apply eq_None_not_Some. intros [pr Hpr].
    apply file_pairs_lookup in Hpr. lia.
Qed.

Lemma distinct_file_pairs buf m src size :
  28 <= size -> well_laid_out m src size -> distinct_file_originals m src ->
  distinct_originals (loaded m buf src size) (file_pairs buf m src).
Proof.
  intros Hsz (_ & _ & Hlay) Hd i j p q Hp Hq Hc.
  apply file_pairs_lookup in Hp as [Hi ->].
  apply file_pairs_lookup in Hq as [Hj ->].
  rewrite mo_compare_pairs_key in Hc. apply key_cmp_eq in Hc as [Hlen Hb].
  simpl in Hlen, Hb.
  pose proof (file_u32_range m src
                (file_orig_table m src + 8 * Z.of_nat i)) as Hli.
  fold (file_orig_len m src (Z.of_nat i)) in Hli.
  destruct (Hlay (Z.of_nat i) ltac:(lia)) as (? & ? & _).
  destruct (Hlay (Z.of_nat j) ltac:(lia)) as (? & ? & _).
  rewrite !loaded_bytes in Hb by lia.
  assert (Z.of_nat i = Z.of_nat j) by (apply Hd; [lia|lia|done|done]). lia.
Qed.

Lemma distinct_originals_perm m l l' :
  l ≡ₚ l' -> distinct_originals m l' -> distinct_originals m l.
Proof.
  intros Hperm Hd i j p q Hp Hq Hc.
  apply Permutation_inj in Hperm as [_ (f & Hinj & Hf)].
  rewrite Hf in Hp, Hq. apply Hinj. eapply Hd; eauto.
Qed.

Lemma mo_compare_pairs_total m a b :
  mo_compare_pairs m a b <= 0 \/ mo_compare_pairs m b a <= 0.
Proof.
  rewrite !mo_compare_pairs_key.
  rewrite (key_cmp_antisym m (original a) (original_len a)). lia.
Qed.

Lemma mo_compare_pairs_trans m a b c :
  mo_compare_pairs m a b <= 0 -> mo_compare_pairs m b c <= 0 ->
  mo_compare_pairs m a c <= 0.
Proof.
  rewrite !mo_compare_pairs_key. intros H1 H2.
  by destruct (key_cmp_trans m _ _ _ _ _ _ H1 H2).
Qed.

(** A successful load of a well-laid-out file yields a built catalog whose
    pair array is a rearrangement of the pairs of the file, with an empty
    cache and zeroed counters. *)
Lemma load_catalog_ok cfg al m src size cp o :
  mo_context_create_from_memory qsort cfg al m src size cp = Some o ->
  err o = MO_SUCCESS ->
  well_laid_out m src size ->
  28 <= size /\ malloc_data al <> NULL /\
  mem_out o = loaded m (malloc_data al) src size /\
  exists c prs,
    ctx_out o = Some c /\
    catalog_ok cfg (mem_out o) c prs /\
    prs ≡ₚ file_pairs (malloc_data al) m src /\
    cache c = replicate (Z.to_nat MO_CACHE_SIZE) zero_cache_item /\
    stats c = zero_stats.
Proof.
  intros Hc Herr Hlay.
  destruct (create_success _ _ _ _ _ _ _ Hc Herr)
    as (Hsrc & Hsz & Hbuf & Hmem & HOn & HTn & c & prs0 & Hctx & Hdata & Hnum
        & Hloop & Hpairs & Hcache & Hstats & Hhash).
  apply pairs_loop_file in Hloop; [|done..]. subst prs0.
  pose proof (file_u32_range m src 8) as Hn. fold (file_num_strings m src) in Hn.
  split; [done|]. split; [done|]. split; [done|].
  rewrite Hmem.
  set (m1 := loaded m (malloc_data al) src size) in *.
  set (fp := file_pairs (malloc_data al) m src) in *.
  assert (Hfplen : Z.of_nat (length fp) = file_num_strings m src).
  { unfold fp, file_pairs. rewrite length_fmap, length_seqZ. lia. }
  assert (Hfpwf : forall (i : nat) pr, fp !! i = Some pr ->
                                       0 <= original_len pr < 2 ^ 32).
  { intros i pr Hi. apply file_pairs_lookup in Hi as [_ ->]. simpl.
    apply file_u32_range. }
  exists c.
  exists (match method cfg with
          | BINARY => qsort (mo_compare_pairs m1) fp
          | _ => fp
          end).
  split; [done|].
  assert (Hperm : (match method cfg with
                   | BINARY => qsort (mo_compare_pairs m1) fp
                   | _ => fp
                   end) ≡ₚ fp).
  { destruct (method cfg); [done|apply qsort_perm|done]. }
  split; [|done].
  split.
  - (* catalog_wf *)
    split; [done|]. split; [by rewrite Hperm, Hfplen|].
    split; [lia|]. split.
    + intros i pr Hi.
      assert (pr ∈ fp) as Hin.
      { rewrite <- Hperm. apply list_elem_of_lookup. eauto. }
      apply list_elem_of_lookup in Hin as [j Hj]. eauto.
    + intros Hm. destruct (Hhash Hm) as (tbl & k & Htbl & Hk & Hs & Hmask & Hinv).
      rewrite Hm. exists tbl, k. repeat (split; [done|]).
      split; [apply Hinv|].
      intros j s Hj. destruct (ti_slots _ _ _ _ _ Hinv j s Hj)
        as [?|(t & pr & _ & Hpr & ->)]; [by left|right]. eauto.
  - destruct (method cfg) eqn:Hm; [done| |].
    + intros i j p q Hp Hq Hij.
      eapply (qsort_sorted (mo_compare_pairs m1) fp); eauto.
      * apply mo_compare_pairs_total.
      * apply mo_compare_pairs_trans.
    + destruct (Hhash eq_refl) as (tbl & k & Htbl & Hk & Hs & Hmask & Hinv).
      exists tbl, k. rewrite Hnum. done.
Qed.

Lemma cache_at_zero c (s : Z) :
  cache c = replicate (Z.to_nat MO_CACHE_SIZE) zero_cache_item ->
  cache_at c s = zero_cache_item.
Proof.
  intros Hc. unfold cache_at. rewrite Hc.
  destruct (replicate _ _ !! _) as [x|] eqn:Hx; [|done].
  by apply lookup_replicate in Hx as [-> _].
Qed.

Lemma cache_hit_zero cfg m c p len :
  cache c = replicate (Z.to_nat MO_CACHE_SIZE) zero_cache_item ->
  p <> NULL -> cache_hit cfg m c p len = false.
Proof.
  intros Hc Hp. unfold cache_hit. rewrite cache_at_zero by done.
  unfold zero_cache_item. cbn [c_original c_hash].
  destruct (Z.eqb_spec NULL p) as [E|E]; [congruence|].
  by destruct (method cfg).
Qed.

(** C1 (as amended).  Round trip: in a catalog loaded from a well-laid-out
    file whose originals are pairwise distinct, looking up the [i]-th
    original of the file with its stored length, in any of the three
    builds, returns the pointer to the [i]-th translation inside the
    catalog's copy, whose bytes are those of the file. *)
Theorem round_trip_identity cfg al m src size o i q :
  mo_context_create_from_memory qsort cfg al m src size true = Some o ->
  err o = MO_SUCCESS ->
  well_laid_out m src size ->
  distinct_file_originals m src ->
  0 <= i < file_num_strings m src ->
  q <> NULL ->
  bytes (mem_out o) q (file_orig_len m src i)
  = bytes m (src + file_orig_offset m src i) (file_orig_len m src i) ->
  exists c',
    mo_translate_n cfg (mem_out o) (ctx_out o) q (file_orig_len m src i)
    = Some (c', malloc_data al + file_trans_offset m src i) /\
    bytes (mem_out o) (malloc_data al + file_trans_offset m src i)
      (file_trans_len m src i)
    = bytes m (src + file_trans_offset m src i) (file_trans_len m src i).
Proof.
  intros Hc Herr Hlay Hd Hi Hq Hbytes.
  destruct (load_catalog_ok _ _ _ _ _ _ _ Hc Herr Hlay)
    as (Hsz & Hbuf & Hmem & c & prs & Hctx & Hok & Hperm & Hcache & Hstats).
  rewrite Hmem in *. rewrite Hctx.
  set (m1 := loaded m (malloc_data al) src size) in *.
  set (len := file_orig_len m src i) in *.
  pose proof Hlay as (_ & _ & Hall).
  destruct (Hall i Hi) as (HO1 & HO2 & HT1 & HT2).
  pose proof (file_u32_range m src (file_orig_table m src + 8 * i)) as Hlr.
  fold (file_orig_len m src i) in Hlr. fold len in Hlr.
  pose proof (file_u32_range m src (file_trans_table m src + 8 * i)) as Htr.
  fold (file_trans_len m src i) in Htr.
  assert (Hdist : distinct_originals m1 prs).
  { eapply distinct_originals_perm; [done|]. by apply distinct_file_pairs. }
  (* the pair of string [i] is in the array and matches the query *)
  set (pt := file_pair (malloc_data al) m src i).
  assert (Hin : pt ∈ prs).
  { rewrite Hperm. apply list_elem_of_lookup. exists (Z.to_nat i).
    apply file_pairs_lookup. rewrite Z2Nat.id by lia. split; [lia|done]. }
  apply list_elem_of_lookup in Hin as [t Ht].
  assert (Hmatch : matchb m1 q len pt = true).
  { unfold matchb. simpl. fold len. rewrite Z.eqb_refl. simpl.
    apply Z.eqb_eq, memcmp_eq. unfold m1. rewrite loaded_bytes by (fold len; lia).
    fold m1. by rewrite Hbytes. }
  destruct Hok as [Hwf Hbuilt].
  destruct (mo_translate_n_miss cfg m1 c prs q len Hwf Hq
              (cache_hit_zero cfg m1 c q len Hcache Hq))
    as (c' & r & Hres & _ & _ & _ & _ & Hfound).
  destruct (Hfound (conj Hwf Hbuilt) t pt Ht Hmatch)
    as (_ & j & pr' & Hj & Hmj & ->).
  assert (j = t) by (eapply Hdist; eauto using matchb_same_key).
  subst j. assert (pr' = pt) as -> by congruence.
  exists (Some c'). split; [done|].
  unfold m1. apply loaded_bytes; lia.
Qed.

(** ** Sequences of queries *)

Fixpoint run_queries (cfg : build) (m : memory) (ctx : option mo_context)
    (qs : list (ptr * Z)) : option (option mo_context * list ptr) :=
  match qs with
  | [] => Some (ctx, [])
  | (p, len) :: qs' =>
      '(ctx1, r) ← mo_translate_n cfg m ctx p len;
      '(ctx2, rs) ← run_queries cfg m ctx1 qs';
      Some (ctx2, r :: rs)
  end.

(** Every cache entry holds the translation of its key, [len_of p] being
    the length with which the pointer [p] is queried. *)
Definition cache_sound (m : memory) (prs : list mo_string_pair_t)
    (len_of : ptr -> Z) (c : mo_context) : Prop :=
  forall (s : nat) item,
    cache c !! s = Some item -> c_original item <> NULL ->
    exists (i : nat) pr,
      prs !! i = Some pr /\
      matchb m (c_original item) (len_of (c_original item)) pr = true /\
      c_translation item = translation pr.

Lemma lookup_spec_found m prs p len (i : nat) pr :
  distinct_originals m prs -> p <> NULL ->
  prs !! i = Some pr -> matchb m p len pr = true ->
  lookup_spec m prs p len = translation pr.
Proof.
  intros Hd Hp Hi Hm. unfold lookup_spec.
  destruct (Z.eqb_spec p NULL); [done|].
  by rewrite (find_pair_unique m prs p len i pr).
Qed.

Lemma lookup_spec_absent m prs p len :
  (forall (i : nat) pr, prs !! i = Some pr -> matchb m p len pr = false) ->
  lookup_spec m prs p len = p.
Proof.
  intros Hno. unfold lookup_spec. destruct (p =? NULL); [done|].
  destruct (find_pair m prs p len) as [[i pr]|] eqn:Hf; [|done].
  apply list_find_Some in Hf as (Hi & Hm & _).
  by rewrite (Hno i pr Hi) in Hm.
Qed.

Lemma lookup_spec_perm m prs prs' p len :
  prs ≡ₚ prs' -> distinct_originals m prs' ->
  lookup_spec m prs p len = lookup_spec m prs' p len.
Proof.
  intros Hperm Hd.
  assert (Hd' : distinct_originals m prs) by by eapply distinct_originals_perm.
  destruct (Z.eqb_spec p NULL) as [E|E].
  { unfold lookup_spec. by destruct (Z.eqb_spec p NULL). }
  destruct (find_pair m prs p len) as [[i pr]|] eqn:Hf.
  - apply list_find_Some in Hf as (Hi & Hm & _).
    rewrite (lookup_spec_found m prs p len i pr) by done.
    assert (pr ∈ prs') as Hin.
    { rewrite <- Hperm. apply list_elem_of_lookup. eauto. }
    apply list_elem_of_lookup in Hin as [j Hj].
    by rewrite (lookup_spec_found m prs' p len j pr).
  - rewrite !lookup_spec_absent; [done| |].
    + intros j pr Hj.
      assert (pr ∈ prs) as Hin.
      { rewrite Hperm. apply list_elem_of_lookup. eauto. }
      apply list_elem_of_lookup in Hin as [t Ht].
      eauto using find_pair_None.
    + eauto using find_pair_None.
Qed.

(** One query on a catalog whose cache is sound returns what the lookup
    denotes, and leaves the cache sound. *)
Lemma mo_translate_n_sound cfg m c prs len_of p :
  catalog_ok cfg m c prs -> distinct_originals m prs ->
  (forall (i : nat) pr, prs !! i = Some pr -> translation pr <> NULL) ->
  cache_sound m prs len_of c ->
  exists c',
    mo_translate_n cfg m (Some c) p (len_of p)
    = Some (Some c', lookup_spec m prs p (len_of p)) /\
    catalog_ok cfg m c' prs /\ cache_sound m prs len_of c'.
Proof.
  intros Hok Hd Hnn Hsound.
  destruct (Z.eqb_spec p NULL) as [E|E].
  { exists c. subst p. split; [|done]. unfold mo_translate_n, lookup_spec.
    simpl. by rewrite orb_true_r. }
  destruct (cache_hit cfg m c p (len_of p)) eqn:Hhit.
  - assert (Hg : passes_guard c p).
    { split; [|done]. destruct Hok as [[-> _] _]. done. }
    destruct (mo_translate_n_hit cfg m c p (len_of p) Hg Hhit)
      as (c' & Hres & Hcache & _ & Hpres).
    exists c'. rewrite Hres.
    set (item := cache_at c (cache_slot cfg m p (len_of p))) in *.
    assert (Hkey : c_original item = p).
    { unfold cache_hit in Hhit. fold item in Hhit.
      destruct (method cfg); [by apply Z.eqb_eq in Hhit| by apply Z.eqb_eq in Hhit|].
      apply andb_true_iff in Hhit as [Hhit _]. by apply Z.eqb_eq in Hhit. }
    assert (Hitem : exists s : nat, cache c !! s = Some item).
    { unfold item, cache_at in *.
      destruct (cache c !! _) as [x|] eqn:Hx; [eauto|].
      simpl in Hkey. congruence. }
    destruct Hitem as [s Hs].
    destruct (Hsound s item Hs ltac:(congruence)) as (i & pr & Hi & Hm & Htr).
    rewrite Hkey in Hm.
    rewrite Htr. destruct (Z.eqb_spec (translation pr) NULL) as [E0|_].
    { by apply Hnn in Hi. }
    rewrite (lookup_spec_found m prs p (len_of p) i pr) by done.
    split; [done|]. split; [by apply Hpres|].
    intros s' item'. rewrite Hcache. apply Hsound.
  - destruct Hok as [Hwf Hbuilt].
    destruct (mo_translate_n_miss cfg m c prs p (len_of p) Hwf E Hhit)
      as (c' & r & Hres & Hwf' & Hok' & _ & Hcase & Hfound).
    exists c'. rewrite Hres.
    destruct Hcase as [[-> Hcache]|(i & pr & Hi & Hm & -> & Hcache)].
    + destruct (find_pair m prs p (len_of p)) as [[i pr]|] eqn:Hf.
      * (* an entry matches: the search found it and returned its
           translation, which the query pointer happens to equal *)
        apply list_find_Some in Hf as (Hi & Hm & _).
        destruct (Hfound (conj Hwf Hbuilt) i pr Hi Hm)
          as (Hc2 & j & pr' & Hj & Hmj & Hr).
        rewrite (lookup_spec_found m prs p (len_of p) j pr') by done.
        split; [by rewrite <- Hr|]. split; [by apply Hok'|].
        intros s item Hs Hne. rewrite Hc2 in Hs.
        destruct (decide (s = Z.to_nat (cache_slot cfg m p (len_of p))))
          as [->|Hns].
        -- apply list_lookup_insert_Some in Hs as [(_ & <- & _)|[? _]]; [|done].
           simpl. exists j, pr'. done.
        -- rewrite list_lookup_insert_ne in Hs by done. by apply (Hsound s).
      * assert (Hno : forall (i : nat) pr, prs !! i = Some pr ->
                                           matchb m p (len_of p) pr = false)
          by eauto using find_pair_None.
        rewrite lookup_spec_absent by done.
        split; [done|]. split; [by apply Hok'|].
        intros s item. rewrite Hcache. apply Hsound.
    + rewrite (lookup_spec_found m prs p (len_of p) i pr) by done.
      split; [done|]. split; [by apply Hok'|].
      intros s item Hs Hne. rewrite Hcache in Hs.
      destruct (decide (s = Z.to_nat (cache_slot cfg m p (len_of p)))) as [->|Hns].
      * apply list_lookup_insert_Some in Hs as [(_ & <- & _)|[? _]]; [|done].
        simpl. exists i, pr. done.
      * rewrite list_lookup_insert_ne in Hs by done. by apply (Hsound s).
Qed.

Lemma run_queries_spec cfg m prs len_of qs :
  distinct_originals m prs ->
  (forall (i : nat) pr, prs !! i = Some pr -> translation pr <> NULL) ->
  (forall p l, (p, l) ∈ qs -> l = len_of p) ->
  forall c,
    catalog_ok cfg m c prs -> cache_sound m prs len_of c ->
    exists c',
      run_queries cfg m (Some c) qs
      = Some (Some c', (fun q => lookup_spec m prs q.1 q.2) <$> qs).
Proof.
  intros Hd Hnn. induction qs as [|[p l] qs IH]; intros Hq c Hok Hsound.
  - by exists c.
  - assert (l = len_of p) as -> by (apply Hq; left).
    destruct (mo_translate_n_sound cfg m c prs len_of p Hok Hd Hnn Hsound)
      as (c1 & Hres & Hok1 & Hsound1).
    destruct (IH ltac:(intros; apply Hq; by right) c1 Hok1 Hsound1)
      as (c2 & Hrest).
    exists c2. cbn [run_queries]. rewrite Hres. cbn [mbind option_bind].
    rewrite Hrest. done.
Qed.

Lemma loaded_run cfg al m src size o len_of qs :
  mo_context_create_from_memory qsort cfg al m src size true = Some o ->
  err o = MO_SUCCESS ->
  well_laid_out m src size ->
  distinct_file_originals m src ->
  0 < malloc_data al ->
  (forall p l, (p, l) ∈ qs -> l = len_of p) ->
  exists c',
    run_queries cfg (mem_out o) (ctx_out o) qs
    = Some (Some c',
            (fun q => lookup_spec (loaded m (malloc_data al) src size)
                        (file_pairs (malloc_data al) m src) q.1 q.2) <$> qs).
Proof.
  intros Hc Herr Hlay Hd Hbuf Hq.
  destruct (load_catalog_ok _ _ _ _ _ _ _ Hc Herr Hlay)
    as (Hsz & _ & Hmem & c & prs & Hctx & Hok & Hperm & Hcache & Hstats).
  rewrite Hmem in *. rewrite Hctx.
  set (m1 := loaded m (malloc_data al) src size) in *.
  assert (Hdf : distinct_originals m1 (file_pairs (malloc_data al) m src))
    by by apply distinct_file_pairs.
  assert (Hdist : distinct_originals m1 prs)
    by by eapply distinct_originals_perm.
  destruct (run_queries_spec cfg m1 prs len_of qs Hdist) with (c := c)
    as (c' & Hrun); [|done|done| |].
  - intros i pr Hi.
    assert (pr ∈ file_pairs (malloc_data al) m src) as Hin.
    { rewrite <- Hperm. apply list_elem_of_lookup. eauto. }
    apply list_elem_of_lookup in Hin as [j Hj].
    apply file_pairs_lookup in Hj as [_ ->]. simpl.
    pose proof (file_u32_range m src
                  (file_trans_table m src + 8 * Z.of_nat j + 4)) as Hr.
    fold (file_trans_offset m src (Z.of_nat j)) in Hr. unfold NULL. lia.
  - intros s item Hs Hne. rewrite Hcache in Hs.
    apply lookup_replicate in Hs as [-> _]. done.
  - exists c'. rewrite Hrun. do 2 f_equal.
    apply list_fmap_ext. intros _ [p l] _. simpl.
    by apply lookup_spec_perm.
Qed.

(** C2 (as amended).  Strategy equivalence: for one well-laid-out file with
    pairwise distinct originals, loaded by a linear, a binary and a hash
    build, and a sequence of queries in which a pointer always comes with
    the same length [len_of p], the three builds return the same sequence
    of pointers into the same memory, hence the same bytes. *)
Theorem strategy_equivalence cfgL cfgB cfgH al m src size oL oB oH len_of qs :
  method cfgL = LINEAR -> method cfgB = BINARY -> method cfgH = HASH ->
  mo_context_create_from_memory qsort cfgL al m src size true = Some oL ->
  mo_context_create_from_memory qsort cfgB al m src size true = Some oB ->
  mo_context_create_from_memory qsort cfgH al m src size true = Some oH ->
  err oL = MO_SUCCESS -> err oB = MO_SUCCESS -> err oH = MO_SUCCESS ->
  well_laid_out m src size ->
  distinct_file_originals m src ->
  0 < malloc_data al ->
  (forall p l, (p, l) ∈ qs -> l = len_of p) ->
  exists rs cL cB cH,
    run_queries cfgL (mem_out oL) (ctx_out oL) qs = Some (cL, rs) /\
    run_queries cfgB (mem_out oB) (ctx_out oB) qs = Some (cB, rs) /\
    run_queries cfgH (mem_out oH) (ctx_out oH) qs = Some (cH, rs) /\
    mem_out oL = mem_out oB /\ mem_out oB = mem_out oH.
Proof.
  intros _ _ _ HL HB HH EL EB EH Hlay Hd Hbuf Hq.
  destruct (loaded_run _ _ _ _ _ _ len_of qs HL EL Hlay Hd Hbuf Hq) as [cL HrL].
  destruct (loaded_run _ _ _ _ _ _ len_of qs HB EB Hlay Hd Hbuf Hq) as [cB HrB].
  destruct (loaded_run _ _ _ _ _ _ len_of qs HH EH Hlay Hd Hbuf Hq) as [cH HrH].
  destruct (create_success _ _ _ _ _ _ _ HL EL) as (_ & _ & _ & ML & _).
  destruct (create_success _ _ _ _ _ _ _ HB EB) as (_ & _ & _ & MB & _).
  destruct (create_success _ _ _ _ _ _ _ HH EH) as (_ & _ & _ & MH & _).
  eexists _, _, _, _. split; [exact HrL|]. split; [exact HrB|].
  split; [exact HrH|]. split; congruence.
Qed.

End LoaderFacts.

(** ** Guarded calls, misses and counters *)

(** The argument check with a null original. *)
Lemma mo_translate_n_null_original cfg m context len :
  mo_translate_n cfg m context NULL len = Some (context, NULL).
Proof.
  unfold mo_translate_n. destruct context as [c|]; [|done].
  by rewrite Z.eqb_refl, orb_true_r.
Qed.

(** C10.  With a null context, a null pair array or a null original,
    [mo_translate_n] returns the original and the context it was given:
    neither a cache slot nor a counter changes. *)
Theorem mo_translate_n_null_args cfg m context original len :
  context = None \/ (exists c, context = Some c /\ pairs c = None)
  \/ original = NULL ->
  mo_translate_n cfg m context original len = Some (context, original).
Proof.
  intros [->|[(c & -> & Hp)| ->]]; unfold mo_translate_n.
  - done.
  - by rewrite bool_decide_eq_true_2.
  - apply mo_translate_n_null_original.
Qed.

(** C3 (as amended).  Miss passthrough: a query whose bytes are not an
    original of the catalog leaves the cache as it was, and [mo_translate]
    returns the input pointer whenever the cache slot the query selects does
    not already hold that pointer (and, in a hash build, that hash). *)
Theorem miss_passthrough cfg limit m c prs p len :
  catalog_wf cfg m c prs -> p <> NULL ->
  strlen limit m p = Some len ->
  (forall (i : nat) pr, prs !! i = Some pr -> matchb m p len pr = false) ->
  exists c' r,
    mo_translate cfg limit m (Some c) p = Some (Some c', r) /\
    cache c' = cache c /\
    (cache_hit cfg m c p len = false -> r = p).
Proof.
  intros Hwf Hp Hlen Habsent. unfold mo_translate.
  destruct (Z.eqb_spec p NULL) as [|_]; [done|].
  rewrite Hlen. cbn [mbind option_bind].
  destruct (cache_hit cfg m c p len) eqn:Hhit.
  - assert (Hg : passes_guard c p).
    { split; [|done]. destruct Hwf as [-> _]. done. }
    destruct (mo_translate_n_hit cfg m c p len Hg Hhit) as (c' & Hres & Hc & _).
    eexists _, _. split; [exact Hres|]. split; [done|]. done.
  - destruct (mo_translate_n_miss cfg m c prs p len Hwf Hp Hhit)
      as (c' & r & Hres & _ & _ & _ & Hcase & _).
    exists c', r. split; [done|].
    destruct Hcase as [[-> Hc]|(i & pr & Hi & Hm & _)].
    + done.
    + by rewrite (Habsent i pr Hi) in Hm.
Qed.

(** The invariant of the lookup counters, in 32-bit arithmetic. *)
Definition stats_inv (st : mo_stats_t) : Prop :=
  total_lookups st = u32 (cache_hits st + cache_misses st).

Lemma u32_succ_l a b : u32 (u32 (a + 1) + b) = u32 (u32 (a + b) + 1).
Proof.
  unfold u32. rewrite !Zplus_mod_idemp_l. f_equal. lia.
Qed.

Lemma u32_succ_r a b : u32 (a + u32 (b + 1)) = u32 (u32 (a + b) + 1).
Proof.
  unfold u32. rewrite Zplus_mod_idemp_r, Zplus_mod_idemp_l. f_equal. lia.
Qed.

(** One call that passes the argument check, in a statistics build. *)
Lemma mo_translate_n_counts cfg m c prs p len :
  enable_stats cfg = true -> catalog_wf cfg m c prs -> p <> NULL ->
  exists c' r,
    mo_translate_n cfg m (Some c) p len = Some (Some c', r) /\
    catalog_wf cfg m c' prs /\
    total_lookups (stats c') = u32 (total_lookups (stats c) + 1) /\
    ((cache_hits (stats c') = u32 (cache_hits (stats c) + 1) /\
      cache_misses (stats c') = cache_misses (stats c)) \/
     (cache_hits (stats c') = cache_hits (stats c) /\
      cache_misses (stats c') = u32 (cache_misses (stats c) + 1))).
Proof.
  intros Hst Hwf Hp.
  destruct (cache_hit cfg m c p len) eqn:Hhit.
  - assert (Hg : passes_guard c p).
    { split; [|done]. destruct Hwf as [-> _]. done. }
    destruct (mo_translate_n_hit cfg m c p len Hg Hhit)
      as (c' & Hres & _ & Hstats & Hpres).
    eexists _, _. split; [exact Hres|].
    split; [exact (proj1 (Hpres prs) Hwf)|].
    rewrite Hstats. unfold inc_cache_hits, inc_total_lookups. rewrite Hst.
    simpl. split; [done|]. by left.
  - destruct (mo_translate_n_miss cfg m c prs p len Hwf Hp Hhit)
      as (c' & r & Hres & Hwf' & _ & (Ht & Hh & Hm) & _).
    exists c', r. split; [done|]. split; [done|].
    rewrite Ht, Hh, Hm. unfold inc_cache_misses, inc_total_lookups.
    rewrite Hst. simpl. split; [done|]. by right.
Qed.

(** C8 (as amended).  In a statistics build, a call of [mo_translate_n] that
    passes the argument check adds one (modulo 2^32) to [total_lookups] and
    to exactly one of [cache_hits] and [cache_misses]; hence after any
    sequence of calls, rejected ones included,
    [total_lookups == cache_hits + cache_misses] in 32-bit arithmetic. *)
Theorem lookup_counters cfg m c prs :
  enable_stats cfg = true -> catalog_wf cfg m c prs ->
  (forall p len, p <> NULL ->
     exists c' r,
       mo_translate_n cfg m (Some c) p len = Some (Some c', r) /\
       total_lookups (stats c') = u32 (total_lookups (stats c) + 1) /\
       ((cache_hits (stats c') = u32 (cache_hits (stats c) + 1) /\
         cache_misses (stats c') = cache_misses (stats c)) \/
        (cache_hits (stats c') = cache_hits (stats c) /\
         cache_misses (stats c') = u32 (cache_misses (stats c) + 1)))) /\
  (forall qs, stats_inv (stats c) ->
     exists c' rs,
       run_queries cfg m (Some c) qs = Some (Some c', rs) /\
       stats_inv (stats c')).
Proof.
  intros Hst Hwf. split.
  - intros p len Hp.
    destruct (mo_translate_n_counts cfg m c prs p len Hst Hwf Hp)
      as (c' & r & Hres & _ & Hcount).
    eauto.
  - intros qs. revert c Hwf.
    induction qs as [|[p len] qs IH]; intros c Hwf Hinv.
    + by exists c, [].
    + cbn [run_queries].
      destruct (Z.eqb_spec p NULL) as [->|Hp].
      * rewrite mo_translate_n_null_original. cbn [mbind option_bind].
        destruct (IH c Hwf Hinv) as (c' & rs & Hrun & Hinv').
        rewrite Hrun. cbn [mbind option_bind]. eauto.
      * destruct (mo_translate_n_counts cfg m c prs p len Hst Hwf Hp)
          as (c1 & r & Hres & Hwf1 & Ht & Hcase).
        rewrite Hres. cbn [mbind option_bind].
        destruct (IH c1 Hwf1) as (c' & rs & Hrun & Hinv').
        { unfold stats_inv in *. rewrite Ht, Hinv.
          destruct Hcase as [[-> ->]|[-> ->]].
          - rewrite u32_succ_l. unfold u32. by rewrite Zplus_mod_idemp_l.
          - rewrite u32_succ_r. unfold u32. by rewrite Zplus_mod_idemp_l. }
        rewrite Hrun. cbn [mbind option_bind]. eauto.
Qed.

(** ** Sizing of the hash table *)


(** The binary32 computation of [target_size] agrees with the exact
    quotient on every count from [n] up to [n + k - 1]. *)
Fixpoint sizing_exact (k : nat) (n : Z) : bool :=
  match k with
  | O => true
  | S k' => (target_size n =? 4 * n / 3 + 1) && sizing_exact k' (n + 1)
  end.

Lemma sizing_exact_spec k :
  forall n, sizing_exact k n = true ->
  forall i, n <= i < n + Z.of_nat k -> target_size i = 4 * i / 3 + 1.
Proof.
  induction k as [|k IH]; intros n H i Hi; [lia|].
  simpl in H. apply andb_true_iff in H as [H1 H2].
  destruct (Z.eq_dec i n) as [->|Hne]; [by apply Z.eqb_eq|].
  apply (IH (n + 1)); [done|lia].
Qed.

Lemma sizing_exact_65536 : sizing_exact (Z.to_nat 65536) 0 = true.
Proof. vm_compute. reflexivity. Qed.

Lemma target_size_exact n : 0 <= n < 65536 -> target_size n = 4 * n / 3 + 1.
Proof.
  intros Hn. apply (sizing_exact_spec (Z.to_nat 65536) 0 sizing_exact_65536). lia.
Qed.

Lemma table_larger n :
  1 <= n < 65536 ->
  smallest_pow2_ge (4 * n / 3 + 1) (mo_next_power_of_two (target_size n)) /\
  n < mo_next_power_of_two (target_size n) <= 2 ^ 31.
Proof.
  intros Hn. rewrite target_size_exact by lia.
  assert (Hq : n <= 4 * n / 3 < 87382).
  { split; [apply Z.div_le_lower_bound; lia|apply Z.div_lt_upper_bound; lia]. }
  destruct (mo_next_power_of_two_spec (4 * n / 3 + 1)) as [Hs Hle]; [lia|].
  split; [done|]. destruct Hs as (_ & Hge & _). lia.
Qed.

Lemma mo_build_hash_table_size m ch c prs r c' :
  pairs c = Some prs -> Z.of_nat (length prs) = num_strings c ->
  mo_build_hash_table m ch (Some c) = Some (r, Some c') ->
  r = true ->
  hash_table_size c' = mo_next_power_of_two (target_size (num_strings c)) /\
  hash_table_mask c' = u32 (hash_table_size c' - 1) /\
  hash_table_size c' <> 0 /\ 1 <= num_strings c.
Proof.
  intros Hp Hlen H ->. unfold mo_build_hash_table in H. rewrite Hp in H.
  destruct (Z.eqb_spec (num_strings c) 0) as [|Hn]; [done|].
  destruct ch; cbn [negb] in H; [|done].
  set (sz := mo_next_power_of_two (target_size (num_strings c))) in *.
  destruct (build_loop m prs (u32 (sz - 1)) (Z.to_nat (num_strings c)) 0
              (replicate (Z.to_nat sz) zero_slot) 0) as [[tbl cnt]|] eqn:Hb;
    [|done].
  cbn [mbind option_bind] in H. injection H as <-.
  cbn [set_hash_table hash_table_size hash_table_mask].
  split; [done|]. split; [done|]. split; [|lia].
  intros Hz. rewrite Hz in Hb.
  destruct (Z.to_nat (num_strings c)) as [|n'] eqn:Hn'; [lia|].
  cbn [build_loop] in Hb.
  destruct (prs !! Z.to_nat 0); cbn [mbind option_bind] in Hb; [|done].
  change (Z.to_nat 0) with 0%nat in Hb. cbn [replicate length insert_probe] in Hb.
  done.
Qed.




(** When the sizing wraps to zero the insertion has no slot to probe. *)
Lemma mo_build_hash_table_wrapped m c prs :
  pairs c = Some prs -> (0 < length prs)%nat -> 0 < num_strings c ->
  mo_next_power_of_two (target_size (num_strings c)) = 0 ->
  mo_build_hash_table m true (Some c) = None.
Proof.
  intros Hp Hlen Hn Hz. unfold mo_build_hash_table. rewrite Hp.
  destruct (Z.eqb_spec (num_strings c) 0) as [|_]; [lia|]. cbn [negb].
  rewrite Hz. change (Z.to_nat 0) with 0%nat. cbn [replicate].
  destruct (Z.to_nat (num_strings c)) as [|n'] eqn:Hn'; [lia|].
  cbn [build_loop]. change (Z.to_nat 0) with 0%nat.
  destruct prs as [|pr prs]; [simpl in Hlen; lia|].
  cbn [lookup list_lookup mbind option_bind length insert_probe]. done.
Qed.

(** A catalog of 1 610 612 737 strings, all of them the empty string at
    the same address. *)
Definition huge_count : Z := 1610612737.

Definition huge_pairs : list mo_string_pair_t :=
  replicate (Z.to_nat huge_count)
    {| original := 4096; translation := 4096;
       original_len := 0; translation_len := 0 |}.

Definition huge_catalog : mo_context :=
  {| data := 4096; size := 12884901924; pairs := Some huge_pairs;
     num_strings := huge_count; hash_table := None; hash_table_size := 0;
     hash_table_mask := 0; hash_table_count := 0;
     cache := replicate (Z.to_nat MO_CACHE_SIZE) zero_cache_item;
     stats := zero_stats |}.

(** C9 (the code at the failing input).  For 1 610 612 737 strings the
    quotient by the load factor is 2^31, the target 2^31 + 1, and
    [mo_next_power_of_two] wraps to 0: the table has no slot, the number of
    items is not below its size, and the first insertion probe has no
    defined result. *)
Theorem huge_catalog_has_no_slot m :
  target_size huge_count = 2 ^ 31 + 1 /\
  mo_next_power_of_two (target_size huge_count) = 0 /\
  mo_build_hash_table m true (Some huge_catalog) = None.
Proof.
  assert (Ht : target_size huge_count = 2 ^ 31 + 1) by (vm_compute; reflexivity).
  assert (Hz : mo_next_power_of_two (target_size huge_count) = 0)
    by (rewrite Ht; vm_compute; reflexivity).
  split; [done|]. split; [done|].
  apply (mo_build_hash_table_wrapped m huge_catalog huge_pairs).
  - reflexivity.
  - unfold huge_pairs. rewrite length_replicate. unfold huge_count. lia.
  - unfold huge_catalog, huge_count. cbn [num_strings]. lia.
  - exact Hz.
Qed.

(** ** Error codes of the loader *)





(** ** Context and plural selection *)






(** * Examples

    ** An implementation of the [qsort] contract *)

Fixpoint insert_sorted {A} (cmp : A -> A -> Z) (x : A) (l : list A) : list A :=
  match l with
  | [] => [x]
  | y :: l' => if cmp x y <=? 0 then x :: y :: l'
               else y :: insert_sorted cmp x l'
  end.

Fixpoint insertion_sort {A} (cmp : A -> A -> Z) (l : list A) : list A :=
  match l with
  | [] => []
  | x :: l' => insert_sorted cmp x (insertion_sort cmp l')
  end.

Fixpoint sorted_list {A} (cmp : A -> A -> Z) (l : list A) : Prop :=
  match l with
  | [] => True
  | x :: l' => (forall y, y ∈ l' -> cmp x y <= 0) /\ sorted_list cmp l'
  end.

Lemma insert_sorted_perm {A} (cmp : A -> A -> Z) x l :
  insert_sorted cmp x l ≡ₚ x :: l.
Proof.
  induction l as [|y l IH]; simpl; [done|].
  destruct (cmp x y <=? 0); [done|]. rewrite IH. apply Permutation_swap.
Qed.

Lemma insertion_sort_perm {A} (cmp : A -> A -> Z) l :
  insertion_sort cmp l ≡ₚ l.
Proof.
  induction l as [|x l IH]; simpl; [done|].
  by rewrite insert_sorted_perm, IH.
Qed.

Lemma insert_sorted_sorted {A} (cmp : A -> A -> Z) x l :
  (forall a b, cmp a b <= 0 \/ cmp b a <= 0) ->
  (forall a b c, cmp a b <= 0 -> cmp b c <= 0 -> cmp a c <= 0) ->
  sorted_list cmp l -> sorted_list cmp (insert_sorted cmp x l).
Proof.
  intros Htot Htr. induction l as [|y l IH]; simpl; intros Hs.
  - split; [|done]. intros y Hy. by apply elem_of_nil in Hy.
  - destruct Hs as [Hy Hs]. destruct (Z.leb_spec (cmp x y) 0) as [Hle|Hgt].
    + simpl. split; [|done]. intros z Hz.
      apply elem_of_cons in Hz as [->|Hz]; [done|]. eauto.
    + simpl. split; [|by apply IH]. intros z Hz.
      rewrite insert_sorted_perm in Hz.
      apply elem_of_cons in Hz as [->|Hz]; [|by apply Hy].
      destruct (Htot x y); [lia|done].
Qed.

Lemma insertion_sort_sorted_list {A} (cmp : A -> A -> Z) l :
  (forall a b, cmp a b <= 0 \/ cmp b a <= 0) ->
  (forall a b c, cmp a b <= 0 -> cmp b c <= 0 -> cmp a c <= 0) ->
  sorted_list cmp (insertion_sort cmp l).
Proof.
  intros Htot Htr. induction l as [|x l IH]; simpl; [done|].
  by apply insert_sorted_sorted.
Qed.

Lemma sorted_list_lookup {A} (cmp : A -> A -> Z) l :
  sorted_list cmp l ->
  forall (i j : nat) p q,
    l !! i = Some p -> l !! j = Some q -> (i < j)%nat -> cmp p q <= 0.
Proof.
  induction l as [|x l IH]; intros Hs i j p q Hi Hj Hij; [done|].
  destruct Hs as [Hx Hs]. destruct j as [|j]; [lia|]. simpl in Hj.
  destruct i as [|i]; simpl in Hi.
  - injection Hi as <-. apply Hx. apply list_elem_of_lookup. eauto.
  - apply (IH Hs i j); [done|done|lia].
Qed.

Lemma insertion_sort_sorted (cmp : mo_string_pair_t -> mo_string_pair_t -> Z) l :
  (forall a b, cmp a b <= 0 \/ cmp b a <= 0) ->
  (forall a b c, cmp a b <= 0 -> cmp b c <= 0 -> cmp a c <= 0) ->
  forall (i j : nat) p q,
    insertion_sort cmp l !! i = Some p -> insertion_sort cmp l !! j = Some q ->
    (i < j)%nat -> cmp p q <= 0.
Proof.
  intros Htot Htr. apply sorted_list_lookup. by apply insertion_sort_sorted_list.
Qed.

(** ** A two-string catalog

    ["Close" -> "Fermer"] and ["Open" -> "Ouvrir"], little endian, tables at
    28 and 44, strings from 60; 85 bytes. *)

Definition le32 (v : Z) : list Z :=
  [v mod 256; v / 2 ^ 8 mod 256; v / 2 ^ 16 mod 256; v / 2 ^ 24 mod 256].

Definition demo_file : list Z :=
  le32 MO_MAGIC ++ le32 0 ++ le32 2 ++ le32 28 ++ le32 44 ++ le32 0 ++ le32 0
  ++ le32 5 ++ le32 60 ++ le32 4 ++ le32 66
  ++ le32 6 ++ le32 71 ++ le32 6 ++ le32 78
  ++ [67; 108; 111; 115; 101; 0] ++ [79; 112; 101; 110; 0]
  ++ [70; 101; 114; 109; 101; 114; 0] ++ [79; 117; 118; 114; 105; 114; 0].

(** The file at address 1000 and the caller's string ["OpenX"] at 5000. *)
Definition demo_memory : memory :=
  store_bytes (store_bytes (fun _ => 0) 1000 demo_file) 5000
    [79; 112; 101; 110; 88; 0].

Definition demo_alloc : allocator :=
  {| calloc_ctx := true; malloc_data := 2000; calloc_pairs := true;
     calloc_hash := true |}.

Definition demo_build (s : search_method) : build :=
  {| method := s; enable_stats := true |}.

Definition demo_load (s : search_method) : option create_out :=
  mo_context_create_from_memory insertion_sort (demo_build s) demo_alloc
    demo_memory 1000 85 true.

Definition no_out : create_out :=
  {| err := MO_ERROR_NOT_INITIALIZED; ctx_out := None; mem_out := fun _ => 0 |}.

Definition demo_out (s : search_method) : create_out :=
  default no_out (demo_load s).

Definition no_context : mo_context :=
  {| data := 0; size := 0; pairs := None; num_strings := 0;
     hash_table := None; hash_table_size := 0; hash_table_mask := 0;
     hash_table_count := 0; cache := []; stats := zero_stats |}.

Definition demo_context (s : search_method) : mo_context :=
  default no_context (ctx_out (demo_out s)).

Definition demo_pairs (s : search_method) : list mo_string_pair_t :=
  default [] (pairs (demo_context s)).

Example demo_load_succeeds :
  err (demo_out LINEAR) = MO_SUCCESS /\ err (demo_out BINARY) = MO_SUCCESS
  /\ err (demo_out HASH) = MO_SUCCESS.
Proof. vm_compute. done. Qed.

Example demo_translates_open :
  (snd <$> mo_translate_n (demo_build LINEAR) (mem_out (demo_out LINEAR))
             (ctx_out (demo_out LINEAR)) 5000 4) = Some 2078 /\
  (snd <$> mo_translate_n (demo_build BINARY) (mem_out (demo_out BINARY))
             (ctx_out (demo_out BINARY)) 5000 4) = Some 2078 /\
  (snd <$> mo_translate_n (demo_build HASH) (mem_out (demo_out HASH))
             (ctx_out (demo_out HASH)) 5000 4) = Some 2078 /\
  bytes (mem_out (demo_out HASH)) 2078 6 = [79; 117; 118; 114; 105; 114].
Proof. vm_compute. done. Qed.

Lemma demo_well_laid_out : well_laid_out demo_memory 1000 85.
Proof.
  assert (Hn : file_num_strings demo_memory 1000 = 2) by (vm_compute; reflexivity).
  split; [vm_compute; discriminate|]. split; [vm_compute; discriminate|].
  intros i Hi. rewrite Hn in Hi.
  assert (i = 0 \/ i = 1) as [-> | ->] by lia; vm_compute;
    repeat split; discriminate.
Qed.

Lemma demo_distinct : distinct_file_originals demo_memory 1000.
Proof.
  assert (Hn : file_num_strings demo_memory 1000 = 2) by (vm_compute; reflexivity).
  intros i j Hi Hj. rewrite Hn in Hi, Hj.
  assert (i = 0 \/ i = 1) as [-> | ->] by lia;
    assert (j = 0 \/ j = 1) as [-> | ->] by lia;
    intros Hlen; try reflexivity; vm_compute in Hlen; discriminate Hlen.
Qed.

Lemma demo_catalog_wf s :
  s <> HASH ->
  catalog_wf (demo_build s) (mem_out (demo_out s)) (demo_context s) (demo_pairs s).
Proof.
  intros Hs.
  assert (Hp : demo_pairs s =
               [ {| original := 2060; translation := 2071;
                    original_len := 5; translation_len := 6 |};
                 {| original := 2066; translation := 2078;
                    original_len := 4; translation_len := 6 |} ]
               \/ demo_pairs s =
               [ {| original := 2066; translation := 2078;
                    original_len := 4; translation_len := 6 |};
                 {| original := 2060; translation := 2071;
                    original_len := 5; translation_len := 6 |} ]).
  { destruct s; [left|right|contradiction]; vm_compute; reflexivity. }
  split; [destruct s; [|  |contradiction]; vm_compute; reflexivity|].
  split; [destruct s; [|  |contradiction]; vm_compute; reflexivity|].
  split; [destruct s; [|  |contradiction]; vm_compute; reflexivity|].
  split.
  - intros i pr Hi.
    destruct Hp as [Hp|Hp]; rewrite Hp in Hi;
      destruct i as [|[|i]]; cbn [lookup list_lookup] in Hi;
      try discriminate Hi; injection Hi as <-;
      cbn [original_len]; lia.
  - intros Hm. destruct s; [discriminate Hm|discriminate Hm|contradiction].
Qed.

Lemma demo_load_eq s : demo_load s = Some (demo_out s).
Proof.
  assert (H : is_Some (demo_load s)).
  { apply (proj1 (bool_decide_spec _)). destruct s; vm_compute; exact I. }
  destruct H as [o Ho]. unfold demo_out. by rewrite Ho.
Qed.

Lemma demo_num_strings : file_num_strings demo_memory 1000 = 2.
Proof. vm_compute. reflexivity. Qed.

(** ** C1: round trip *)

Lemma round_trip_identity_witness :
  exists c',
    mo_translate_n (demo_build BINARY) (mem_out (demo_out BINARY))
      (ctx_out (demo_out BINARY)) 5000 (file_orig_len demo_memory 1000 1)
    = Some (c', malloc_data demo_alloc + file_trans_offset demo_memory 1000 1) /\
    bytes (mem_out (demo_out BINARY))
      (malloc_data demo_alloc + file_trans_offset demo_memory 1000 1)
      (file_trans_len demo_memory 1000 1)
    = bytes demo_memory (1000 + file_trans_offset demo_memory 1000 1)
        (file_trans_len demo_memory 1000 1).
Proof.
  apply (round_trip_identity insertion_sort (@insertion_sort_perm _)
           insertion_sort_sorted (demo_build BINARY) demo_alloc demo_memory
           1000 85 (demo_out BINARY) 1 5000).
  - exact (demo_load_eq BINARY).
  - vm_compute. reflexivity.
  - exact demo_well_laid_out.
  - exact demo_distinct.
  - rewrite demo_num_strings. lia.
  - unfold NULL. lia.
  - vm_compute. reflexivity.
Defined.

(** Two entries with the same original ["a"], translated ["x"] and ["y"]. *)
Definition dup_file : list Z :=
  le32 MO_MAGIC ++ le32 0 ++ le32 2 ++ le32 28 ++ le32 44 ++ le32 0 ++ le32 0
  ++ le32 1 ++ le32 60 ++ le32 1 ++ le32 62
  ++ le32 1 ++ le32 64 ++ le32 1 ++ le32 66
  ++ [97; 0] ++ [97; 0] ++ [120; 0] ++ [121; 0].

Definition dup_memory : memory := store_bytes (fun _ => 0) 1000 dup_file.

(** The file loads; looking up its second original (the bytes at 1062, one
    byte long) in a linear build returns the first translation, ["x"],
    not the second, ["y"]. *)
Lemma round_trip_duplicates :
  match mo_context_create_from_memory insertion_sort (demo_build LINEAR)
          demo_alloc dup_memory 1000 68 true with
  | Some o =>
      err o = MO_SUCCESS /\
      1062 = 1000 + file_orig_offset dup_memory 1000 1 /\
      match mo_translate_n (demo_build LINEAR) (mem_out o) (ctx_out o) 1062
              (file_orig_len dup_memory 1000 1) with
      | Some (_, r) =>
          bytes (mem_out o) r (file_trans_len dup_memory 1000 1) = [120] /\
          bytes dup_memory (1000 + file_trans_offset dup_memory 1000 1)
            (file_trans_len dup_memory 1000 1) = [121]
      | None => False
      end
  | None => False
  end.
Proof. vm_compute. repeat split; reflexivity. Qed.

(** ** C2: strategy equivalence *)

Lemma strategy_equivalence_witness :
  exists rs cL cB cH,
    run_queries (demo_build LINEAR) (mem_out (demo_out LINEAR))
      (ctx_out (demo_out LINEAR)) [(5000, 4); (1060, 5); (5000, 4); (0, 0)]
    = Some (cL, rs) /\
    run_queries (demo_build BINARY) (mem_out (demo_out BINARY))
      (ctx_out (demo_out BINARY)) [(5000, 4); (1060, 5); (5000, 4); (0, 0)]
    = Some (cB, rs) /\
    run_queries (demo_build HASH) (mem_out (demo_out HASH))
      (ctx_out (demo_out HASH)) [(5000, 4); (1060, 5); (5000, 4); (0, 0)]
    = Some (cH, rs) /\
    mem_out (demo_out LINEAR) = mem_out (demo_out BINARY) /\
    mem_out (demo_out BINARY) = mem_out (demo_out HASH).
Proof.
  apply (strategy_equivalence insertion_sort (@insertion_sort_perm _)
           insertion_sort_sorted (demo_build LINEAR) (demo_build BINARY)
           (demo_build HASH) demo_alloc demo_memory 1000 85
           (demo_out LINEAR) (demo_out BINARY) (demo_out HASH)
           (fun p => if p =? 5000 then 4 else if p =? 1060 then 5 else 0)).
  - reflexivity.
  - reflexivity.
  - reflexivity.
  - exact (demo_load_eq LINEAR).
  - exact (demo_load_eq BINARY).
  - exact (demo_load_eq HASH).
  - vm_compute. reflexivity.
  - vm_compute. reflexivity.
  - vm_compute. reflexivity.
  - exact demo_well_laid_out.
  - exact demo_distinct.
  - vm_compute. reflexivity.
  - intros p l Hin.
    repeat (apply elem_of_cons in Hin as [Hin|Hin];
            [injection Hin as -> ->; reflexivity|]).
    by apply elem_of_nil in Hin.
Defined.

(** The same pointer queried with length 4 (["Open"]) and then with
    length 2 (["Op"], not an original): the linear build answers the second
    query from its cache, keyed by the pointer alone; the hash build, whose
    cache also compares the hash, returns the query itself. *)
Lemma strategy_divergence :
  (snd <$> run_queries (demo_build LINEAR) (mem_out (demo_out LINEAR))
             (ctx_out (demo_out LINEAR)) [(5000, 4); (5000, 2)])
  = Some [2078; 2078] /\
  (snd <$> run_queries (demo_build HASH) (mem_out (demo_out HASH))
             (ctx_out (demo_out HASH)) [(5000, 4); (5000, 2)])
  = Some [2078; 5000].
Proof. vm_compute. split; reflexivity. Qed.

(** ** C3: miss passthrough *)

Lemma miss_passthrough_witness :
  exists c' r,
    mo_translate (demo_build LINEAR) 100 (mem_out (demo_out LINEAR))
      (Some (demo_context LINEAR)) 5000 = Some (Some c', r) /\
    cache c' = cache (demo_context LINEAR) /\
    (cache_hit (demo_build LINEAR) (mem_out (demo_out LINEAR))
       (demo_context LINEAR) 5000 5 = false -> r = 5000).
Proof.
  apply (miss_passthrough (demo_build LINEAR) 100 (mem_out (demo_out LINEAR))
           (demo_context LINEAR) (demo_pairs LINEAR) 5000 5).
  - apply demo_catalog_wf. discriminate.
  - unfold NULL. lia.
  - vm_compute. reflexivity.
  - intros i pr Hi.
    destruct i as [|[|i]]; vm_compute in Hi; try discriminate Hi;
      injection Hi as <-; vm_compute; reflexivity.
Defined.

(** ["OpenX"] at 5000 is not an original.  After a lookup of its first four
    bytes, ["Open"], through the same pointer, [mo_translate] of the whole
    string hits the cache and returns the translation of ["Open"] instead
    of the input pointer. *)
Lemma stale_cache_hit :
  strlen 100 (mem_out (demo_out LINEAR)) 5000 = Some 5 /\
  find_pair (mem_out (demo_out LINEAR)) (demo_pairs LINEAR) 5000 5 = None /\
  match mo_translate_n (demo_build LINEAR) (mem_out (demo_out LINEAR))
          (ctx_out (demo_out LINEAR)) 5000 4 with
  | Some (c1, _) =>
      (snd <$> mo_translate (demo_build LINEAR) 100 (mem_out (demo_out LINEAR))
                 c1 5000) = Some 2078
  | None => False
  end.
Proof. vm_compute. repeat split; reflexivity. Qed.

(** ** C4: a descriptor that wraps *)

(** One entry whose original has length 0 at offset [0xFFFFFFFF]; the
    translation is the empty string at offset 44; 45 bytes. *)
Definition wrap_file : list Z :=
  le32 MO_MAGIC ++ le32 0 ++ le32 1 ++ le32 28 ++ le32 36 ++ le32 0 ++ le32 0
  ++ le32 0 ++ le32 0xFFFFFFFF
  ++ le32 0 ++ le32 44
  ++ [0].

Definition wrap_memory : memory := store_bytes (fun _ => 0) 1000 wrap_file.

(** C4 (the code at the failing input).  The sum
    [orig_offset + orig_len + 1] is computed in 32 bits: for the offset
    [0xFFFFFFFF] it wraps to 0, the entry passes the check against the size
    45, the load succeeds, and the original of the pair points 4294967295
    bytes past the start of the 45-byte copy. *)
Theorem wrapped_descriptor_accepted :
  file_orig_offset wrap_memory 1000 0 + file_orig_len wrap_memory 1000 0 + 1
  = 2 ^ 32 /\
  u32 (u32 (file_orig_offset wrap_memory 1000 0
            + file_orig_len wrap_memory 1000 0) + 1) = 0 /\
  match mo_context_create_from_memory insertion_sort (demo_build LINEAR)
          demo_alloc wrap_memory 1000 45 true with
  | Some o =>
      err o = MO_SUCCESS /\
      (ctx_out o ≫= pairs)
      = Some [ {| original := 2000 + 4294967295; translation := 2000 + 44;
                  original_len := 0; translation_len := 0 |} ]
  | None => False
  end.
Proof. vm_compute. repeat split; reflexivity. Qed.

(** ** C5: table size *)




(** ** C6: error codes *)



(** ** C7: context and plural *)




(** ** C8: counters *)

Lemma lookup_counters_witness :
  (forall p len, p <> NULL ->
     exists c' r,
       mo_translate_n (demo_build BINARY) (mem_out (demo_out BINARY))
         (Some (demo_context BINARY)) p len = Some (Some c', r) /\
       total_lookups (stats c')
       = u32 (total_lookups (stats (demo_context BINARY)) + 1) /\
       ((cache_hits (stats c')
         = u32 (cache_hits (stats (demo_context BINARY)) + 1) /\
         cache_misses (stats c') = cache_misses (stats (demo_context BINARY))) \/
        (cache_hits (stats c') = cache_hits (stats (demo_context BINARY)) /\
         cache_misses (stats c')
         = u32 (cache_misses (stats (demo_context BINARY)) + 1)))) /\
  (forall qs, stats_inv (stats (demo_context BINARY)) ->
     exists c' rs,
       run_queries (demo_build BINARY) (mem_out (demo_out BINARY))
         (Some (demo_context BINARY)) qs = Some (Some c', rs) /\
       stats_inv (stats c')).
Proof.
  apply (lookup_counters (demo_build BINARY) (mem_out (demo_out BINARY))
           (demo_context BINARY) (demo_pairs BINARY)).
  - reflexivity.
  - apply demo_catalog_wf. discriminate.
Defined.

(** A call with a null original on a loaded catalog, in a statistics
    build: [total_lookups] stays 0. *)
Lemma null_original_not_counted :
  enable_stats (demo_build LINEAR) = true /\
  match mo_translate_n (demo_build LINEAR) (mem_out (demo_out LINEAR))
          (ctx_out (demo_out LINEAR)) NULL 0 with
  | Some (Some c', _) =>
      total_lookups (stats c') = total_lookups (stats (demo_context LINEAR)) /\
      total_lookups (stats c')
      <> u32 (total_lookups (stats (demo_context LINEAR)) + 1)
  | _ => False
  end.
Proof. vm_compute. repeat split; discriminate. Qed.

(** ** C10: null arguments *)

Lemma mo_translate_n_null_args_witness :
  mo_translate_n (demo_build HASH) (mem_out (demo_out HASH))
    (Some (demo_context HASH)) NULL 4
  = Some (Some (demo_context HASH), NULL) /\
  mo_translate_n (demo_build HASH) (mem_out (demo_out HASH)) None 5000 4
  = Some (None, 5000).
Proof.
  split.
  - apply (mo_translate_n_null_args (demo_build HASH) (mem_out (demo_out HASH))
             (Some (demo_context HASH)) NULL 4).
    right. right. reflexivity.
  - apply (mo_translate_n_null_args (demo_build HASH) (mem_out (demo_out HASH))
             None 5000 4).
    left. reflexivity.
Defined.

(** * Further properties of the catalog engine *)

(** ** Byte order *)

Lemma testbit_byte_mask k n :
  0 <= k -> 0 <= n ->
  Z.testbit (Z.shiftl 255 k) n = (k <=? n) && (n <? k + 8).
Proof.
  intros Hk Hn. rewrite Z.shiftl_spec by lia. change 255 with (Z.ones 8).
  destruct (Z.leb_spec k n); destruct (Z.ltb_spec n (k + 8)); cbn [andb].
  - apply Z.ones_spec_low. lia.
  - apply Z.ones_spec_high. lia.
  - apply Z.testbit_neg_r. lia.
  - apply Z.testbit_neg_r. lia.
Qed.

(** Masking with a byte mask at bit [k] keeps byte [k / 8]. *)
Lemma land_byte_mask x k :
  0 <= k -> Z.land x (Z.shiftl 255 k) = (x / 2 ^ k) mod 256 * 2 ^ k.
Proof.
  intros Hk. apply Z.bits_inj'. intros n Hn.
  rewrite Z.land_spec, testbit_byte_mask by lia.
  destruct (Z.leb_spec k n) as [Hkn|Hkn]; cbn [andb].
  - rewrite Z.mul_pow2_bits by lia.
    change 256 with (2 ^ 8). rewrite Z.testbit_mod_pow2 by lia.
    rewrite Z.div_pow2_bits by lia.
    replace (n - k + k) with n by lia.
    destruct (Z.ltb_spec n (k + 8)); destruct (Z.ltb_spec (n - k) 8);
      try lia; destruct (Z.testbit x n); reflexivity.
  - rewrite andb_false_r. symmetry. apply Z.mul_pow2_bits_low. lia.
Qed.

(** Bit fields that do not overlap are joined by addition. *)
Lemma lor_add_disjoint a b k :
  0 <= k -> 0 <= a < 2 ^ k -> Z.lor a (b * 2 ^ k) = a + b * 2 ^ k.
Proof.
  intros Hk Ha.
  assert (Hz : Z.land a (b * 2 ^ k) = 0).
  { apply Z.bits_inj'. intros n Hn. rewrite Z.land_spec, Z.bits_0.
    destruct (Z.lt_ge_cases n k).
    - rewrite Z.mul_pow2_bits_low by lia. apply andb_false_r.
    - rewrite <- (Z.mod_small a (2 ^ k)) by lia.
      rewrite Z.testbit_mod_pow2 by lia.
      destruct (Z.ltb_spec n k); [lia|reflexivity]. }
  rewrite <- Z.lxor_lor by exact Hz. symmetry. by apply Z.add_nocarry_lxor.
Qed.

(** The value of [mo_swap_uint32] in terms of the four bytes of [val]. *)
Lemma mo_swap_uint32_bytes v :
  mo_swap_uint32 v true =
  (v / 2 ^ 24) mod 256 + 2 ^ 8 * ((v / 2 ^ 16) mod 256)
  + 2 ^ 16 * ((v / 2 ^ 8) mod 256) + 2 ^ 24 * (v mod 256).
Proof.
  unfold mo_swap_uint32. cbn [negb].
  change 0x000000FF with (Z.shiftl 255 0).
  change 0x0000FF00 with (Z.shiftl 255 8).
  change 0x00FF0000 with (Z.shiftl 255 16).
  change 0xFF000000 with (Z.shiftl 255 24).
  rewrite !land_byte_mask by lia.
  rewrite !Z.shiftr_div_pow2, !Z.shiftl_mul_pow2 by lia.
  unfold u32.
  assert (E1 : v / 2 ^ 24 / 2 ^ 0 mod 256 * 2 ^ 0 = (v / 2 ^ 24) mod 256).
  { rewrite Z.pow_0_r, Z.div_1_r. lia. }
  assert (E2 : v / 2 ^ 8 / 2 ^ 8 mod 256 = (v / 2 ^ 16) mod 256).
  { rewrite Z.div_div by lia. reflexivity. }
  assert (E3 : (v * 2 ^ 8) mod 2 ^ 32 / 2 ^ 16 mod 256 = (v / 2 ^ 8) mod 256).
  { Z.div_mod_to_equations. lia. }
  assert (E4 : (v * 2 ^ 24) mod 2 ^ 32 / 2 ^ 24 mod 256 = v mod 256).
  { Z.div_mod_to_equations. lia. }
  rewrite E1, E2, E3, E4.
  pose proof (Z.mod_pos_bound (v / 2 ^ 24) 256 ltac:(lia)).
  pose proof (Z.mod_pos_bound (v / 2 ^ 16) 256 ltac:(lia)).
  pose proof (Z.mod_pos_bound (v / 2 ^ 8) 256 ltac:(lia)).
  pose proof (Z.mod_pos_bound v 256 ltac:(lia)).
  rewrite (lor_add_disjoint _ _ 8) by lia.
  rewrite (lor_add_disjoint _ _ 16) by lia.
  rewrite (lor_add_disjoint _ _ 24) by lia.
  lia.
Qed.

(** X1.  [mo_swap_uint32] is its own inverse on 32-bit values: swapping
    twice gives the value back (reduced to 32 bits), not swapping gives the
    value itself, and the result always fits 32 bits. *)
Theorem mo_swap_uint32_involutive v :
  mo_swap_uint32 (mo_swap_uint32 v true) true = u32 v /\
  mo_swap_uint32 v false = v /\
  0 <= mo_swap_uint32 v true < 2 ^ 32.
Proof.
  split; [|split; [reflexivity|]].
  - rewrite (mo_swap_uint32_bytes (mo_swap_uint32 v true)).
    rewrite (mo_swap_uint32_bytes v). unfold u32.
    Z.div_mod_to_equations. lia.
  - rewrite mo_swap_uint32_bytes. Z.div_mod_to_equations. lia.
Qed.

(** X2.  On the little-endian host, swapping a word loaded from memory
    reads the same four bytes in big-endian order. *)
Theorem mo_swap_uint32_big_endian m a :
  mo_swap_uint32 (load32 m a) true =
  2 ^ 24 * load8 m a + 2 ^ 16 * load8 m (a + 1) + 2 ^ 8 * load8 m (a + 2)
  + load8 m (a + 3).
Proof.
  rewrite mo_swap_uint32_bytes. unfold load32.
  pose proof (load8_range m a). pose proof (load8_range m (a + 1)).
  pose proof (load8_range m (a + 2)). pose proof (load8_range m (a + 3)).
  generalize dependent (load8 m a). generalize dependent (load8 m (a + 1)).
  generalize dependent (load8 m (a + 2)). generalize dependent (load8 m (a + 3)).
  intros. Z.div_mod_to_equations. lia.
Qed.

(** ** The string hash *)

(** djb2 as a fold: [hash * 33 + c] from 5381, over unbounded integers. *)
Definition djb2 (bs : list Z) : Z := fold_left (fun h b => 33 * h + b) bs 5381.

Lemma hash_loop_fold m k : forall q h,
  hash_loop m q k (u32 h) = u32 (fold_left (fun h b => 33 * h + b) (bytes_n m q k) h).
Proof.
  induction k as [|k IH]; intros q h; cbn [hash_loop bytes_n fold_left].
  - reflexivity.
  - rewrite <- IH. f_equal.
    rewrite Z.shiftl_mul_pow2 by lia. unfold u32.
    generalize (load8 m q). intros b. Z.div_mod_to_equations. lia.
Qed.

(** X3.  [mo_hash_string] is djb2 reduced to 32 bits: the hash of [len]
    bytes is the value of the recurrence [h <- 33 * h + byte], started at
    5381 and computed without overflow, taken modulo 2^32; so it depends on
    the bytes alone, not on where they are stored. *)
Theorem mo_hash_string_djb2 m str len :
  mo_hash_string m str len = u32 (djb2 (bytes m str len)) /\
  forall m' str',
    bytes m' str' len = bytes m str len ->
    mo_hash_string m' str' len = mo_hash_string m str len.
Proof.
  assert (H : forall m0 p, mo_hash_string m0 p len = u32 (djb2 (bytes m0 p len))).
  { intros m0 p. unfold mo_hash_string, djb2, bytes.
    rewrite <- (hash_loop_fold m0). by rewrite u32_small by lia. }
  split; [apply H|]. intros m' str' E. by rewrite !H, E.
Qed.

(** ** Table sizes *)

(** X4.  [mo_next_power_of_two] on a 32-bit argument: between 1 and 2^31
    it returns the smallest power of two that is not below the argument
    (the argument itself when that is a power of two); for 0 and above 2^31
    the 32-bit arithmetic wraps and it returns 0. *)
Theorem mo_next_power_of_two_cases n :
  0 <= n < 2 ^ 32 ->
  (1 <= n <= 2 ^ 31 ->
   smallest_pow2_ge n (mo_next_power_of_two n) /\
   (is_pow2 n -> mo_next_power_of_two n = n)) /\
  (n = 0 \/ 2 ^ 31 < n -> mo_next_power_of_two n = 0).
Proof.
  intros Hn. split.
  - intros H1. destruct (mo_next_power_of_two_spec n H1) as [Hs _].
    split; [exact Hs|]. intros Hp.
    destruct Hs as (_ & Hge & Hmin). specialize (Hmin n Hp ltac:(lia)). lia.
  - intros H0. apply mo_next_power_of_two_zero; lia.
Qed.

Lemma mo_next_power_of_two_cases_witness :
  (1 <= 5 <= 2 ^ 31 ->
   smallest_pow2_ge 5 (mo_next_power_of_two 5) /\
   (is_pow2 5 -> mo_next_power_of_two 5 = 5)) /\
  (5 = 0 \/ 2 ^ 31 < 5 -> mo_next_power_of_two 5 = 0).
Proof. apply (mo_next_power_of_two_cases 5). lia. Defined.

(** ** The comparison function of the binary build *)

(** X5.  [mo_compare_pairs] is a comparison function fit for [qsort]: it
    orders by length first and by bytes among equal lengths; it is zero
    exactly on pairs whose originals have the same length and bytes, its
    sign flips when the arguments are exchanged, and it is transitive. *)
Theorem mo_compare_pairs_order m :
  (forall a b, mo_compare_pairs m a b = 0 <->
     original_len a = original_len b /\
     bytes m (original a) (original_len a) = bytes m (original b) (original_len a)) /\
  (forall a b, original_len a < original_len b -> mo_compare_pairs m a b < 0) /\
  (forall a b, mo_compare_pairs m a b < 0 <-> 0 < mo_compare_pairs m b a) /\
  (forall a b c, mo_compare_pairs m a b <= 0 -> mo_compare_pairs m b c <= 0 ->
     mo_compare_pairs m a c <= 0).
Proof.
  split; [|split; [|split]].
  - intros a b. rewrite mo_compare_pairs_key. apply key_cmp_eq.
  - intros a b Hlt. unfold mo_compare_pairs.
    destruct (Z.ltb_spec (original_len a) (original_len b)); lia.
  - intros a b. rewrite !mo_compare_pairs_key.
    rewrite (key_cmp_antisym m (original a)). lia.
  - intros a b c. rewrite !mo_compare_pairs_key. intros H1 H2.
    by destruct (key_cmp_trans _ _ _ _ _ _ _ H1 H2).
Qed.

(** ** What the three searches return *)

(** The number of entries a linear search looks at: up to and including
    the first match, or all of them. *)
Definition examined (m : memory) (prs : list mo_string_pair_t) (str : ptr)
    (len : Z) : nat :=
  match find_pair m prs str len with
  | Some (i, _) => S i
  | None => length prs
  end.

Lemma iter_inc_comparisons cfg (k : nat) st :
  Nat.iter k (inc_comparisons cfg) (inc_comparisons cfg st)
  = Nat.iter (S k) (inc_comparisons cfg) st.
Proof. symmetry. apply Nat.iter_succ_r. Qed.

Lemma linear_loop_run cfg m prs str len :
  forall l2 l1 st,
    prs = l1 ++ l2 ->
    linear_loop cfg m prs str len (length l2) (Z.of_nat (length l1)) st =
    Some (Nat.iter
            (match list_find (fun pr => matchb m str len pr = true) l2 with
             | Some (j, _) => S j
             | None => length l2
             end) (inc_comparisons cfg) st,
          match list_find (fun pr => matchb m str len pr = true) l2 with
          | Some (j, _) => Z.of_nat (length l1 + j)
          | None => NOT_FOUND
          end).
Proof.
  induction l2 as [|a l2 IH]; intros l1 st Hprs; [reflexivity|].
  cbn [linear_loop length]. rewrite Nat2Z.id.
  assert (Ha : prs !! length l1 = Some a) by (subst prs; apply list_lookup_middle; done).
  rewrite Ha. cbn [mbind option_bind].
  assert (Hnext : matchb m str len a = false ->
    linear_loop cfg m prs str len (length l2) (Z.of_nat (length l1) + 1)
      (inc_comparisons cfg st) =
    Some (Nat.iter
            (match list_find (fun pr => matchb m str len pr = true) (a :: l2) with
             | Some (j, _) => S j
             | None => length (a :: l2)
             end) (inc_comparisons cfg) st,
          match list_find (fun pr => matchb m str len pr = true) (a :: l2) with
          | Some (j, _) => Z.of_nat (length l1 + j)
          | None => NOT_FOUND
          end)).
  { intros Hno.
    replace (Z.of_nat (length l1) + 1) with (Z.of_nat (length (l1 ++ [a])))
      by (rewrite length_app; cbn [length]; lia).
    rewrite (IH (l1 ++ [a]) (inc_comparisons cfg st))
      by (subst prs; by rewrite <- app_assoc).
    cbn [list_find]. rewrite decide_False by (rewrite Hno; discriminate).
    destruct (list_find _ l2) as [[j y]|]; cbn [fmap option_fmap option_map prod_map fst snd id length].
    - rewrite iter_inc_comparisons. do 2 f_equal.
      rewrite length_app. cbn [length]. lia.
    - by rewrite iter_inc_comparisons. }
  destruct (Z.eqb_spec (original_len a) len) as [El|El]; cbn [negb].
  - destruct (Z.eqb_spec (memcmp m (original a) str len) 0) as [Ec|Ec].
    + cbn [list_find]. rewrite decide_True.
      * change (Nat.iter 1 (inc_comparisons cfg) st) with (inc_comparisons cfg st).
        do 2 f_equal. lia.
      * unfold matchb. rewrite El, Ec, !Z.eqb_refl. done.
    + apply Hnext. unfold matchb.
      rewrite (proj2 (Z.eqb_neq _ _) Ec). apply andb_false_r.
  - apply Hnext. unfold matchb. by rewrite (proj2 (Z.eqb_neq _ _) El).
Qed.

Lemma set_stats_same c : set_stats c (stats c) = c.
Proof. by destruct c. Qed.

(** X6.  [mo_find_string_linear] returns the index of the first entry, in
    array order, whose original has the queried length and bytes, and
    [0xFFFFFFFF] when there is none; nothing but the statistics changes, and
    [comparisons] is incremented once for every entry looked at: the
    entries up to and including the match, or all of them on a miss. *)
Theorem linear_search_first_match cfg m c prs str len :
  pairs c = Some prs -> Z.of_nat (length prs) = num_strings c ->
  mo_find_string_linear cfg m (Some c) str len =
  Some (Some (set_stats c (Nat.iter (examined m prs str len)
                             (inc_comparisons cfg) (stats c))),
        match find_pair m prs str len with
        | Some (i, _) => Z.of_nat i
        | None => NOT_FOUND
        end).
Proof.
  intros Hp Hlen. unfold mo_find_string_linear, examined, find_pair.
  rewrite Hp. destruct (Z.eqb_spec (num_strings c) 0) as [E0|E0].
  - assert (prs = []) as -> by (apply length_zero_iff_nil; lia).
    cbn [list_find length].
    change (Nat.iter 0 (inc_comparisons cfg) (stats c)) with (stats c).
    by rewrite set_stats_same.
  - rewrite <- Hlen, Nat2Z.id.
    pose proof (linear_loop_run cfg m prs str len prs [] (stats c) eq_refl) as Hrun.
    change (Z.of_nat (length (@nil mo_string_pair_t))) with 0 in Hrun.
    rewrite Hrun. cbn [mbind option_bind length]. reflexivity.
Qed.

(** The number of iterations of the binary search: each one halves the
    interval, so an interval of fewer than [2^j] entries takes at most [j]. *)
Lemma binary_loop_iterations cfg m prs str len :
  Z.of_nat (length prs) < 2 ^ 32 ->
  forall (fuel j : nat) left right st st' r,
    0 <= left -> right < Z.of_nat (length prs) -> left <= right + 1 ->
    right - left + 1 < 2 ^ Z.of_nat j ->
    binary_loop cfg m prs str len fuel left right st = Some (st', r) ->
    exists k : nat, (k <= j)%nat /\ st' = Nat.iter k (inc_comparisons cfg) st /\
                    (left <= right -> (1 <= k)%nat).
Proof.
  intros Hn. induction fuel as [|fuel IH];
    intros j left right st st' r Hl Hr Hlr Hw Hrun; [discriminate Hrun|].
  cbn [binary_loop] in Hrun.
  destruct (Z.leb_spec left right) as [Hle|Hgt].
  2:{ injection Hrun as <- <-. exists 0%nat. split; [lia|]. split; [done|lia]. }
  destruct j as [|j]; [cbn in Hw; lia|].
  set (mid := left + (right - left) / 2) in *.
  assert (Hmid : left <= mid <= right).
  { unfold mid. pose proof (Z.div_pos (right - left) 2).
    assert ((right - left) / 2 <= right - left)
      by (apply Z.div_le_upper_bound; lia). lia. }
  assert (Hu : u32 (left + u32 (right - left) / 2) = mid).
  { rewrite (u32_small (right - left)) by lia. apply u32_small. lia. }
  rewrite Hu in Hrun.
  assert (Hpow : 2 ^ Z.of_nat (S j) = 2 * 2 ^ Z.of_nat j).
  { rewrite Nat2Z.inj_succ, Z.pow_succ_r by lia. done. }
  assert (Hhalf1 : right - (mid + 1) + 1 < 2 ^ Z.of_nat j).
  { unfold mid. Z.div_mod_to_equations. lia. }
  assert (Hhalf2 : (mid - 1) - left + 1 < 2 ^ Z.of_nat j).
  { unfold mid. Z.div_mod_to_equations. lia. }
  destruct (prs !! Z.to_nat mid) as [pm|]; [|discriminate Hrun].
  cbn [mbind option_bind] in Hrun.
  set (st1 := inc_comparisons cfg st) in *.
  assert (Hup : forall st2 r2,
    binary_loop cfg m prs str len fuel (u32 (mid + 1)) right st1 = Some (st2, r2) ->
    exists k : nat, (k <= S j)%nat /\ st2 = Nat.iter k (inc_comparisons cfg) st /\
                    (left <= right -> (1 <= k)%nat)).
  { intros st2 r2 H2. rewrite (u32_small (mid + 1)) in H2 by lia.
    destruct (IH j (mid + 1) right st1 st2 r2) as (k & Hk & -> & _); try lia; [done|].
    exists (S k). split; [lia|]. split; [|lia].
    unfold st1. apply iter_inc_comparisons. }
  assert (Hdown : forall st2 r2,
    (if mid =? 0 then Some (st1, NOT_FOUND)
     else binary_loop cfg m prs str len fuel left (u32 (mid - 1)) st1)
    = Some (st2, r2) ->
    exists k : nat, (k <= S j)%nat /\ st2 = Nat.iter k (inc_comparisons cfg) st /\
                    (left <= right -> (1 <= k)%nat)).
  { intros st2 r2 H2. destruct (Z.eqb_spec mid 0) as [E0|E0].
    - injection H2 as <- <-. exists 1%nat. split; [lia|]. split; [done|lia].
    - rewrite (u32_small (mid - 1)) in H2 by lia.
      destruct (IH j left (mid - 1) st1 st2 r2) as (k & Hk & -> & _); try lia; [done|].
      exists (S k). split; [lia|]. split; [|lia].
      unfold st1. apply iter_inc_comparisons. }
  destruct (original_len pm <? len); [by eapply Hup|].
  destruct (original_len pm >? len); [by eapply Hdown|].
  destruct (memcmp m (original pm) str len =? 0).
  { injection Hrun as <- <-. exists 1%nat. split; [lia|]. split; [done|lia]. }
  destruct (memcmp m (original pm) str len <? 0); [by eapply Hup|by eapply Hdown].
Qed.

(** X7.  [mo_find_string_binary] returns: any index it returns holds an
    entry whose original has the queried length and bytes, whether the
    array is ordered or not; on an array ordered by [mo_compare_pairs] it
    returns [0xFFFFFFFF] only when no entry matches. *)
Theorem binary_search_correct cfg m c prs str len :
  pairs c = Some prs -> Z.of_nat (length prs) = num_strings c ->
  num_strings c < 2 ^ 32 ->
  exists st r,
    mo_find_string_binary cfg m (Some c) str len = Some (Some (set_stats c st), r) /\
    (r <> NOT_FOUND ->
     0 <= r < num_strings c /\
     exists p, prs !! Z.to_nat r = Some p /\
       original_len p = len /\ bytes m (original p) len = bytes m str len) /\
    (sorted_pairs m prs -> r = NOT_FOUND ->
     forall (i : nat) p, prs !! i = Some p ->
       ~ (original_len p = len /\ bytes m (original p) len = bytes m str len)).
Proof.
  intros Hp Hlen Hn. unfold mo_find_string_binary. rewrite Hp.
  assert (Hmatch : forall p, matchb m str len p = true <->
            original_len p = len /\ bytes m (original p) len = bytes m str len).
  { intros p. unfold matchb. rewrite andb_true_iff, !Z.eqb_eq, memcmp_eq. done. }
  destruct (Z.eqb_spec (num_strings c) 0) as [E0|E0].
  - exists (stats c), NOT_FOUND. rewrite set_stats_same. split; [done|].
    split; [done|]. intros _ _ i p Hi. apply lookup_lt_Some in Hi. lia.
  - destruct (binary_loop_spec cfg m prs str len (S (Z.to_nat (num_strings c))) ltac:(lia)
                0 (u32 (num_strings c - 1)) (stats c))
      as (st & r & Hrun & Hsound & Hcomplete).
    { lia. } { rewrite u32_small by lia. lia. } { rewrite u32_small by lia. lia. }
    { rewrite u32_small by lia. lia. }
    exists st, r. rewrite Hrun. cbn [mbind option_bind]. split; [done|].
    rewrite u32_small in Hsound, Hcomplete by lia. split.
    + intros Hr. destruct Hsound as [|[Hrange (p & Hrp & Hm)]]; [done|].
      split; [lia|]. exists p. split; [done|]. by apply Hmatch.
    + intros Hs -> i p Hi Hm. apply Hmatch in Hm.
      apply (Hcomplete Hs i p); [|done|done|done].
      apply lookup_lt_Some in Hi. lia.
Qed.

(** X8.  The binary search is logarithmic: on a catalog of [n >= 1]
    entries the loop runs at least once and at most [floor(log2 n) + 1]
    times, and [comparisons] is incremented once per iteration. *)
Theorem binary_search_logarithmic cfg m c prs str len :
  pairs c = Some prs -> Z.of_nat (length prs) = num_strings c ->
  1 <= num_strings c < 2 ^ 32 ->
  exists (k : nat) r,
    mo_find_string_binary cfg m (Some c) str len =
    Some (Some (set_stats c (Nat.iter k (inc_comparisons cfg) (stats c))), r) /\
    1 <= Z.of_nat k <= Z.log2 (num_strings c) + 1.
Proof.
  intros Hp Hlen Hn. unfold mo_find_string_binary. rewrite Hp.
  destruct (Z.eqb_spec (num_strings c) 0) as [E0|E0]; [lia|].
  rewrite u32_small by lia.
  destruct (binary_loop_spec cfg m prs str len (S (Z.to_nat (num_strings c))) ltac:(lia)
              0 (num_strings c - 1) (stats c))
    as (st & r & Hrun & _); [lia|lia|lia|lia|].
  destruct (binary_loop_iterations cfg m prs str len ltac:(lia)
              (S (Z.to_nat (num_strings c)))
              (Z.to_nat (Z.log2 (num_strings c) + 1)) 0 (num_strings c - 1)
              (stats c) st r)
    as (k & Hk & -> & Hone); [lia|lia|lia| |exact Hrun|].
  { pose proof (Z.log2_nonneg (num_strings c)).
    rewrite Z2Nat.id by lia.
    pose proof (Z.log2_spec (num_strings c) ltac:(lia)) as [_ Hlt].
    rewrite <- Z.add_1_r in Hlt. lia. }
  exists k, r. rewrite Hrun. cbn [mbind option_bind]. split; [done|].
  pose proof (Z.log2_nonneg (num_strings c)). specialize (Hone ltac:(lia)). lia.
Qed.

(** X9.  The probing loop of [mo_find_string_hash] always stops: for any
    table of a power-of-two size, whatever its slots hold (even without an
    empty slot) and whatever the hash, it returns within [table_size]
    probes, either [0xFFFFFFFF] or the index of an occupied slot whose hash,
    length and bytes are those of the query; nothing but the statistics
    changes. *)
Theorem hash_search_terminates cfg m c tbl k str len hash :
  hash_table c = Some tbl -> 0 <= k <= 31 ->
  hash_table_size c = 2 ^ k -> hash_table_mask c = 2 ^ k - 1 ->
  Z.of_nat (length tbl) = 2 ^ k -> str <> NULL ->
  exists st r,
    mo_find_string_hash cfg m (Some c) str len hash
    = Some (Some (set_stats c st), r) /\
    (r = NOT_FOUND \/
     (0 <= r < hash_table_size c /\
      exists slot, tbl !! Z.to_nat r = Some slot /\
        s_state slot = MO_HASH_SLOT_OCCUPIED /\ s_hash slot = hash /\
        s_original_len slot = len /\
        bytes m (s_original slot) len = bytes m str len)).
Proof.
  intros Htbl Hk Hsz Hmask Htl Hstr.
  assert (0 < 2 ^ k) by lia.
  unfold mo_find_string_hash. rewrite Htbl.
  destruct (Z.eqb_spec (hash_table_size c) 0) as [E|_]; [lia|].
  destruct (Z.eqb_spec str NULL) as [E|_]; [done|]. cbn [orb].
  rewrite Hmask, land_mask, Hsz by lia.
  set (s := hash mod 2 ^ k).
  assert (Hs : 0 <= s < 2 ^ k) by (apply Z.mod_pos_bound; lia).
  destruct (hash_find_loop_total cfg m c tbl str len hash k s Hk Htl Hmask Hs
              (Z.to_nat (2 ^ k)) 0 (stats c))
    as (st' & r & Hr & Hcase); try lia.
  rewrite Z.add_0_r, (Z.mod_small s) in Hr by lia.
  rewrite Hr. cbn [mbind option_bind]. exists st', r. split; [done|].
  destruct Hcase as [|(Hrange & slot & Hslot & Hsl)]; [by left|right].
  split; [done|]. exists slot. split; [done|].
  unfold slot_hit in Hsl.
  apply andb_true_iff in Hsl as [Hsl Hb].
  apply andb_true_iff in Hsl as [Hsl Hl].
  apply andb_true_iff in Hsl as [Ho Hh].
  apply bool_decide_eq_true in Ho. apply Z.eqb_eq in Hh, Hl, Hb.
  by apply memcmp_eq in Hb.
Qed.

(** ** The table a hash build makes *)

Lemma count_occupied_insert_free tbl (j : nat) s0 s :
  tbl !! j = Some s0 -> s_state s0 <> MO_HASH_SLOT_OCCUPIED ->
  s_state s = MO_HASH_SLOT_OCCUPIED ->
  count_occupied (<[j := s]> tbl) = S (count_occupied tbl).
Proof.
  unfold count_occupied. revert j.
  induction tbl as [|x tbl IH]; intros j Hj Hfree Hs; [done|].
  destruct j as [|j]; cbn [lookup list_lookup] in Hj.
  - injection Hj as ->. cbn [insert list_insert]. rewrite !filter_cons.
    rewrite decide_True by done. rewrite decide_False by done. done.
  - change (<[S j := s]> (x :: tbl)) with (x :: <[j := s]> tbl).
    rewrite !filter_cons.
    specialize (IH j Hj Hfree Hs).
    case_decide; cbn [length]; rewrite IH; done.
Qed.

Lemma build_loop_count m prs k :
  0 <= k <= 31 ->
  forall (kk : nat) i tbl count tbl' count',
    Z.of_nat (length tbl) = 2 ^ k ->
    build_loop m prs (2 ^ k - 1) kk i tbl count = Some (tbl', count') ->
    0 <= count -> count + Z.of_nat kk < 2 ^ 32 ->
    count' = count + Z.of_nat kk /\
    count_occupied tbl' = (count_occupied tbl + kk)%nat /\
    length tbl' = length tbl.
Proof.
  intros Hk. assert (0 < 2 ^ k) by lia.
  induction kk as [|kk IH]; intros i tbl count tbl' count' Hlen Hb Hc Hsum.
  - cbn [build_loop] in Hb. injection Hb as <- <-. split; [lia|]. split; [lia|done].
  - cbn [build_loop] in Hb.
    destruct (prs !! Z.to_nat i) as [pr|]; [|discriminate Hb].
    cbn [mbind option_bind] in Hb. rewrite land_mask in Hb by lia.
    destruct (insert_probe tbl (2 ^ k - 1) (length tbl)
                (mo_hash_string m (original pr) (original_len pr) mod 2 ^ k))
      as [j|] eqn:Hj; [|discriminate Hb].
    cbn [mbind option_bind] in Hb.
    apply (insert_probe_sound tbl k) in Hj
      as (d & Hd & -> & (s0 & Hs0 & Hfree) & _); [|lia|done|].
    2:{ apply Z.mod_pos_bound. lia. }
    apply IH in Hb as (-> & Ho & Hl).
    + rewrite u32_small by lia. split; [lia|].
      rewrite length_insert in Hl. split; [|done].
      rewrite Ho. erewrite count_occupied_insert_free; [lia|exact Hs0|done|done].
    + by rewrite length_insert.
    + pose proof (u32_range (count + 1)). lia.
    + rewrite u32_small by lia. lia.
Qed.

(** X10.  A hash build that succeeds has put every entry of the pair array
    in a slot of its own: the table has [hash_table_size] slots, exactly
    [num_strings] of them occupied, all others empty (none deleted), and
    [hash_table_count] equals [num_strings].  For catalogs of up to 65535
    strings at most three quarters of the slots are occupied. *)
Theorem hash_build_fills m c prs c' :
  pairs c = Some prs -> Z.of_nat (length prs) = num_strings c ->
  num_strings c < 2 ^ 32 ->
  mo_build_hash_table m true (Some c) = Some (true, Some c') ->
  exists tbl,
    hash_table c' = Some tbl /\
    Z.of_nat (length tbl) = hash_table_size c' /\
    hash_table_count c' = num_strings c /\
    Z.of_nat (count_occupied tbl) = num_strings c /\
    (forall (j : nat) s, tbl !! j = Some s ->
       s_state s = MO_HASH_SLOT_EMPTY \/ s_state s = MO_HASH_SLOT_OCCUPIED) /\
    (num_strings c <= 65535 -> 4 * num_strings c <= 3 * hash_table_size c').
Proof.
  intros Hp Hlen Hn Hb.
  destruct (mo_build_hash_table_size m true c prs true c' Hp Hlen Hb eq_refl)
    as (Hsize & _ & _ & Hone).
  destruct (mo_build_hash_table_ok m true c prs (Some c') Hp Hlen Hb)
    as (tbl0 & k & cnt0 & Hc' & Hk & _ & Hinv).
  injection Hc' as Hc'.
  assert (Hsz : hash_table_size c' = 2 ^ k) by (by rewrite Hc').
  unfold mo_build_hash_table in Hb. rewrite Hp in Hb.
  destruct (Z.eqb_spec (num_strings c) 0) as [|_]; [lia|]. cbn [negb] in Hb.
  rewrite <- Hsize, Hsz in Hb.
  assert (0 < 2 ^ k) by lia.
  assert (2 ^ k <= 2 ^ 31) by (apply Z.pow_le_mono_r; lia).
  rewrite (u32_small (2 ^ k - 1)) in Hb by lia.
  destruct (build_loop m prs (2 ^ k - 1) (Z.to_nat (num_strings c)) 0
              (replicate (Z.to_nat (2 ^ k)) zero_slot) 0) as [[tbl cnt]|] eqn:Hloop;
    [|discriminate Hb].
  cbn [mbind option_bind] in Hb. injection Hb as Hb.
  apply (build_loop_count m prs k Hk) in Hloop as (Hcnt & Hocc & Hl);
    [|rewrite length_replicate; lia|lia|lia].
  rewrite count_occupied_replicate, length_replicate in *.
  exists tbl. rewrite <- Hb.
  cbn [set_hash_table hash_table hash_table_size hash_table_count].
  split; [done|]. split; [lia|]. split; [lia|]. split; [lia|]. split.
  - rewrite <- Hb in Hc'. injection Hc' as Htbl _. subst tbl0.
    intros j s Hs. destruct (ti_slots _ _ _ _ _ Hinv j s Hs) as [?|(t & pr & _ & _ & ->)];
      [by left|by right].
  - intros H65. destruct (table_larger (num_strings c) ltac:(lia)) as [Hs _].
    destruct Hs as (_ & Hge & _). rewrite <- Hsz, Hsize.
    assert (4 * num_strings c / 3 * 3 + 3 > 4 * num_strings c)
      by (Z.div_mod_to_equations; lia).
    lia.
Qed.

(** ** What a lookup changes *)

Lemma linear_loop_stats_off cfg m prs str len k :
  enable_stats cfg = false ->
  forall i st st' r,
    linear_loop cfg m prs str len k i st = Some (st', r) -> st' = st.
Proof.
  intros Hs. assert (Hinc : forall st, inc_comparisons cfg st = st)
    by (intros; unfold inc_comparisons; by rewrite Hs).
  induction k as [|k IH]; intros i st st' r H; cbn [linear_loop] in H.
  - by injection H as <- <-.
  - destruct (prs !! Z.to_nat i) as [pr|]; [|discriminate H].
    cbn [mbind option_bind] in H. rewrite Hinc in H.
    destruct (negb (original_len pr =? len)); [by eapply IH|].
    destruct (memcmp m (original pr) str len =? 0); [by injection H as <- <-|].
    by eapply IH.
Qed.

Lemma binary_loop_stats_off cfg m prs str len fuel :
  enable_stats cfg = false ->
  forall left right st st' r,
    binary_loop cfg m prs str len fuel left right st = Some (st', r) -> st' = st.
Proof.
  intros Hs. assert (Hinc : forall st, inc_comparisons cfg st = st)
    by (intros; unfold inc_comparisons; by rewrite Hs).
  induction fuel as [|fuel IH]; intros left right st st' r H;
    cbn [binary_loop] in H; [discriminate H|].
  destruct (left <=? right); [|by injection H as <- <-].
  destruct (prs !! _) as [pr|]; [|discriminate H].
  cbn [mbind option_bind] in H. rewrite Hinc in H.
  destruct (original_len pr <? len); [by eapply IH|].
  destruct (original_len pr >? len).
  { destruct (_ =? 0); [by injection H as <- <-|by eapply IH]. }
  destruct (memcmp m (original pr) str len =? 0); [by injection H as <- <-|].
  destruct (memcmp m (original pr) str len <? 0); [by eapply IH|].
  destruct (_ =? 0); [by injection H as <- <-|by eapply IH].
Qed.

Lemma hash_find_loop_stats_off cfg m c tbl str len hash start fuel :
  enable_stats cfg = false ->
  forall index st st' r,
    hash_find_loop cfg m c tbl str len hash start fuel index st = Some (st', r) ->
    st' = st.
Proof.
  intros Hs. assert (Hinc : forall st, inc_hash_collisions cfg st = st)
    by (intros; unfold inc_hash_collisions; by rewrite Hs).
  induction fuel as [|fuel IH]; intros index st st' r H; [discriminate H|].
  rewrite hash_find_loop_unfold in H.
  destruct (tbl !! Z.to_nat index) as [slot|]; [|discriminate H].
  cbn [mbind option_bind] in H.
  destruct (decide (s_state slot = MO_HASH_SLOT_EMPTY)); [by injection H as <- <-|].
  destruct (slot_hit m str len hash slot); [by injection H as <- <-|].
  cbv zeta in H. rewrite Hinc in H.
  assert (Hst : (if bool_decide (s_state slot = MO_HASH_SLOT_OCCUPIED)
                    && (hash_table_count c <? hash_table_size c)
                 then st else st) = st) by (by destruct (_ && _)).
  rewrite Hst in H.
  destruct (_ =? start); [by injection H as <- <-|by eapply IH].
Qed.

(** Each search returns the context it was given, with new statistics at
    most. *)
Lemma search_frame cfg m c p len ctx' idx :
  search cfg m c p len = Some (ctx', idx) ->
  exists st, ctx' = Some (set_stats c st) /\
             (enable_stats cfg = false -> st = stats c).
Proof.
  assert (Hsame : Some c = Some (set_stats c (stats c))) by (by rewrite set_stats_same).
  unfold search. destruct (method cfg).
  - unfold mo_find_string_linear.
    destruct (pairs c) as [prs|]; [|intros [= <- <-]; eauto].
    destruct (num_strings c =? 0); [intros [= <- <-]; eauto|].
    destruct (linear_loop _ _ _ _ _ _ _ _) as [[st r]|] eqn:Hl;
      cbn [mbind option_bind]; [|discriminate].
    intros [= <- <-]. exists st. split; [done|].
    intros Hs. by eapply linear_loop_stats_off.
  - unfold mo_find_string_binary.
    destruct (pairs c) as [prs|]; [|intros [= <- <-]; eauto].
    destruct (num_strings c =? 0); [intros [= <- <-]; eauto|].
    destruct (binary_loop _ _ _ _ _ _ _ _ _) as [[st r]|] eqn:Hl;
      cbn [mbind option_bind]; [|discriminate].
    intros [= <- <-]. exists st. split; [done|].
    intros Hs. by eapply binary_loop_stats_off.
  - unfold mo_find_string_hash.
    destruct (hash_table c) as [tbl|]; [|intros [= <- <-]; eauto].
    destruct (_ || _); [intros [= <- <-]; eauto|].
    destruct (hash_find_loop _ _ _ _ _ _ _ _ _ _ _) as [[st r]|] eqn:Hl;
      cbn [mbind option_bind]; [|discriminate].
    intros [= <- <-]. exists st. split; [done|].
    intros Hs. by eapply hash_find_loop_stats_off.
Qed.

(** The members of a context that describe the catalog itself. *)
Definition same_catalog (c c' : mo_context) : Prop :=
  data c' = data c /\ size c' = size c /\ pairs c' = pairs c /\
  num_strings c' = num_strings c /\ hash_table c' = hash_table c /\
  hash_table_size c' = hash_table_size c /\
  hash_table_mask c' = hash_table_mask c /\
  hash_table_count c' = hash_table_count c.

(** X11.  A call of [mo_translate_n] on a context returns a context and
    never changes the catalog: data, size, pair array, string count and
    hash table stay as they were.  Of the cache it changes at most the one
    slot the query selects, and without [MO_ENABLE_STATS] it leaves the
    statistics alone. *)
Theorem mo_translate_n_frame cfg m c p len c' r :
  mo_translate_n cfg m (Some c) p len = Some (c', r) ->
  exists c1,
    c' = Some c1 /\ same_catalog c c1 /\
    length (cache c1) = length (cache c) /\
    (forall s : nat, s <> Z.to_nat (cache_slot cfg m p len) ->
       cache c1 !! s = cache c !! s) /\
    (enable_stats cfg = false -> stats c1 = stats c).
Proof.
  intros H.
  assert (Hrefl : same_catalog c c) by (unfold same_catalog; tauto).
  destruct (pairs c) as [prs|] eqn:Hp.
  2:{ unfold mo_translate_n in H. rewrite Hp in H.
      rewrite bool_decide_eq_true_2 in H by done. cbn [orb] in H.
      injection H as <- <-. exists c. tauto. }
  destruct (Z.eqb_spec p NULL) as [->|Hnn].
  { rewrite mo_translate_n_null_original in H. injection H as <- <-.
    exists c. tauto. }
  rewrite mo_translate_n_unfold in H by (split; [congruence|done]).
  cbv zeta in H.
  assert (Hoff : enable_stats cfg = false ->
            inc_total_lookups cfg (stats c) = stats c)
    by (intros Hs; unfold inc_total_lookups; by rewrite Hs).
  destruct (cache_hit cfg m c p len).
  - injection H as <- <-. eexists. split; [done|]. split; [exact Hrefl|].
    split; [done|]. split; [done|].
    intros Hs. cbn [set_stats stats]. unfold inc_cache_hits. rewrite Hs.
    by apply Hoff.
  - destruct (search _ _ _ _ _) as [[ctx' idx]|] eqn:Hsearch;
      cbn [mbind option_bind] in H; [|discriminate H].
    apply search_frame in Hsearch as (st & -> & Hst).
    cbn [mbind option_bind] in H.
    assert (Hst' : enable_stats cfg = false -> st = stats c).
    { intros Hs. rewrite (Hst Hs). cbn [set_stats stats].
      unfold inc_cache_misses. rewrite Hs. by apply Hoff. }
    destruct (idx =? NOT_FOUND).
    + injection H as <- <-. eexists. split; [done|]. split; [exact Hrefl|].
      split; [done|]. split; [done|]. exact Hst'.
    + destruct (translation_at _ _ _) as [res|]; cbn [mbind option_bind] in H;
        [|discriminate H].
      injection H as <- <-. eexists. split; [done|]. split; [exact Hrefl|].
      cbn [set_cache set_stats cache stats].
      split; [by rewrite length_insert|]. split; [|exact Hst'].
      intros s Hs. by rewrite list_lookup_insert_ne.
Qed.

(** The cache slot index is below [MO_CACHE_SIZE]. *)
Lemma cache_slot_range cfg m p len : 0 <= cache_slot cfg m p len < MO_CACHE_SIZE.
Proof.
  unfold cache_slot, MO_CACHE_SIZE. change (64 - 1) with (2 ^ 6 - 1).
  destruct (method cfg); rewrite land_mask by lia; apply Z.mod_pos_bound; lia.
Qed.

(** A call that returned a translation has left it in the cache, under
    the queried pointer. *)
Lemma mo_translate_n_caches cfg m c prs p len c1 r :
  catalog_wf cfg m c prs -> length (cache c) = Z.to_nat MO_CACHE_SIZE ->
  p <> NULL ->
  mo_translate_n cfg m (Some c) p len = Some (Some c1, r) ->
  r <> p -> r <> NULL ->
  catalog_wf cfg m c1 prs /\ length (cache c1) = Z.to_nat MO_CACHE_SIZE /\
  cache_hit cfg m c1 p len = true /\
  c_translation (cache_at c1 (cache_slot cfg m p len)) = r.
Proof.
  intros Hwf Hlen Hp Hcall Hrp Hrn.
  assert (Hg : passes_guard c p).
  { destruct Hwf as (Hp0 & _). split; [congruence|done]. }
  destruct (cache_hit cfg m c p len) eqn:Hhit.
  - destruct (mo_translate_n_hit cfg m c p len Hg Hhit)
      as (c' & Hres & Hc & _ & Hpres).
    rewrite Hcall in Hres. injection Hres as <- Hr.
    split; [exact (proj1 (Hpres prs) Hwf)|]. split; [by rewrite Hc|].
    unfold cache_hit, cache_at in *. rewrite Hc. split; [done|].
    destruct (_ =? NULL); [congruence|done].
  - destruct (mo_translate_n_miss cfg m c prs p len Hwf Hp Hhit)
      as (c' & r' & Hres & Hwf' & _ & _ & Hcase & _).
    rewrite Hcall in Hres. injection Hres as <- <-.
    destruct Hcase as [[-> _]|(i & pr & _ & _ & _ & Hc)]; [done|].
    pose proof (cache_slot_range cfg m p len) as Hslot.
    assert (Hat : cache_at c1 (cache_slot cfg m p len)
                  = cache_entry cfg m c p len r).
    { unfold cache_at. rewrite Hc, list_lookup_insert_eq; [done|].
      rewrite Hlen. unfold MO_CACHE_SIZE in *. lia. }
    split; [done|]. split; [by rewrite Hc, length_insert|].
    split; [|by rewrite Hat].
    unfold cache_hit. rewrite Hat. unfold cache_entry. cbn [c_original c_hash].
    destruct (method cfg); rewrite ?Z.eqb_refl; done.
Qed.

(** X12.  The cache replays a translation: once a call has returned a
    translation (a non-null pointer other than the query), the same call
    again returns the same pointer from the cache, without searching: the
    cache stays as it is and only [total_lookups] and [cache_hits] are
    incremented. *)
Theorem cache_replays_translation cfg m c prs p len c1 r :
  catalog_wf cfg m c prs -> length (cache c) = Z.to_nat MO_CACHE_SIZE ->
  p <> NULL ->
  mo_translate_n cfg m (Some c) p len = Some (Some c1, r) ->
  r <> p -> r <> NULL ->
  exists c2,
    mo_translate_n cfg m (Some c1) p len = Some (Some c2, r) /\
    cache c2 = cache c1 /\
    stats c2 = inc_cache_hits cfg (inc_total_lookups cfg (stats c1)).
Proof.
  intros Hwf Hlen Hp Hcall Hrp Hrn.
  destruct (mo_translate_n_caches cfg m c prs p len c1 r Hwf Hlen Hp Hcall Hrp Hrn)
    as (Hwf1 & _ & Hhit & Htr).
  assert (Hg : passes_guard c1 p).
  { destruct Hwf1 as (Hp0 & _). split; [congruence|done]. }
  destruct (mo_translate_n_hit cfg m c1 p len Hg Hhit)
    as (c2 & Hres & Hc & Hs & _).
  exists c2. rewrite Hres, Htr.
  destruct (Z.eqb_spec r NULL); [done|]. done.
Qed.

(** ** Statistics *)

(** [mo_get_stats]: the returned flag and, when it is [true], the value
    stored through the out-parameter; [stats_ptr] tells whether that
    parameter is non-null. *)
Definition mo_get_stats (cfg : build) (context : option mo_context)
    (stats_ptr : bool) : bool * option mo_stats_t :=
  if enable_stats cfg then
    match context with
    | Some c => if stats_ptr then (true, Some (stats c)) else (false, None)
    | None => (false, None)
    end
  else (false, None).

(** The queries of a sequence that pass the argument check. *)
Definition counted (qs : list (ptr * Z)) : nat :=
  length (filter (fun q => q.1 <> NULL) qs).

(** X13.  In a statistics build [mo_get_stats] reports, after any sequence
    of lookups, a [total_lookups] that has grown (modulo 2^32) by the number
    of queries with a non-null original, and it equals
    [cache_hits + cache_misses] if it did before; every query of the
    sequence returns a pointer.  Without [MO_ENABLE_STATS], or with a null
    argument, [mo_get_stats] returns [false] and stores nothing. *)
Theorem stats_count_lookups cfg m c prs qs :
  catalog_wf cfg m c prs -> 0 <= total_lookups (stats c) < 2 ^ 32 ->
  (enable_stats cfg = true ->
   exists c' rs st,
     run_queries cfg m (Some c) qs = Some (Some c', rs) /\
     length rs = length qs /\
     mo_get_stats cfg (Some c') true = (true, Some st) /\
     total_lookups st = u32 (total_lookups (stats c) + Z.of_nat (counted qs)) /\
     (stats_inv (stats c) -> stats_inv st)) /\
  (forall ctx ptr_ok,
     enable_stats cfg = false \/ ctx = None \/ ptr_ok = false ->
     mo_get_stats cfg ctx ptr_ok = (false, None)).
Proof.
  intros Hwf Hrange. split.
  - intros Hst. unfold mo_get_stats. rewrite Hst.
    assert (Hgen : forall c0, catalog_wf cfg m c0 prs ->
      0 <= total_lookups (stats c0) < 2 ^ 32 ->
      exists c' rs,
        run_queries cfg m (Some c0) qs = Some (Some c', rs) /\
        length rs = length qs /\
        total_lookups (stats c') =
          u32 (total_lookups (stats c0) + Z.of_nat (counted qs)) /\
        (stats_inv (stats c0) -> stats_inv (stats c'))).
    { clear c Hwf Hrange. induction qs as [|[p len] qs IH]; intros c Hwf Hrange.
      - exists c, []. unfold counted. rewrite filter_nil. cbn [length run_queries].
        rewrite Z.add_0_r, u32_small by lia. done.
      - cbn [run_queries]. unfold counted. rewrite filter_cons. cbn [fst].
        destruct (Z.eqb_spec p NULL) as [->|Hp].
        + rewrite mo_translate_n_null_original. cbn [mbind option_bind].
          destruct (IH c Hwf Hrange) as (c' & rs & Hrun & Hl & Ht & Hinv).
          rewrite Hrun. cbn [mbind option_bind].
          rewrite decide_False by (intros H; by apply H).
          fold (counted qs).
          exists c', (NULL :: rs). cbn [length]. split; [done|]. split; [lia|done].
        + destruct (mo_translate_n_counts cfg m c prs p len Hst Hwf Hp)
            as (c1 & r & Hres & Hwf1 & Ht1 & Hcase).
          rewrite Hres. cbn [mbind option_bind].
          destruct (IH c1 Hwf1) as (c' & rs & Hrun & Hl & Ht & Hinv).
          { rewrite Ht1. apply u32_range. }
          rewrite Hrun. cbn [mbind option_bind].
          rewrite decide_True by done. cbn [length]. fold (counted qs).
          exists c', (r :: rs). cbn [length]. split; [done|]. split; [lia|].
          split.
          { rewrite Ht, Ht1. unfold u32. rewrite Zplus_mod_idemp_l. f_equal. lia. }
          intros Hi. apply Hinv. unfold stats_inv in *. rewrite Ht1, Hi.
          destruct Hcase as [[-> ->]|[-> ->]].
          * rewrite u32_succ_l. unfold u32. by rewrite Zplus_mod_idemp_l.
          * rewrite u32_succ_r. unfold u32. by rewrite Zplus_mod_idemp_l. }
    destruct (Hgen c Hwf Hrange) as (c' & rs & Hrun & Hl & Ht & Hinv).
    exists c', rs, (stats c'). done.
  - intros ctx ptr_ok [Hs|[-> | ->]]; unfold mo_get_stats.
    + by rewrite Hs.
    + by destruct (enable_stats cfg).
    + destruct (enable_stats cfg); [|done]. by destruct ctx.
Qed.

(** ** What the loader builds *)

Section LoaderResults.

Variable qsort : (mo_string_pair_t -> mo_string_pair_t -> Z) ->
                 list mo_string_pair_t -> list mo_string_pair_t.

(** The contract of [qsort], as before. *)
Hypothesis qsort_perm : forall cmp l, qsort cmp l ≡ₚ l.
Hypothesis qsort_sorted : forall (cmp : mo_string_pair_t -> mo_string_pair_t -> Z) l,
  (forall a b, cmp a b <= 0 \/ cmp b a <= 0) ->
  (forall a b c, cmp a b <= 0 -> cmp b c <= 0 -> cmp a c <= 0) ->
  forall (i j : nat) p q,
    qsort cmp l !! i = Some p -> qsort cmp l !! j = Some q -> (i < j)%nat ->
    cmp p q <= 0.

(** X14.  The pair array of a loaded catalog: it has as many entries as
    the header declares (the number [mo_get_string_count] returns), each
    pointing into the catalog's copy at the offsets the file gives.  A
    linear or hash build keeps the entries in file order; a binary build
    holds a permutation of them, ordered by [mo_compare_pairs]. *)
Theorem loaded_pair_array cfg al m src size o :
  mo_context_create_from_memory qsort cfg al m src size true = Some o ->
  err o = MO_SUCCESS ->
  well_laid_out m src size ->
  exists c prs,
    ctx_out o = Some c /\ pairs c = Some prs /\
    mo_get_string_count (ctx_out o) = file_num_strings m src /\
    Z.of_nat (length prs) = file_num_strings m src /\
    prs ≡ₚ file_pairs (malloc_data al) m src /\
    (method cfg <> BINARY -> prs = file_pairs (malloc_data al) m src) /\
    (method cfg = BINARY -> sorted_pairs (mem_out o) prs).
Proof.
  intros Hc Herr Hlay.
  destruct (create_success _ _ _ _ _ _ _ _ Hc Herr)
    as (Hsrc & Hsz & Hbuf & Hmem & HOn & HTn & c & prs0 & Hctx & Hdata & Hnum
        & Hloop & Hpairs & _).
  apply pairs_loop_file in Hloop; [|done..]. subst prs0.
  pose proof (file_u32_range m src 8) as Hn. fold (file_num_strings m src) in Hn.
  set (fp := file_pairs (malloc_data al) m src) in *.
  assert (Hfplen : Z.of_nat (length fp) = file_num_strings m src).
  { unfold fp, file_pairs. rewrite length_fmap, length_seqZ. lia. }
  eexists c, _. split; [done|]. split; [exact Hpairs|].
  split; [by rewrite Hctx|].
  rewrite Hmem.
  destruct (method cfg) eqn:Hm.
  - split; [done|]. split; [done|]. split; [done|]. discriminate.
  - split; [by rewrite qsort_perm|]. split; [apply qsort_perm|].
    split; [done|]. intros _ i j p q Hp Hq Hij.
    eapply (qsort_sorted _ fp); eauto.
    + apply mo_compare_pairs_total.
    + apply mo_compare_pairs_trans.
  - split; [done|]. split; [done|]. split; [done|]. discriminate.
Qed.

(** A failed load leaves no trace in the model's memory. *)
Lemma create_failure_memory cfg al m src size cp o :
  mo_context_create_from_memory qsort cfg al m src size cp = Some o ->
  err o <> MO_SUCCESS -> mem_out o = m.
Proof.
  unfold mo_context_create_from_memory, failed.
  destruct (_ || _); [by intros [= <-]|].
  destruct (negb _); [by intros [= <-]|].
  destruct (_ =? NULL); [by intros [= <-]|]. cbv zeta.
  destruct (negb _); [by intros [= <-]|].
  destruct (_ || _); [by intros [= <-]|].
  destruct (negb _); [by intros [= <-]|].
  destruct (pairs_loop _ _ _ _ _ _ _ _); [|by intros [= <-]].
  destruct (method cfg).
  - intros [= <-]. done.
  - intros [= <-]. done.
  - destruct (mo_build_hash_table _ _ _) as [[[|] c']|]; cbn [mbind option_bind].
    + intros [= <-]. done.
    + by intros [= <-].
    + discriminate.
Qed.

(** X15.  The loader works on a private copy: whatever the outcome, every
    byte outside the block [malloc] returned is as before, the caller's
    buffer included when it does not overlap that block.  After a
    successful load the copy holds the file's bytes (the magic and
    everything past the header unchanged) and its header fields are in host
    byte order. *)
Theorem loader_memory_effect cfg al m src size cp o :
  mo_context_create_from_memory qsort cfg al m src size cp = Some o ->
  (forall a, a < malloc_data al \/ malloc_data al + size <= a ->
     load8 (mem_out o) a = load8 m a) /\
  (err o = MO_SUCCESS ->
   (forall x, 0 <= x < size -> x < 4 \/ 28 <= x ->
      load8 (mem_out o) (malloc_data al + x) = load8 m (src + x)) /\
   (forall f, f = 4 \/ f = 8 \/ f = 12 \/ f = 16 \/ f = 20 \/ f = 24 ->
      load32 (mem_out o) (malloc_data al + f) = file_u32 m src f)).
Proof.
  intros Hc. destruct (decide (err o = MO_SUCCESS)) as [Herr|Herr].
  - destruct (create_success _ _ _ _ _ _ _ _ Hc Herr)
      as (Hsrc & Hsz & Hbuf & Hmem & _).
    rewrite Hmem. split; [|intros _; split].
    + intros a Ha. by apply loaded_outside.
    + intros x Hx Hcase. apply loaded_byte; [done|done|tauto].
    + intros f Hf. by apply loaded_field.
  - split; [|done]. intros a _.
    by rewrite (create_failure_memory _ _ _ _ _ _ _ Hc Herr).
Qed.

End LoaderResults.

(** ** Which files the loader accepts *)




Section LoaderAcceptance.

Variable qsort : (mo_string_pair_t -> mo_string_pair_t -> Z) ->
                 list mo_string_pair_t -> list mo_string_pair_t.

Hypothesis qsort_perm : forall cmp l, qsort cmp l ≡ₚ l.

(** With valid arguments, successful allocations, a known magic and both
    tables inside the buffer, the loader reaches its descriptor loop. *)
Lemma create_reaches_loop cfg al m src size :
  src <> NULL -> 28 <= size ->
  calloc_ctx al = true -> malloc_data al <> NULL -> calloc_pairs al = true ->
  load32 m src = MO_MAGIC \/ load32 m src = MO_MAGIC_REV ->
  file_orig_table m src + 8 * file_num_strings m src <= size ->
  file_trans_table m src + 8 * file_num_strings m src <= size ->
  mo_context_create_from_memory qsort cfg al m src size true =
  match pairs_loop (loaded m (malloc_data al) src size) (malloc_data al) size
          (file_swap m src) (malloc_data al + file_orig_table m src)
          (malloc_data al + file_trans_table m src)
          (Z.to_nat (file_num_strings m src)) 0 with
  | None => failed MO_ERROR_INVALID_FORMAT m
  | Some prs =>
      let c :=
        {| data := malloc_data al; size := size;
           pairs := Some (match method cfg with
                          | BINARY => qsort (mo_compare_pairs
                                               (loaded m (malloc_data al) src size)) prs
                          | _ => prs
                          end);
           num_strings := file_num_strings m src; hash_table := None;
           hash_table_size := 0; hash_table_mask := 0; hash_table_count := 0;
           cache := replicate (Z.to_nat MO_CACHE_SIZE) zero_cache_item;
           stats := zero_stats |} in
      match method cfg with
      | HASH =>
          '(ok, c') ← mo_build_hash_table (loaded m (malloc_data al) src size)
                        (calloc_hash al) (Some c);
          if (ok : bool) then
            Some {| err := MO_SUCCESS; ctx_out := c';
                    mem_out := loaded m (malloc_data al) src size |}
          else failed MO_ERROR_MEMORY m
      | _ => Some {| err := MO_SUCCESS; ctx_out := Some c;
                     mem_out := loaded m (malloc_data al) src size |}
      end
  end.
Proof.
  intros Hsrc Hsz Hc Hbuf Hp Hmagic HOn HTn.
  unfold mo_context_create_from_memory, sizeof_mo_header_t,
    sizeof_mo_string_entry_t.
  destruct (Z.eqb_spec src NULL) as [|_]; [done|].
  destruct (Z.ltb_spec size 28) as [|_]; [lia|]. cbn [orb negb].
  rewrite Hc, Hp. cbn [negb].
  destruct (Z.eqb_spec (malloc_data al) NULL) as [|_]; [done|]. cbv zeta.
  replace (load32 (memcpy m (malloc_data al) src size) (malloc_data al))
    with (load32 m src).
  2:{ rewrite <- (Z.add_0_r (malloc_data al)) at 2.
      rewrite memcpy_load32 by lia. by rewrite Z.add_0_r. }
  assert (Hm : (load32 m src =? MO_MAGIC) || (load32 m src =? MO_MAGIC_REV) = true).
  { destruct Hmagic as [-> | ->]; [done|]. by rewrite orb_true_r. }
  rewrite Hm. cbn [negb].
  fold (file_swap m src). fold (loaded m (malloc_data al) src size).
  rewrite !(loaded_field m (malloc_data al) src size) by (auto; lia).
  fold (file_num_strings m src) (file_orig_table m src)
    (file_trans_table m src).
  pose proof (file_u32_range m src 8) as Hn.
  pose proof (file_u32_range m src 12) as HO.
  pose proof (file_u32_range m src 16) as HT.
  fold (file_num_strings m src) in Hn. fold (file_orig_table m src) in HO.
  fold (file_trans_table m src) in HT.
  rewrite (u64_small (file_num_strings m src * 8)) by lia.
  rewrite !u64_small by lia.
  destruct (Z.gtb_spec (file_orig_table m src + file_num_strings m src * 8) size);
    [lia|].
  destruct (Z.gtb_spec (file_trans_table m src + file_num_strings m src * 8) size);
    [lia|].
  cbn [orb]. reflexivity.
Qed.


(** X17.  A file that declares no string: a linear or binary build loads
    it, [mo_get_string_count] is 0 and every lookup returns the pointer it
    was given; a hash build, whose table build refuses an empty pair array,
    rejects the same file with [MO_ERROR_MEMORY]. *)
Theorem empty_catalog cfg al m src size :
  src <> NULL -> 28 <= size ->
  calloc_ctx al = true -> malloc_data al <> NULL -> calloc_pairs al = true ->
  load32 m src = MO_MAGIC \/ load32 m src = MO_MAGIC_REV ->
  file_num_strings m src = 0 ->
  file_orig_table m src <= size -> file_trans_table m src <= size ->
  exists o,
    mo_context_create_from_memory qsort cfg al m src size true = Some o /\
    (method cfg = HASH -> err o = MO_ERROR_MEMORY /\ ctx_out o = None) /\
    (method cfg <> HASH ->
     err o = MO_SUCCESS /\ mo_get_string_count (ctx_out o) = 0 /\
     forall p len, exists c',
       mo_translate_n cfg (mem_out o) (ctx_out o) p len = Some (c', p)).
Proof.
  intros Hsrc Hsz Hc Hbuf Hp Hmagic Hn HO HT.
  rewrite create_reaches_loop by (try done; lia).
  rewrite Hn. change (Z.to_nat 0) with 0%nat. cbn [pairs_loop]. cbv zeta.
  set (m1 := loaded m (malloc_data al) src size).
  assert (Hq : qsort (mo_compare_pairs m1) [] = []).
  { apply Permutation_nil_r. apply qsort_perm. }
  assert (Hprs : match method cfg with
                 | BINARY => qsort (mo_compare_pairs m1) []
                 | _ => []
                 end = []) by (by destruct (method cfg)).
  rewrite Hprs.
  set (c := {| data := malloc_data al; size := size; pairs := Some [];
               num_strings := 0; hash_table := None; hash_table_size := 0;
               hash_table_mask := 0; hash_table_count := 0;
               cache := replicate (Z.to_nat MO_CACHE_SIZE) zero_cache_item;
               stats := zero_stats |}).
  assert (Hlook : method cfg <> HASH -> forall p len, exists c',
            mo_translate_n cfg m1 (Some c) p len = Some (c', p)).
  { intros Hm p len. destruct (Z.eqb_spec p NULL) as [->|Hnn].
    - rewrite mo_translate_n_null_original. eauto.
    - assert (Hwf : catalog_wf cfg m1 c []).
      { split; [done|]. split; [done|]. split; [done|]. split; [|done].
        intros i pr Hi. by rewrite lookup_nil in Hi. }
      destruct (mo_translate_n_miss cfg m1 c [] p len Hwf Hnn)
        as (c' & r & Hres & _ & _ & _ & Hcase & _).
      { by apply cache_hit_zero. }
      destruct Hcase as [[-> _]|(i & pr & Hi & _)]; [eauto|].
      by rewrite lookup_nil in Hi. }
  destruct (method cfg) eqn:Hm.
  - eexists. split; [reflexivity|]. split; [done|]. intros _.
    cbn [err ctx_out mem_out mo_get_string_count num_strings].
    split; [done|]. split; [done|]. by apply Hlook.
  - eexists. split; [reflexivity|]. split; [done|]. intros _.
    cbn [err ctx_out mem_out mo_get_string_count num_strings].
    split; [done|]. split; [done|]. by apply Hlook.
  - unfold mo_build_hash_table. cbn [pairs num_strings c]. cbn [mbind option_bind].
    eexists. split; [reflexivity|]. split; [done|]. done.
Qed.

End LoaderAcceptance.

(** ** Reading a string through a descriptor table *)

(** [mo_get_string(ctx, table, index)].  The header the function consults
    is the one the loader points [ctx->header] at, the start of
    [ctx->data]; [table] is the address of a descriptor table. *)
Definition mo_get_string (m : memory) (ctx : option mo_context) (table : ptr)
    (index : Z) : ptr :=
  match ctx with
  | None => NULL
  | Some c =>
      if (table =? NULL) || (index >=? num_strings c) then NULL
      else
        let need_swap := load32 m (data c) =? MO_MAGIC_REV in
        let offset := mo_swap_uint32 (load32 m (table + 8 * index + 4)) need_swap in
        if offset >=? size c then NULL else data c + offset
  end.

Section GetString.

Variable qsort : (mo_string_pair_t -> mo_string_pair_t -> Z) ->
                 list mo_string_pair_t -> list mo_string_pair_t.

(** A load succeeds only on one of the two magic numbers. *)
Lemma create_success_magic cfg al m src size cp o :
  mo_context_create_from_memory qsort cfg al m src size cp = Some o ->
  err o = MO_SUCCESS ->
  load32 m src = MO_MAGIC \/ load32 m src = MO_MAGIC_REV.
Proof.
  unfold mo_context_create_from_memory, failed, sizeof_mo_header_t.
  destruct (Z.eqb_spec src NULL) as [|Hsrc]; cbn [orb]; [by intros [= <-]|].
  destruct (Z.ltb_spec size 28) as [|Hsz]; cbn [orb]; [by intros [= <-]|].
  destruct (negb cp); [by intros [= <-]|].
  destruct (negb _); [by intros [= <-]|].
  destruct (Z.eqb_spec (malloc_data al) NULL) as [|Hbuf]; [by intros [= <-]|].
  cbv zeta.
  replace (load32 (memcpy m (malloc_data al) src size) (malloc_data al))
    with (load32 m src).
  2:{ rewrite <- (Z.add_0_r (malloc_data al)) at 2.
      rewrite memcpy_load32 by lia. by rewrite Z.add_0_r. }
  destruct ((load32 m src =? MO_MAGIC) || (load32 m src =? MO_MAGIC_REV)) eqn:Hm;
    cbn [negb]; [|by intros [= <-]].
  intros _ _. apply orb_true_iff in Hm as [E|E]; apply Z.eqb_eq in E; tauto.
Qed.

Lemma mo_build_hash_table_size_kept m ch c r c' :
  mo_build_hash_table m ch (Some c) = Some (r, Some c') -> size c' = size c.
Proof.
  unfold mo_build_hash_table.
  destruct (pairs c) as [prs|]; [|by intros [= <- <-]].
  destruct (num_strings c =? 0); [by intros [= <- <-]|].
  destruct ch; cbn [negb]; [|by intros [= <- <-]].
  destruct (build_loop _ _ _ _ _ _ _) as [[tbl count]|];
    cbn [mbind option_bind]; [by intros [= <- <-]|discriminate].
Qed.

(** The context of a successful load records the size it was given. *)
Lemma create_success_size cfg al m src sz cp o c :
  mo_context_create_from_memory qsort cfg al m src sz cp = Some o ->
  ctx_out o = Some c -> size c = sz.
Proof.
  unfold mo_context_create_from_memory, failed.
  destruct (_ || _); [intros [= <-]; discriminate|].
  destruct (negb _); [intros [= <-]; discriminate|].
  destruct (_ =? NULL); [intros [= <-]; discriminate|]. cbv zeta.
  destruct (negb _); [intros [= <-]; discriminate|].
  destruct (_ || _); [intros [= <-]; discriminate|].
  destruct (negb _); [intros [= <-]; discriminate|].
  destruct (pairs_loop _ _ _ _ _ _ _ _); [|intros [= <-]; discriminate].
  destruct (method cfg).
  - intros [= <-]. cbn [ctx_out]. by intros [= <-].
  - intros [= <-]. cbn [ctx_out]. by intros [= <-].
  - destruct (mo_build_hash_table _ _ _) as [[r c']|] eqn:Hb;
      cbn [mbind option_bind]; [|discriminate].
    destruct r; [|intros [= <-]; discriminate].
    intros [= <-]. cbn [ctx_out]. intros ->.
    by apply mo_build_hash_table_size_kept in Hb.
Qed.

(** X18.  [mo_get_string] agrees with the loader: on a loaded catalog,
    for every index below the string count, reading the original table
    gives the address of that original inside the catalog's copy and
    reading the translation table gives the address of its translation, in
    either byte order of the file; an index at or past the string count, or
    a null table, gives [NULL]. *)
Theorem mo_get_string_loaded cfg al m src fsize o :
  mo_context_create_from_memory qsort cfg al m src fsize true = Some o ->
  err o = MO_SUCCESS ->
  well_laid_out m src fsize -> 0 < malloc_data al ->
  (forall i, 0 <= i < file_num_strings m src ->
     mo_get_string (mem_out o) (ctx_out o)
       (malloc_data al + file_orig_table m src) i
     = malloc_data al + file_orig_offset m src i /\
     mo_get_string (mem_out o) (ctx_out o)
       (malloc_data al + file_trans_table m src) i
     = malloc_data al + file_trans_offset m src i) /\
  (forall table i, table = NULL \/ file_num_strings m src <= i ->
     mo_get_string (mem_out o) (ctx_out o) table i = NULL).
Proof.
  intros Hc Herr Hlay Hpos.
  pose proof (create_success_magic _ _ _ _ _ _ _ Hc Herr) as Hmagic.
  destruct (create_success _ _ _ _ _ _ _ _ Hc Herr)
    as (Hsrc & Hsz & Hbuf & Hmem & HOn & HTn & c & prs0 & Hctx & Hdata & Hnum
        & _ & _ & _ & _ & _).
  pose proof (create_success_size _ _ _ _ _ _ _ _ Hc Hctx) as Hsize.
  rewrite Hctx, Hmem. unfold mo_get_string. rewrite Hdata, Hnum, Hsize.
  set (buf := malloc_data al) in *.
  destruct Hlay as (HO & HT & Hstr).
  pose proof (file_u32_range m src 8) as Hn. fold (file_num_strings m src) in Hn.
  assert (Hmag : load32 (loaded m buf src fsize) buf = load32 m src).
  { apply load32_ext. intros k Hk. apply loaded_byte; [done|lia|lia]. }
  assert (Hswap : (load32 (loaded m buf src fsize) buf =? MO_MAGIC_REV)
                  = file_swap m src).
  { rewrite Hmag. unfold file_swap.
    destruct Hmagic as [-> | ->]; done. }
  split.
  - intros i Hi. destruct (Hstr i Hi) as (Ho1 & Ho2 & Ht1 & Ht2).
    pose proof (file_u32_range m src (file_orig_table m src + 8 * i)) as Hl1.
    pose proof (file_u32_range m src (file_trans_table m src + 8 * i)) as Hl2.
    fold (file_orig_len m src i) in Hl1. fold (file_trans_len m src i) in Hl2.
    destruct (Z.eqb_spec (buf + file_orig_table m src) NULL) as [E|_];
      [unfold NULL in E; lia|].
    destruct (Z.eqb_spec (buf + file_trans_table m src) NULL) as [E|_];
      [unfold NULL in E; lia|].
    destruct (Z.geb_spec i (file_num_strings m src)); [lia|]. cbn [orb]. cbv zeta.
    rewrite Hswap.
    rewrite <- !Z.add_assoc. rewrite !loaded_load32 by lia.
    rewrite !Z.add_assoc.
    assert (Eo : mo_swap_uint32 (load32 m (src + file_orig_table m src + 8 * i + 4))
                   (file_swap m src) = file_orig_offset m src i)
      by (unfold file_orig_offset, file_u32; by rewrite !Z.add_assoc).
    assert (Et : mo_swap_uint32 (load32 m (src + file_trans_table m src + 8 * i + 4))
                   (file_swap m src) = file_trans_offset m src i)
      by (unfold file_trans_offset, file_u32; by rewrite !Z.add_assoc).
    rewrite Eo, Et.
    destruct (Z.geb_spec (file_orig_offset m src i) fsize); [lia|].
    destruct (Z.geb_spec (file_trans_offset m src i) fsize); [lia|]. done.
  - intros table i [-> | Hi]; [done|].
    destruct (Z.geb_spec i (file_num_strings m src)); [|lia].
    by rewrite orb_true_r.
Qed.

End GetString.

(** ** Loading from a file *)




Section FileLoader.

Variable qsort : (mo_string_pair_t -> mo_string_pair_t -> Z) ->
                 list mo_string_pair_t -> list mo_string_pair_t.





End FileLoader.

(** ** The key buffer of [mo_translate_cp] *)

Lemma load8_store_bytes_out bs : forall m p x,
  x < p \/ p + Z.of_nat (length bs) <= x ->
  load8 (store_bytes m p bs) x = load8 m x.
Proof.
  induction bs as [|b bs IH]; intros m p x Hx; [done|].
  cbn [store_bytes length] in *. rewrite IH by lia.
  rewrite load8_store8. destruct (Z.eqb_spec x p); [lia|done].
Qed.

Lemma load8_store_bytes_in bs : forall m p (i : nat) b,
  bs !! i = Some b -> load8 (store_bytes m p bs) (p + Z.of_nat i) = b mod 256.
Proof.
  induction bs as [|b0 bs IH]; intros m p i b Hi; [done|].
  cbn [store_bytes]. destruct i as [|i]; cbn [lookup list_lookup] in Hi.
  - injection Hi as ->. rewrite load8_store_bytes_out by lia.
    rewrite load8_store8. replace (p + Z.of_nat 0) with p by lia.
    by rewrite Z.eqb_refl.
  - replace (p + Z.of_nat (S i)) with (p + 1 + Z.of_nat i) by lia.
    by apply IH.
Qed.

(** A string copied by [snprintf] reads back as it was. *)
Lemma bytes_snprintf m key n s len :
  0 <= len < n -> n <= INT_MAX ->
  bytes (snprintf m key n (bytes m s len)).1 key len = bytes m s len /\
  (snprintf m key n (bytes m s len)).2 = len.
Proof.
  intros Hlen Hmax. unfold snprintf, bytes. cbn [fst snd].
  rewrite bytes_n_length.
  rewrite take_ge by (rewrite bytes_n_length; lia).
  split.
  - apply list_eq. intros i.
    destruct (decide (i < Z.to_nat len)%nat) as [Hi|Hi].
    + rewrite !bytes_n_lookup by done.
      erewrite load8_store_bytes_in.
      2:{ rewrite lookup_app_l by (rewrite bytes_n_length; lia).
          by apply bytes_n_lookup. }
      f_equal. apply Z.mod_small, load8_range.
    + rewrite !lookup_ge_None_2; [done|rewrite bytes_n_length; lia..].
  - destruct (Z.gtb_spec (Z.of_nat (Z.to_nat len)) INT_MAX) as [H|H]; [|lia].
    lia.
Qed.

(** Writing the key buffer does not disturb strings that lie outside it. *)
Lemma bytes_snprintf_out m key n out p len :
  0 < n -> 0 <= len -> p + len <= key \/ key + n <= p ->
  bytes (snprintf m key n out).1 p len = bytes m p len.
Proof.
  intros Hn Hlen Hd. unfold snprintf, bytes. cbn [fst].
  apply bytes_n_ext. intros k Hk.
  apply load8_store_bytes_out. rewrite length_app, length_take. cbn [length].
  lia.
Qed.


(** ** Which pointers a lookup can return *)

(** Every translation the cache holds is null or a translation of the
    pair array. *)
Definition cache_within (prs : list mo_string_pair_t) (c : mo_context) : Prop :=
  forall (s : nat) item, cache c !! s = Some item ->
    c_translation item = NULL \/
    exists (i : nat) pr, prs !! i = Some pr /\ c_translation item = translation pr.

(** The answer to a query for [p] is [p] itself or a translation of the
    pair array. *)
Definition answer_of (prs : list mo_string_pair_t) (p r : ptr) : Prop :=
  r = p \/ exists (i : nat) pr, prs !! i = Some pr /\ r = translation pr.

Lemma mo_translate_n_within cfg m c prs p len :
  catalog_wf cfg m c prs -> cache_within prs c ->
  exists c' r,
    mo_translate_n cfg m (Some c) p len = Some (Some c', r) /\
    catalog_wf cfg m c' prs /\ cache_within prs c' /\ answer_of prs p r.
Proof.
  intros Hwf Hin.
  destruct (Z.eqb_spec p NULL) as [->|Hp].
  { exists c, NULL. rewrite mo_translate_n_null_original.
    split; [done|]. split; [done|]. split; [done|]. by left. }
  destruct (cache_hit cfg m c p len) eqn:Hhit.
  - assert (Hg : passes_guard c p).
    { split; [|done]. destruct Hwf as [-> _]. done. }
    destruct (mo_translate_n_hit cfg m c p len Hg Hhit)
      as (c' & Hres & Hcache & _ & Hpres).
    eexists c', _. split; [exact Hres|].
    split; [exact (proj1 (Hpres prs) Hwf)|].
    split; [unfold cache_within; by rewrite Hcache|].
    destruct (Z.eqb_spec (c_translation (cache_at c (cache_slot cfg m p len))) NULL)
      as [|Hne]; [by left|].
    unfold cache_at in *.
    destruct (cache c !! Z.to_nat (cache_slot cfg m p len)) as [item|] eqn:Hitem;
      cbn [from_option id] in *; [|done].
    destruct (Hin _ _ Hitem) as [|Hex]; [done|by right].
  - destruct (mo_translate_n_miss cfg m c prs p len Hwf Hp Hhit)
      as (c' & r & Hres & Hwf' & _ & _ & Hcase & _).
    exists c', r. split; [done|]. split; [done|].
    destruct Hcase as [[-> Hc]|(i & pr & Hi & _ & -> & Hc)].
    + split; [unfold cache_within; by rewrite Hc|by left].
    + split; [|right; eauto].
      intros s item Hs. rewrite Hc in Hs.
      destruct (decide (s = Z.to_nat (cache_slot cfg m p len))) as [->|Hns].
      * apply list_lookup_insert_Some in Hs as [(_ & <- & _)|[? _]]; [|done].
        right. exists i, pr. done.
      * rewrite list_lookup_insert_ne in Hs by done. by apply (Hin s).
Qed.

(** X21.  Lookups return and only hand out known pointers: on a catalog
    of any of the three builds, every sequence of [mo_translate_n] calls
    returns, and each result is either the queried pointer itself or the
    translation pointer of an entry of the pair array, whatever earlier
    queries left in the cache. *)
Theorem lookups_return_known_pointers cfg m c prs qs :
  catalog_wf cfg m c prs -> cache_within prs c ->
  exists c' rs,
    run_queries cfg m (Some c) qs = Some (Some c', rs) /\
    Forall2 (fun q r => answer_of prs q.1 r) qs rs /\
    catalog_wf cfg m c' prs /\ cache_within prs c'.
Proof.
  revert c. induction qs as [|[p len] qs IH]; intros c Hwf Hin.
  - exists c, []. cbn [run_queries]. split; [done|]. split; [constructor|done].
  - destruct (mo_translate_n_within cfg m c prs p len Hwf Hin)
      as (c1 & r & Hres & Hwf1 & Hin1 & Hans).
    destruct (IH c1 Hwf1 Hin1) as (c' & rs & Hrun & Hall & Hwf' & Hin').
    exists c', (r :: rs). cbn [run_queries]. rewrite Hres. cbn [mbind option_bind].
    rewrite Hrun. cbn [mbind option_bind]. split; [done|].
    split; [by constructor|done].
Qed.

(** ** Looking up a C string *)

Lemma strlen_from_spec m limit : forall p acc (len : nat),
  (forall k : nat, (k < len)%nat -> load8 m (p + Z.of_nat k) <> 0) ->
  load8 m (p + Z.of_nat len) = 0 -> (len < limit)%nat ->
  strlen_from m p limit acc = Some (acc + Z.of_nat len).
Proof.
  induction limit as [|limit IH]; intros p acc len Hnz Hz Hl; [lia|].
  cbn [strlen_from]. destruct len as [|len].
  - rewrite Z.add_0_r in Hz. rewrite Hz. cbn [Z.eqb]. f_equal. lia.
  - pose proof (Hnz 0%nat ltac:(lia)) as H0. rewrite Z.add_0_r in H0.
    destruct (Z.eqb_spec (load8 m p) 0) as [|_]; [done|].
    rewrite (IH (p + 1) (acc + 1) len).
    + f_equal. lia.
    + intros k Hk. specialize (Hnz (S k) ltac:(lia)).
      by replace (p + 1 + Z.of_nat k) with (p + Z.of_nat (S k)) by lia.
    + by replace (p + 1 + Z.of_nat len) with (p + Z.of_nat (S len)) by lia.
    + lia.
Qed.

Section CStrings.

Variable qsort : (mo_string_pair_t -> mo_string_pair_t -> Z) ->
                 list mo_string_pair_t -> list mo_string_pair_t.

Hypothesis qsort_perm : forall cmp l, qsort cmp l ≡ₚ l.
Hypothesis qsort_sorted : forall (cmp : mo_string_pair_t -> mo_string_pair_t -> Z) l,
  (forall a b, cmp a b <= 0 \/ cmp b a <= 0) ->
  (forall a b c, cmp a b <= 0 -> cmp b c <= 0 -> cmp a c <= 0) ->
  forall (i j : nat) p q,
    qsort cmp l !! i = Some p -> qsort cmp l !! j = Some q -> (i < j)%nat ->
    cmp p q <= 0.

(** X22.  [mo_translate] on a C string: in a catalog just loaded from a
    well-laid-out file with pairwise distinct originals, a NUL-terminated
    string whose characters are those of the [i]-th original is
    translated to the [i]-th translation inside the catalog's copy, in
    each of the three builds; the length is found by [strlen]. *)
Theorem translate_c_string cfg limit al m src fsize o i q :
  mo_context_create_from_memory qsort cfg al m src fsize true = Some o ->
  err o = MO_SUCCESS ->
  well_laid_out m src fsize ->
  distinct_file_originals m src ->
  0 <= i < file_num_strings m src ->
  q <> NULL ->
  bytes (mem_out o) q (file_orig_len m src i)
  = bytes m (src + file_orig_offset m src i) (file_orig_len m src i) ->
  (forall k, 0 <= k < file_orig_len m src i -> load8 (mem_out o) (q + k) <> 0) ->
  load8 (mem_out o) (q + file_orig_len m src i) = 0 ->
  file_orig_len m src i < Z.of_nat limit ->
  exists c',
    mo_translate cfg limit (mem_out o) (ctx_out o) q
    = Some (c', malloc_data al + file_trans_offset m src i).
Proof.
  intros Hc Herr Hlay Hd Hi Hq Hbytes Hnz Hz Hlim.
  pose proof (file_u32_range m src (file_orig_table m src + 8 * i)) as Hlr.
  fold (file_orig_len m src i) in Hlr.
  set (len := file_orig_len m src i) in *.
  assert (Hstr : strlen limit (mem_out o) q = Some len).
  { unfold strlen.
    rewrite (strlen_from_spec (mem_out o) limit q 0 (Z.to_nat len)).
    - f_equal. lia.
    - intros k Hk. apply Hnz. lia.
    - by rewrite Z2Nat.id by lia.
    - lia. }
  unfold mo_translate. destruct (Z.eqb_spec q NULL) as [|_]; [done|].
  rewrite Hstr. cbn [mbind option_bind].
  destruct (load_catalog_ok _ qsort_perm qsort_sorted _ _ _ _ _ _ _ Hc Herr Hlay)
    as (Hsz & Hbuf & Hmem & c & prs & Hctx & Hok & Hperm & Hcache & Hstats).
  rewrite Hmem in *. rewrite Hctx.
  set (m1 := loaded m (malloc_data al) src fsize) in *.
  pose proof Hlay as (_ & _ & Hall).
  destruct (Hall i Hi) as (HO1 & HO2 & HT1 & HT2).
  assert (Hdist : distinct_originals m1 prs).
  { eapply distinct_originals_perm; [done|]. by apply distinct_file_pairs. }
  set (pt := file_pair (malloc_data al) m src i).
  assert (Hin : pt ∈ prs).
  { rewrite Hperm. apply list_elem_of_lookup. exists (Z.to_nat i).
    apply file_pairs_lookup. rewrite Z2Nat.id by lia. split; [lia|done]. }
  apply list_elem_of_lookup in Hin as [t Ht].
  assert (Hmatch : matchb m1 q len pt = true).
  { unfold matchb, pt, file_pair. cbn [original original_len]. fold len.
    rewrite Z.eqb_refl. cbn [andb].
    apply Z.eqb_eq, memcmp_eq. unfold m1. rewrite loaded_bytes by (fold len; lia).
    fold m1. by rewrite Hbytes. }
  destruct Hok as [Hwf Hbuilt].
  destruct (mo_translate_n_miss cfg m1 c prs q len Hwf Hq
              (cache_hit_zero cfg m1 c q len Hcache Hq))
    as (c' & r & Hres & _ & _ & _ & _ & Hfound).
  destruct (Hfound (conj Hwf Hbuilt) t pt Ht Hmatch)
    as (_ & j & pr' & Hj & Hmj & ->).
  assert (j = t) by (eapply Hdist; eauto using matchb_same_key).
  subst j. assert (pr' = pt) as -> by congruence.
  exists (Some c'). done.
Qed.

End CStrings.

(** ** Lookups in catalogs with repeated originals *)

Section Duplicates.

Variable qsort : (mo_string_pair_t -> mo_string_pair_t -> Z) ->
                 list mo_string_pair_t -> list mo_string_pair_t.

Hypothesis qsort_perm : forall cmp l, qsort cmp l ≡ₚ l.
Hypothesis qsort_sorted : forall (cmp : mo_string_pair_t -> mo_string_pair_t -> Z) l,
  (forall a b, cmp a b <= 0 \/ cmp b a <= 0) ->
  (forall a b c, cmp a b <= 0 -> cmp b c <= 0 -> cmp a c <= 0) ->
  forall (i j : nat) p q,
    qsort cmp l !! i = Some p -> qsort cmp l !! j = Some q -> (i < j)%nat ->
    cmp p q <= 0.

(** Entry [j] of the file has the length and the bytes of the query. *)
Definition file_entry_matches (m : memory) (src : ptr) (m1 : memory) (q : ptr)
    (len : Z) (j : Z) : Prop :=
  file_orig_len m src j = len /\
  bytes m (src + file_orig_offset m src j) len = bytes m1 q len.

(** X23.  A first lookup in a loaded catalog, whether or not originals
    repeat in the file: if some entry of the file has the length and bytes
    of the query, the result is the translation of such an entry, inside
    the catalog's copy; if none has, the result is the queried pointer.  In
    each of the three builds. *)
Theorem lookup_with_duplicates cfg al m src fsize o q len :
  mo_context_create_from_memory qsort cfg al m src fsize true = Some o ->
  err o = MO_SUCCESS ->
  well_laid_out m src fsize ->
  q <> NULL ->
  exists c' r,
    mo_translate_n cfg (mem_out o) (ctx_out o) q len = Some (c', r) /\
    ((exists j, 0 <= j < file_num_strings m src /\
                file_entry_matches m src (mem_out o) q len j) ->
     exists j, 0 <= j < file_num_strings m src /\
               file_entry_matches m src (mem_out o) q len j /\
               r = malloc_data al + file_trans_offset m src j) /\
    ((forall j, 0 <= j < file_num_strings m src ->
                ~ file_entry_matches m src (mem_out o) q len j) -> r = q).
Proof.
  intros Hc Herr Hlay Hq.
  destruct (load_catalog_ok _ qsort_perm qsort_sorted _ _ _ _ _ _ _ Hc Herr Hlay)
    as (Hsz & Hbuf & Hmem & c & prs & Hctx & Hok & Hperm & Hcache & Hstats).
  rewrite Hmem in *. rewrite Hctx.
  set (m1 := loaded m (malloc_data al) src fsize) in *.
  pose proof Hlay as (_ & _ & Hall).
  assert (Hmatch : forall j, 0 <= j < file_num_strings m src ->
            (matchb m1 q len (file_pair (malloc_data al) m src j) = true <->
             file_entry_matches m src m1 q len j)).
  { intros j Hj. destruct (Hall j Hj) as (HO1 & HO2 & _).
    pose proof (file_u32_range m src (file_orig_table m src + 8 * j)) as Hlr.
    fold (file_orig_len m src j) in Hlr.
    unfold matchb, file_entry_matches, file_pair. cbn [original original_len].
    rewrite andb_true_iff, !Z.eqb_eq, memcmp_eq. split.
    - intros [El Hb]. split; [done|]. rewrite <- Hb. subst len.
      symmetry. unfold m1. apply loaded_bytes; lia.
    - intros [El Hb]. split; [done|]. rewrite <- Hb. subst len.
      unfold m1. apply loaded_bytes; lia. }
  assert (Hentry : forall (t : nat) pr, prs !! t = Some pr ->
            exists j, 0 <= j < file_num_strings m src /\
                      pr = file_pair (malloc_data al) m src j).
  { intros t pr Ht.
    assert (pr ∈ file_pairs (malloc_data al) m src) as Hin
      by (rewrite <- Hperm; apply list_elem_of_lookup; eauto).
    apply list_elem_of_lookup in Hin as [j Hj].
    apply file_pairs_lookup in Hj as [Hj ->]. exists (Z.of_nat j). split; [lia|done]. }
  destruct Hok as [Hwf Hbuilt].
  destruct (mo_translate_n_miss cfg m1 c prs q len Hwf Hq
              (cache_hit_zero cfg m1 c q len Hcache Hq))
    as (c' & r & Hres & _ & _ & _ & Hcase & Hfound).
  exists (Some c'), r. split; [done|]. split.
  - intros (j & Hj & Hm).
    assert (Hin : file_pair (malloc_data al) m src j ∈ prs).
    { rewrite Hperm. apply list_elem_of_lookup. exists (Z.to_nat j).
      apply file_pairs_lookup. rewrite Z2Nat.id by lia. split; [lia|done]. }
    apply list_elem_of_lookup in Hin as [t Ht].
    destruct (Hfound (conj Hwf Hbuilt) t _ Ht (proj2 (Hmatch j Hj) Hm))
      as (_ & t' & pr' & Ht' & Hm' & ->).
    destruct (Hentry t' pr' Ht') as (j' & Hj' & ->).
    exists j'. split; [done|]. split; [by apply Hmatch|done].
  - intros Hnone. destruct Hcase as [[-> _]|(t & pr & Ht & Hm & _)]; [done|].
    destruct (Hentry t pr Ht) as (j & Hj & ->).
    destruct (Hnone j Hj). by apply Hmatch.
Qed.

End Duplicates.

(** ** The key buffer and the cache *)

(** Outside hash builds a cache hit depends on the pointer alone. *)
Lemma cache_hit_pointer cfg m m' c p len len' :
  method cfg <> HASH -> cache_hit cfg m' c p len' = cache_hit cfg m c p len.
Proof.
  intros Hm. unfold cache_hit, cache_slot. by destruct (method cfg).
Qed.

Lemma catalog_wf_memory cfg m m' c prs :
  method cfg <> HASH -> catalog_wf cfg m c prs -> catalog_wf cfg m' c prs.
Proof.
  intros Hm (H1 & H2 & H3 & H4 & _). repeat (split; [done|]). done.
Qed.

(** X24.  In a linear or binary build the cache is keyed by the address of
    the query, and [mo_translate_cp] always queries its own key buffer:
    once a context-free call has returned a translation, a later
    context-free call whose key buffer has the same address returns that
    same translation for any other singular that fits the buffer, without
    looking the singular up. *)
Theorem translate_cp_stale_key cfg limit m key c prs s1 n1 m1 c1 r1 s2 len2 n2 :
  method cfg <> HASH ->
  catalog_wf cfg m c prs -> length (cache c) = Z.to_nat MO_CACHE_SIZE ->
  key <> NULL ->
  mo_translate_cp cfg limit m key (Some c) NULL s1 NULL n1 = Some (m1, Some c1, r1) ->
  r1 <> key -> r1 <> NULL -> r1 <> s1 ->
  s2 <> NULL -> strlen limit m1 s2 = Some len2 ->
  0 <= len2 < MO_MAX_STRING_LENGTH ->
  exists m2 c2,
    mo_translate_cp cfg limit m1 key (Some c1) NULL s2 NULL n2
    = Some (m2, Some c2, r1).
Proof.
  intros Hm Hwf Hlen Hkey Hfirst Hr1k Hr1n Hr1s Hs2 Hstr2 Hlen2.
  (* the first call *)
  unfold mo_translate_cp in Hfirst.
  rewrite bool_decide_eq_false_2 in Hfirst by done.
  destruct (Z.eqb_spec s1 NULL) as [E|_]; cbn [orb] in Hfirst.
  { injection Hfirst as _ _ E'. congruence. }
  change (NULL =? NULL) with true in Hfirst. cbn [negb andb] in Hfirst.
  destruct (format_plain limit m s1) as [out1|]; cbn [mbind option_bind] in Hfirst;
    [|discriminate Hfirst].
  destruct (snprintf m key MO_MAX_STRING_LENGTH out1) as [m1' len1] eqn:Hsn1.
  destruct (len1 >=? MO_MAX_STRING_LENGTH).
  { injection Hfirst as _ _ E'. congruence. }
  destruct (mo_translate_n cfg m1' (Some c) key len1) as [[c1' r]|] eqn:Hcall;
    cbn [mbind option_bind] in Hfirst; [|discriminate Hfirst].
  rewrite andb_false_r in Hfirst. cbn [mbind option_bind andb] in Hfirst.
  injection Hfirst as -> -> ->.
  destruct (mo_translate_n_caches cfg m1 c prs key len1 c1 r1
              (catalog_wf_memory cfg m m1 c prs Hm Hwf) Hlen Hkey Hcall Hr1k Hr1n)
    as (Hwf1 & _ & Hhit & Htr).
  (* the second call *)
  unfold mo_translate_cp.
  rewrite bool_decide_eq_false_2 by done.
  destruct (Z.eqb_spec s2 NULL) as [|_]; [done|]. cbn [orb].
  change (NULL =? NULL) with true. cbn [negb andb].
  unfold format_plain. rewrite Hstr2. cbn [mbind option_bind].
  destruct (bytes_snprintf m1 key MO_MAX_STRING_LENGTH s2 len2 Hlen2)
    as [_ Hret]; [done|].
  destruct (snprintf m1 key MO_MAX_STRING_LENGTH (bytes m1 s2 len2))
    as [m2 key_len] eqn:Hsn2.
  cbn [snd] in Hret. subst key_len.
  destruct (Z.geb_spec len2 MO_MAX_STRING_LENGTH) as [|_]; [lia|].
  assert (Hg : passes_guard c1 key).
  { destruct Hwf1 as (Hp0 & _). split; [congruence|done]. }
  assert (Hhit2 : cache_hit cfg m2 c1 key len2 = true)
    by (by rewrite (cache_hit_pointer cfg m1 m2 c1 key len1 len2 Hm)).
  destruct (mo_translate_n_hit cfg m2 c1 key len2 Hg Hhit2)
    as (c2 & Hres & _).
  assert (Hslot : cache_slot cfg m2 key len2 = cache_slot cfg m1 key len1)
    by (unfold cache_slot; by destruct (method cfg)).
  rewrite Hslot, Htr in Hres.
  destruct (Z.eqb_spec r1 NULL) as [|_]; [done|].
  rewrite Hres. cbn [mbind option_bind].
  rewrite andb_false_r. cbn [andb mbind option_bind]. eauto.
Qed.

(** ** The properties above on the two-string catalog *)

Lemma demo_cache s :
  cache (demo_context s) = replicate (Z.to_nat MO_CACHE_SIZE) zero_cache_item.
Proof. destruct s; vm_compute; reflexivity. Qed.

Lemma demo_pairs_eq s : pairs (demo_context s) = Some (demo_pairs s).
Proof. destruct s; vm_compute; reflexivity. Qed.

Lemma demo_pairs_length s :
  Z.of_nat (length (demo_pairs s)) = num_strings (demo_context s).
Proof. destruct s; vm_compute; reflexivity. Qed.

Lemma demo_count s : num_strings (demo_context s) = 2.
Proof. destruct s; vm_compute; reflexivity. Qed.

Lemma demo_context_eq s : ctx_out (demo_out s) = Some (demo_context s).
Proof. destruct s; vm_compute; reflexivity. Qed.

Lemma linear_search_first_match_witness :
  mo_find_string_linear (demo_build LINEAR) (mem_out (demo_out LINEAR))
    (Some (demo_context LINEAR)) 5000 4 =
  Some (Some (set_stats (demo_context LINEAR)
                (Nat.iter (examined (mem_out (demo_out LINEAR))
                             (demo_pairs LINEAR) 5000 4)
                   (inc_comparisons (demo_build LINEAR))
                   (stats (demo_context LINEAR)))),
        match find_pair (mem_out (demo_out LINEAR)) (demo_pairs LINEAR) 5000 4 with
        | Some (i, _) => Z.of_nat i
        | None => NOT_FOUND
        end).
Proof.
  apply (linear_search_first_match (demo_build LINEAR) (mem_out (demo_out LINEAR))
           (demo_context LINEAR) (demo_pairs LINEAR) 5000 4).
  - exact (demo_pairs_eq LINEAR).
  - exact (demo_pairs_length LINEAR).
Defined.

Lemma binary_search_correct_witness :
  exists st r,
    mo_find_string_binary (demo_build BINARY) (mem_out (demo_out BINARY))
      (Some (demo_context BINARY)) 5000 4
    = Some (Some (set_stats (demo_context BINARY) st), r) /\
    (r <> NOT_FOUND ->
     0 <= r < num_strings (demo_context BINARY) /\
     exists p, demo_pairs BINARY !! Z.to_nat r = Some p /\
       original_len p = 4 /\
       bytes (mem_out (demo_out BINARY)) (original p) 4
       = bytes (mem_out (demo_out BINARY)) 5000 4) /\
    (sorted_pairs (mem_out (demo_out BINARY)) (demo_pairs BINARY) ->
     r = NOT_FOUND ->
     forall (i : nat) p, demo_pairs BINARY !! i = Some p ->
       ~ (original_len p = 4 /\
          bytes (mem_out (demo_out BINARY)) (original p) 4
          = bytes (mem_out (demo_out BINARY)) 5000 4)).
Proof.
  apply (binary_search_correct (demo_build BINARY) (mem_out (demo_out BINARY))
           (demo_context BINARY) (demo_pairs BINARY) 5000 4).
  - exact (demo_pairs_eq BINARY).
  - exact (demo_pairs_length BINARY).
  - rewrite demo_count. lia.
Defined.

Lemma binary_search_logarithmic_witness :
  exists (k : nat) r,
    mo_find_string_binary (demo_build BINARY) (mem_out (demo_out BINARY))
      (Some (demo_context BINARY)) 5000 4 =
    Some (Some (set_stats (demo_context BINARY)
                  (Nat.iter k (inc_comparisons (demo_build BINARY))
                     (stats (demo_context BINARY)))), r) /\
    1 <= Z.of_nat k <= Z.log2 (num_strings (demo_context BINARY)) + 1.
Proof.
  apply (binary_search_logarithmic (demo_build BINARY) (mem_out (demo_out BINARY))
           (demo_context BINARY) (demo_pairs BINARY) 5000 4).
  - exact (demo_pairs_eq BINARY).
  - exact (demo_pairs_length BINARY).
  - rewrite demo_count. lia.
Defined.

(** The table of the hash build of the two-string catalog. *)
Definition demo_table : list mo_hash_slot_t :=
  default [] (hash_table (demo_context HASH)).

Lemma hash_search_terminates_witness :
  exists st r,
    mo_find_string_hash (demo_build HASH) (mem_out (demo_out HASH))
      (Some (demo_context HASH)) 5000 4 12345
    = Some (Some (set_stats (demo_context HASH) st), r) /\
    (r = NOT_FOUND \/
     (0 <= r < hash_table_size (demo_context HASH) /\
      exists slot, demo_table !! Z.to_nat r = Some slot /\
        s_state slot = MO_HASH_SLOT_OCCUPIED /\ s_hash slot = 12345 /\
        s_original_len slot = 4 /\
        bytes (mem_out (demo_out HASH)) (s_original slot) 4
        = bytes (mem_out (demo_out HASH)) 5000 4)).
Proof.
  apply (hash_search_terminates (demo_build HASH) (mem_out (demo_out HASH))
           (demo_context HASH) demo_table 2 5000 4 12345).
  - vm_compute. reflexivity.
  - lia.
  - vm_compute. reflexivity.
  - vm_compute. reflexivity.
  - vm_compute. reflexivity.
  - unfold NULL. lia.
Defined.

Lemma hash_build_fills_witness :
  exists tbl,
    hash_table (demo_context HASH) = Some tbl /\
    Z.of_nat (length tbl) = hash_table_size (demo_context HASH) /\
    hash_table_count (demo_context HASH)
    = num_strings (set_hash_table (demo_context HASH) None 0 0 0) /\
    Z.of_nat (count_occupied tbl)
    = num_strings (set_hash_table (demo_context HASH) None 0 0 0) /\
    (forall (j : nat) s, tbl !! j = Some s ->
       s_state s = MO_HASH_SLOT_EMPTY \/ s_state s = MO_HASH_SLOT_OCCUPIED) /\
    (num_strings (set_hash_table (demo_context HASH) None 0 0 0) <= 65535 ->
     4 * num_strings (set_hash_table (demo_context HASH) None 0 0 0)
     <= 3 * hash_table_size (demo_context HASH)).
Proof.
  apply (hash_build_fills (mem_out (demo_out HASH))
           (set_hash_table (demo_context HASH) None 0 0 0)
           (demo_pairs HASH) (demo_context HASH)).
  - vm_compute. reflexivity.
  - vm_compute. reflexivity.
  - vm_compute. reflexivity.
  - vm_compute. reflexivity.
Defined.

(** The context after the query ["Open"] (4 bytes at 5000) on the freshly
    loaded linear catalog; the call returns 2078, the address of
    ["Ouvrir"]. *)
Definition demo_after_open : mo_context :=
  default no_context
    (mo_translate_n (demo_build LINEAR) (mem_out (demo_out LINEAR))
       (Some (demo_context LINEAR)) 5000 4 ≫= fst).

Lemma demo_open_call :
  mo_translate_n (demo_build LINEAR) (mem_out (demo_out LINEAR))
    (Some (demo_context LINEAR)) 5000 4 = Some (Some demo_after_open, 2078).
Proof. vm_compute. reflexivity. Qed.

Lemma mo_translate_n_frame_witness :
  exists c1,
    Some demo_after_open = Some c1 /\ same_catalog (demo_context LINEAR) c1 /\
    length (cache c1) = length (cache (demo_context LINEAR)) /\
    (forall s : nat,
       s <> Z.to_nat (cache_slot (demo_build LINEAR) (mem_out (demo_out LINEAR))
                        5000 4) ->
       cache c1 !! s = cache (demo_context LINEAR) !! s) /\
    (enable_stats (demo_build LINEAR) = false ->
     stats c1 = stats (demo_context LINEAR)).
Proof.
  apply (mo_translate_n_frame (demo_build LINEAR) (mem_out (demo_out LINEAR))
           (demo_context LINEAR) 5000 4 (Some demo_after_open) 2078).
  exact demo_open_call.
Defined.

Lemma cache_replays_translation_witness :
  exists c2,
    mo_translate_n (demo_build LINEAR) (mem_out (demo_out LINEAR))
      (Some demo_after_open) 5000 4 = Some (Some c2, 2078) /\
    cache c2 = cache demo_after_open /\
    stats c2 = inc_cache_hits (demo_build LINEAR)
                 (inc_total_lookups (demo_build LINEAR) (stats demo_after_open)).
Proof.
  apply (cache_replays_translation (demo_build LINEAR) (mem_out (demo_out LINEAR))
           (demo_context LINEAR) (demo_pairs LINEAR) 5000 4 demo_after_open 2078).
  - apply demo_catalog_wf. discriminate.
  - vm_compute. reflexivity.
  - unfold NULL. lia.
  - exact demo_open_call.
  - lia.
  - unfold NULL. lia.
Defined.

Lemma stats_count_lookups_witness :
  (enable_stats (demo_build LINEAR) = true ->
   exists c' rs st,
     run_queries (demo_build LINEAR) (mem_out (demo_out LINEAR))
       (Some (demo_context LINEAR)) [(5000, 4); (0, 0); (5000, 5)]
     = Some (Some c', rs) /\
     length rs = length [(5000, 4); (0, 0); (5000, 5)] /\
     mo_get_stats (demo_build LINEAR) (Some c') true = (true, Some st) /\
     total_lookups st
     = u32 (total_lookups (stats (demo_context LINEAR))
            + Z.of_nat (counted [(5000, 4); (0, 0); (5000, 5)])) /\
     (stats_inv (stats (demo_context LINEAR)) -> stats_inv st)) /\
  (forall ctx ptr_ok,
     enable_stats (demo_build LINEAR) = false \/ ctx = None \/ ptr_ok = false ->
     mo_get_stats (demo_build LINEAR) ctx ptr_ok = (false, None)).
Proof.
  apply (stats_count_lookups (demo_build LINEAR) (mem_out (demo_out LINEAR))
           (demo_context LINEAR) (demo_pairs LINEAR)
           [(5000, 4); (0, 0); (5000, 5)]).
  - apply demo_catalog_wf. discriminate.
  - vm_compute. split; [discriminate|reflexivity].
Defined.

Lemma loaded_pair_array_witness :
  exists c prs,
    ctx_out (demo_out BINARY) = Some c /\ pairs c = Some prs /\
    mo_get_string_count (ctx_out (demo_out BINARY))
    = file_num_strings demo_memory 1000 /\
    Z.of_nat (length prs) = file_num_strings demo_memory 1000 /\
    prs ≡ₚ file_pairs (malloc_data demo_alloc) demo_memory 1000 /\
    (method (demo_build BINARY) <> BINARY ->
     prs = file_pairs (malloc_data demo_alloc) demo_memory 1000) /\
    (method (demo_build BINARY) = BINARY ->
     sorted_pairs (mem_out (demo_out BINARY)) prs).
Proof.
  apply (loaded_pair_array insertion_sort (@insertion_sort_perm _)
           insertion_sort_sorted (demo_build BINARY) demo_alloc demo_memory
           1000 85 (demo_out BINARY)).
  - exact (demo_load_eq BINARY).
  - vm_compute. reflexivity.
  - exact demo_well_laid_out.
Defined.

Lemma loader_memory_effect_witness :
  (forall a, a < malloc_data demo_alloc \/ malloc_data demo_alloc + 85 <= a ->
     load8 (mem_out (demo_out HASH)) a = load8 demo_memory a) /\
  (err (demo_out HASH) = MO_SUCCESS ->
   (forall x, 0 <= x < 85 -> x < 4 \/ 28 <= x ->
      load8 (mem_out (demo_out HASH)) (malloc_data demo_alloc + x)
      = load8 demo_memory (1000 + x)) /\
   (forall f, f = 4 \/ f = 8 \/ f = 12 \/ f = 16 \/ f = 20 \/ f = 24 ->
      load32 (mem_out (demo_out HASH)) (malloc_data demo_alloc + f)
      = file_u32 demo_memory 1000 f)).
Proof.
  apply (loader_memory_effect insertion_sort (demo_build HASH) demo_alloc
           demo_memory 1000 85 true (demo_out HASH)).
  exact (demo_load_eq HASH).
Defined.


(** A catalog file without strings: the header alone, both tables at 28. *)
Definition empty_file : list Z :=
  le32 MO_MAGIC ++ le32 0 ++ le32 0 ++ le32 28 ++ le32 28 ++ le32 0 ++ le32 0.

Definition empty_memory : memory := store_bytes (fun _ => 0) 1000 empty_file.

Lemma empty_catalog_witness :
  exists o,
    mo_context_create_from_memory insertion_sort (demo_build HASH) demo_alloc
      empty_memory 1000 28 true = Some o /\
    (method (demo_build HASH) = HASH ->
     err o = MO_ERROR_MEMORY /\ ctx_out o = None) /\
    (method (demo_build HASH) <> HASH ->
     err o = MO_SUCCESS /\ mo_get_string_count (ctx_out o) = 0 /\
     forall p len, exists c',
       mo_translate_n (demo_build HASH) (mem_out o) (ctx_out o) p len
       = Some (c', p)).
Proof.
  apply (empty_catalog insertion_sort (@insertion_sort_perm _) (demo_build HASH)
           demo_alloc empty_memory 1000 28).
  - unfold NULL. lia.
  - lia.
  - reflexivity.
  - cbn. unfold NULL. lia.
  - reflexivity.
  - left. vm_compute. reflexivity.
  - vm_compute. reflexivity.
  - vm_compute. discriminate.
  - vm_compute. discriminate.
Defined.

Lemma mo_get_string_loaded_witness :
  (forall i, 0 <= i < file_num_strings demo_memory 1000 ->
     mo_get_string (mem_out (demo_out LINEAR)) (ctx_out (demo_out LINEAR))
       (malloc_data demo_alloc + file_orig_table demo_memory 1000) i
     = malloc_data demo_alloc + file_orig_offset demo_memory 1000 i /\
     mo_get_string (mem_out (demo_out LINEAR)) (ctx_out (demo_out LINEAR))
       (malloc_data demo_alloc + file_trans_table demo_memory 1000) i
     = malloc_data demo_alloc + file_trans_offset demo_memory 1000 i) /\
  (forall table i, table = NULL \/ file_num_strings demo_memory 1000 <= i ->
     mo_get_string (mem_out (demo_out LINEAR)) (ctx_out (demo_out LINEAR)) table i
     = NULL).
Proof.
  apply (mo_get_string_loaded insertion_sort (demo_build LINEAR) demo_alloc
           demo_memory 1000 85 (demo_out LINEAR)).
  - exact (demo_load_eq LINEAR).
  - vm_compute. reflexivity.
  - exact demo_well_laid_out.
  - cbn. lia.
Defined.

Lemma demo_pairs_cases s (i : nat) pr :
  demo_pairs s !! i = Some pr ->
  pr = {| original := 2060; translation := 2071;
          original_len := 5; translation_len := 6 |} \/
  pr = {| original := 2066; translation := 2078;
          original_len := 4; translation_len := 6 |}.
Proof.
  assert (Hp : demo_pairs s =
               [ {| original := 2060; translation := 2071;
                    original_len := 5; translation_len := 6 |};
                 {| original := 2066; translation := 2078;
                    original_len := 4; translation_len := 6 |} ]
               \/ demo_pairs s =
               [ {| original := 2066; translation := 2078;
                    original_len := 4; translation_len := 6 |};
                 {| original := 2060; translation := 2071;
                    original_len := 5; translation_len := 6 |} ]).
  { destruct s; [left|right|left]; vm_compute; reflexivity. }
  intros Hi.
  destruct Hp as [Hp|Hp]; rewrite Hp in Hi;
    destruct i as [|[|i]]; cbn [lookup list_lookup] in Hi;
    try discriminate Hi; injection Hi as <-; tauto.
Qed.


Lemma demo_cache_within s : cache_within (demo_pairs s) (demo_context s).
Proof.
  intros t item Ht. rewrite demo_cache in Ht.
  apply lookup_replicate in Ht as [-> _]. by left.
Qed.

Lemma lookups_return_known_pointers_witness :
  exists c' rs,
    run_queries (demo_build BINARY) (mem_out (demo_out BINARY))
      (Some (demo_context BINARY)) [(5000, 4); (5000, 2); (1060, 5)]
    = Some (Some c', rs) /\
    Forall2 (fun q r => answer_of (demo_pairs BINARY) q.1 r)
      [(5000, 4); (5000, 2); (1060, 5)] rs /\
    catalog_wf (demo_build BINARY) (mem_out (demo_out BINARY)) c'
      (demo_pairs BINARY) /\
    cache_within (demo_pairs BINARY) c'.
Proof.
  apply (lookups_return_known_pointers (demo_build BINARY)
           (mem_out (demo_out BINARY)) (demo_context BINARY) (demo_pairs BINARY)
           [(5000, 4); (5000, 2); (1060, 5)]).
  - apply demo_catalog_wf. discriminate.
  - apply demo_cache_within.
Defined.

Lemma translate_c_string_witness :
  exists c',
    mo_translate (demo_build HASH) 100 (mem_out (demo_out HASH))
      (ctx_out (demo_out HASH)) 1066
    = Some (c', malloc_data demo_alloc + file_trans_offset demo_memory 1000 1).
Proof.
  assert (Hlen : file_orig_len demo_memory 1000 1 = 4) by (vm_compute; reflexivity).
  apply (translate_c_string insertion_sort (@insertion_sort_perm _)
           insertion_sort_sorted (demo_build HASH) 100 demo_alloc demo_memory
           1000 85 (demo_out HASH) 1 1066).
  - exact (demo_load_eq HASH).
  - vm_compute. reflexivity.
  - exact demo_well_laid_out.
  - exact demo_distinct.
  - rewrite demo_num_strings. lia.
  - unfold NULL. lia.
  - vm_compute. reflexivity.
  - intros k Hk. rewrite Hlen in Hk.
    assert (k = 0 \/ k = 1 \/ k = 2 \/ k = 3) as [-> | [-> | [-> | ->]]] by lia;
      vm_compute; discriminate.
  - vm_compute. reflexivity.
  - rewrite Hlen. lia.
Defined.

Lemma lookup_with_duplicates_witness :
  exists c' r,
    mo_translate_n (demo_build BINARY) (mem_out (demo_out BINARY))
      (ctx_out (demo_out BINARY)) 5000 4 = Some (c', r) /\
    ((exists j, 0 <= j < file_num_strings demo_memory 1000 /\
                file_entry_matches demo_memory 1000 (mem_out (demo_out BINARY))
                  5000 4 j) ->
     exists j, 0 <= j < file_num_strings demo_memory 1000 /\
               file_entry_matches demo_memory 1000 (mem_out (demo_out BINARY))
                 5000 4 j /\
               r = malloc_data demo_alloc + file_trans_offset demo_memory 1000 j) /\
    ((forall j, 0 <= j < file_num_strings demo_memory 1000 ->
                ~ file_entry_matches demo_memory 1000 (mem_out (demo_out BINARY))
                    5000 4 j) -> r = 5000).
Proof.
  apply (lookup_with_duplicates insertion_sort (@insertion_sort_perm _)
           insertion_sort_sorted (demo_build BINARY) demo_alloc demo_memory
           1000 85 (demo_out BINARY) 5000 4).
  - exact (demo_load_eq BINARY).
  - vm_compute. reflexivity.
  - exact demo_well_laid_out.
  - unfold NULL. lia.
Defined.

(** The first of two context-free calls: the singular ["Open"] (at 1066),
    key buffer at 9000; it returns 2078, the address of ["Ouvrir"]. *)
Definition demo_cp_first : option (memory * option mo_context * ptr) :=
  mo_translate_cp (demo_build LINEAR) 100 (mem_out (demo_out LINEAR)) 9000
    (Some (demo_context LINEAR)) NULL 1066 NULL 1.

Definition demo_cp_memory : memory :=
  default (fun _ => 0) ((fun x => x.1.1) <$> demo_cp_first).

Definition demo_cp_context : mo_context :=
  default no_context (demo_cp_first ≫= (fun x => x.1.2)).

Lemma demo_cp_first_eq :
  demo_cp_first = Some (demo_cp_memory, Some demo_cp_context, 2078).
Proof.
  assert (Hr : (snd <$> demo_cp_first) = Some 2078) by (vm_compute; reflexivity).
  assert (Hc : is_Some (demo_cp_first ≫= (fun x => x.1.2))).
  { apply (proj1 (bool_decide_spec _)). vm_compute. exact I. }
  unfold demo_cp_memory, demo_cp_context.
  destruct demo_cp_first as [[[m1 c1] r]|]; [|discriminate Hr].
  cbn [fmap option_fmap option_map snd] in Hr. injection Hr as ->.
  cbn [mbind option_bind fst snd] in Hc |- *. destruct Hc as [c Hc].
  cbn [fmap option_fmap option_map from_option id fst]. rewrite Hc. reflexivity.
Qed.

Lemma translate_cp_stale_key_witness :
  exists m2 c2,
    mo_translate_cp (demo_build LINEAR) 100 demo_cp_memory 9000
      (Some demo_cp_context) NULL 1060 NULL 1
    = Some (m2, Some c2, 2078).
Proof.
  apply (translate_cp_stale_key (demo_build LINEAR) 100
           (mem_out (demo_out LINEAR)) 9000 (demo_context LINEAR)
           (demo_pairs LINEAR) 1066 1 demo_cp_memory demo_cp_context 2078
           1060 5 1).
  - discriminate.
  - apply demo_catalog_wf. discriminate.
  - vm_compute. reflexivity.
  - unfold NULL. lia.
  - exact demo_cp_first_eq.
  - lia.
  - unfold NULL. lia.
  - lia.
  - unfold NULL. lia.
  - vm_compute. reflexivity.
  - unfold MO_MAX_STRING_LENGTH. lia.
Defined.

(** ** Context-qualified lookups *)

Lemma strlen_from_inv m limit : forall p acc r,
  strlen_from m p limit acc = Some r ->
  exists len : nat,
    r = acc + Z.of_nat len /\ (len < limit)%nat /\
    load8 m (p + Z.of_nat len) = 0 /\
    forall k : nat, (k < len)%nat -> load8 m (p + Z.of_nat k) <> 0.
Proof.
  induction limit as [|limit IH]; intros p acc r H; [discriminate H|].
  cbn [strlen_from] in H. destruct (Z.eqb_spec (load8 m p) 0) as [E|E].
  - injection H as <-. exists 0%nat. rewrite !Z.add_0_r.
    split; [done|]. split; [lia|]. split; [done|]. intros k Hk. lia.
  - apply IH in H as (len & -> & Hl & Hz & Hnz). exists (S len).
    split; [lia|]. split; [lia|]. split.
    + by replace (p + Z.of_nat (S len)) with (p + 1 + Z.of_nat len) by lia.
    + intros [|k] Hk; [by rewrite Z.add_0_r|].
      replace (p + Z.of_nat (S k)) with (p + 1 + Z.of_nat k) by lia.
      apply Hnz. lia.
Qed.

(** A string, with its terminator, that lies outside the key buffer has
    the same length after the buffer has been written. *)
Lemma strlen_snprintf_out limit m key n out s len :
  0 < n -> strlen limit m s = Some len ->
  s + len + 1 <= key \/ key + n <= s ->
  strlen limit (snprintf m key n out).1 s = Some len.
Proof.
  intros Hn Hs Hd. unfold strlen in *.
  apply strlen_from_inv in Hs as (l & -> & Hl & Hz & Hnz).
  assert (Hsame : forall k : nat, (k <= l)%nat ->
            load8 (snprintf m key n out).1 (s + Z.of_nat k) = load8 m (s + Z.of_nat k)).
  { intros k Hk. unfold snprintf. cbn [fst].
    apply load8_store_bytes_out. rewrite length_app, length_take. cbn [length].
    lia. }
  apply strlen_from_spec; [|by rewrite Hsame|done].
  intros k Hk. rewrite Hsame by lia. by apply Hnz.
Qed.

(** A list of bytes written by [snprintf] reads back as it was. *)
Lemma bytes_snprintf_list m key n out :
  Z.of_nat (length out) < n -> n <= INT_MAX ->
  Forall (fun b => 0 <= b < 256) out ->
  bytes (snprintf m key n out).1 key (Z.of_nat (length out)) = out /\
  (snprintf m key n out).2 = Z.of_nat (length out).
Proof.
  intros Hlen Hmax Hb. unfold snprintf, bytes. cbn [fst snd].
  rewrite take_ge by lia. rewrite Nat2Z.id. split.
  - apply list_eq. intros i.
    destruct (decide (i < length out)%nat) as [Hi|Hi].
    + rewrite bytes_n_lookup by done.
      destruct (lookup_lt_is_Some_2 out i Hi) as [b Hbi].
      erewrite load8_store_bytes_in by (by rewrite lookup_app_l).
      rewrite Hbi. f_equal. apply Z.mod_small.
      by apply (Forall_lookup_1 _ _ _ _ Hb Hbi).
    + rewrite !lookup_ge_None_2; [done|lia|rewrite bytes_n_length; lia].
  - destruct (Z.gtb_spec (Z.of_nat (length out)) INT_MAX); [lia|done].
Qed.

Lemma bytes_n_range m p n : Forall (fun b => 0 <= b < 256) (bytes_n m p n).
Proof.
  revert p. induction n as [|n IH]; intros p; cbn [bytes_n]; constructor.
  - apply load8_range.
  - apply IH.
Qed.

(** The catalog is as well formed after the key buffer has been written,
    when its strings lie outside the buffer. *)
Lemma catalog_wf_snprintf cfg m key out c prs :
  catalog_wf cfg m c prs ->
  (forall (i : nat) pr, prs !! i = Some pr ->
     original pr + original_len pr <= key \/
     key + MO_MAX_STRING_LENGTH <= original pr) ->
  catalog_wf cfg (snprintf m key MO_MAX_STRING_LENGTH out).1 c prs.
Proof.
  intros (Hp & Hl & Hn & Hlens & Hh) Hdisj.
  split; [done|]. split; [done|]. split; [done|]. split; [done|].
  intros Hm. destruct (Hh Hm) as (tbl & k & Ht & Hk & Hs & Hmask & Htl & Hslots).
  exists tbl, k. repeat (split; [done|]).
  intros j s Hj. destruct (Hslots j s Hj) as [?|(t & pr & Ht' & ->)]; [by left|].
  right. exists t, pr. split; [done|]. unfold slot_of. f_equal.
  apply mo_hash_string_ext. symmetry. apply bytes_snprintf_out; [done| |by eapply Hdisj].
  by destruct (Hlens t pr Ht').
Qed.

Lemma no_cache_entry cfg m c p len :
  (forall (s : nat) item, cache c !! s = Some item -> c_original item <> p) ->
  p <> NULL -> cache_hit cfg m c p len = false.
Proof.
  intros Hcache Hp. unfold cache_hit, cache_at.
  destruct (cache c !! Z.to_nat (cache_slot cfg m p len)) as [item|] eqn:Hitem;
    cbn [from_option id].
  - pose proof (Hcache _ _ Hitem) as Hne.
    destruct (Z.eqb_spec (c_original item) p); [done|].
    by destruct (method cfg).
  - unfold zero_cache_item. cbn [c_original].
    destruct (Z.eqb_spec NULL p); [congruence|]. by destruct (method cfg).
Qed.

(** X25.  With a context string, [mo_translate_cp] on a singular that the
    catalog holds neither under that context nor on its own returns the
    singular pointer itself: the lookup of the key [ctx EOT singular]
    misses, the function falls back to the bare singular, and that lookup
    misses too; the cache is left as it was.  (For [n == 1] or a null
    plural, a key shorter than the buffer, no cache entry for the buffer's
    address or the singular, and strings lying outside the buffer.) *)
Theorem translate_cp_context_miss cfg limit m key c prs context_str singular
    plural n lc ls :
  catalog_wf cfg m c prs ->
  (forall (s : nat) item, cache c !! s = Some item ->
     c_original item <> key /\ c_original item <> singular) ->
  (forall (i : nat) pr, prs !! i = Some pr ->
     original pr + original_len pr <= key \/
     key + MO_MAX_STRING_LENGTH <= original pr) ->
  singular + ls + 1 <= key \/ key + MO_MAX_STRING_LENGTH <= singular ->
  key <> NULL -> singular <> NULL -> context_str <> NULL ->
  strlen limit m context_str = Some lc -> strlen limit m singular = Some ls ->
  lc + 1 + ls < MO_MAX_STRING_LENGTH ->
  (forall (i : nat) pr, prs !! i = Some pr -> matchb m singular ls pr = false) ->
  (forall (i : nat) pr, prs !! i = Some pr -> original_len pr = lc + 1 + ls ->
     bytes m (original pr) (lc + 1 + ls)
     <> bytes m context_str lc ++ [4] ++ bytes m singular ls) ->
  plural = NULL \/ n = 1 ->
  exists m1 c1,
    mo_translate_cp cfg limit m key (Some c) context_str singular plural n
    = Some (m1, Some c1, singular) /\
    cache c1 = cache c.
Proof.
  intros Hwf Hcache Hdisj Hsd Hkey Hsing Hctx Hsc Hss Hfit Hmiss Hmissc Hpl.
  assert (Hlc : 0 <= lc).
  { unfold strlen in Hsc. apply strlen_from_inv in Hsc as (l & -> & _). lia. }
  assert (Hls : 0 <= ls).
  { unfold strlen in Hss. apply strlen_from_inv in Hss as (l & -> & _). lia. }
  set (out := bytes m context_str lc ++ [4] ++ bytes m singular ls) in *.
  assert (Hol : Z.of_nat (length out) = lc + 1 + ls).
  { unfold out, bytes. rewrite !length_app, !bytes_n_length. cbn [length]. lia. }
  assert (Hob : Forall (fun b => 0 <= b < 256) out).
  { unfold out, bytes. apply Forall_app. split; [apply bytes_n_range|].
    apply Forall_app. split; [|apply bytes_n_range]. by repeat constructor. }
  unfold mo_translate_cp.
  rewrite bool_decide_eq_false_2 by done.
  destruct (Z.eqb_spec singular NULL) as [|_]; [done|]. cbn [orb].
  destruct (Z.eqb_spec context_str NULL) as [|_]; [done|]. cbn [negb].
  unfold format_ctx. rewrite Hsc, Hss. cbn [mbind option_bind]. fold out.
  destruct (bytes_snprintf_list m key MO_MAX_STRING_LENGTH out) as [Hcopy Hret];
    [lia|done|done|].
  pose proof (catalog_wf_snprintf cfg m key out c prs Hwf Hdisj) as Hwf1.
  pose proof (strlen_snprintf_out limit m key MO_MAX_STRING_LENGTH out singular ls
                ltac:(done) Hss Hsd) as Hss1.
  assert (Hout : forall p l, 0 <= l ->
            p + l <= key \/ key + MO_MAX_STRING_LENGTH <= p ->
            bytes (snprintf m key MO_MAX_STRING_LENGTH out).1 p l = bytes m p l).
  { intros p l Hl Hp. by apply bytes_snprintf_out. }
  destruct (snprintf m key MO_MAX_STRING_LENGTH out) as [m1 key_len].
  cbn [fst snd] in *. subst key_len. rewrite Hol in *.
  destruct (Z.geb_spec (lc + 1 + ls) MO_MAX_STRING_LENGTH) as [|_]; [lia|].
  destruct Hwf as (_ & _ & _ & Hlens & _).
  (* the context-qualified key is not in the catalog *)
  assert (Hmiss1 : forall (i : nat) pr, prs !! i = Some pr ->
            matchb m1 key (lc + 1 + ls) pr = false).
  { intros i pr Hi. unfold matchb.
    destruct (Z.eqb_spec (original_len pr) (lc + 1 + ls)) as [El|El]; [|done].
    cbn [andb]. apply Z.eqb_neq. rewrite memcmp_eq, Hcopy.
    rewrite Hout; [by apply (Hmissc i)|lia|].
    rewrite <- El. by eapply Hdisj. }
  destruct (mo_translate_n_miss cfg m1 c prs key (lc + 1 + ls) Hwf1 Hkey)
    as (c1 & r & Hres & Hwf2 & _ & _ & Hcase & _).
  { apply no_cache_entry; [|done]. intros s item Hs. by destruct (Hcache s item Hs). }
  destruct Hcase as [[-> Hc1]|(i & pr & Hi & Hm & _)].
  2:{ rewrite (Hmiss1 i pr Hi) in Hm. discriminate Hm. }
  rewrite Hres. cbn [mbind option_bind].
  rewrite Z.eqb_refl. cbn [andb].
  (* the fallback to the bare singular *)
  unfold mo_translate. destruct (Z.eqb_spec singular NULL) as [|_]; [done|].
  rewrite Hss1. cbn [mbind option_bind].
  assert (Hmiss2 : forall (i : nat) pr, prs !! i = Some pr ->
            matchb m1 singular ls pr = false).
  { intros i pr Hi. specialize (Hmiss i pr Hi). unfold matchb in *.
    destruct (Z.eqb_spec (original_len pr) ls) as [El|El]; [|done].
    cbn [andb] in *. unfold memcmp in *.
    rewrite (memcmp_n_ext m1 m (original pr) singular (original pr) singular);
      [done| |].
    - rewrite <- El. apply (Hout (original pr) (original_len pr)).
      + by destruct (Hlens i pr Hi).
      + by eapply Hdisj.
    - apply (Hout singular ls); [done|lia]. }
  destruct (mo_translate_n_miss cfg m1 c1 prs singular ls Hwf2 Hsing)
    as (c2 & r & Hres2 & _ & _ & _ & Hcase & _).
  { apply no_cache_entry; [|done]. intros s item Hs. rewrite Hc1 in Hs.
    by destruct (Hcache s item Hs). }
  destruct Hcase as [[-> Hc2]|(i & pr & Hi & Hm & _)].
  2:{ rewrite (Hmiss2 i pr Hi) in Hm. discriminate Hm. }
  rewrite Hres2. cbn [mbind option_bind].
  assert (Hskip : negb (plural =? NULL) && negb (n =? 1) = false).
  { destruct Hpl as [-> | ->]; [done|]. apply andb_false_r. }
  rewrite Hskip. exists m1, c2. split; [done|]. by rewrite Hc2.
Qed.

(** The caller's strings for the witness: ["menu"] at 6000 and ["Save"] at
    6100, added to the memory of the loaded linear catalog. *)
Definition demo_ctx_memory : memory :=
  store_bytes (store_bytes (mem_out (demo_out LINEAR)) 6000 [109; 101; 110; 117; 0])
    6100 [83; 97; 118; 101; 0].

Lemma translate_cp_context_miss_witness :
  exists m1 c1,
    mo_translate_cp (demo_build LINEAR) 100 demo_ctx_memory 9000
      (Some (demo_context LINEAR)) 6000 6100 NULL 1
    = Some (m1, Some c1, 6100) /\
    cache c1 = cache (demo_context LINEAR).
Proof.
  apply (translate_cp_context_miss (demo_build LINEAR) 100 demo_ctx_memory 9000
           (demo_context LINEAR) (demo_pairs LINEAR) 6000 6100 NULL 1 4 4).
  - apply (catalog_wf_memory (demo_build LINEAR) (mem_out (demo_out LINEAR)));
      [discriminate|]. apply demo_catalog_wf. discriminate.
  - intros s item Hs. rewrite demo_cache in Hs.
    apply lookup_replicate in Hs as [-> _]. cbn. unfold NULL. lia.
  - intros i pr Hi.
    destruct (demo_pairs_cases LINEAR i pr Hi) as [-> | ->];
      cbn [original original_len]; unfold MO_MAX_STRING_LENGTH; lia.
  - left. lia.
  - unfold NULL. lia.
  - unfold NULL. lia.
  - unfold NULL. lia.
  - vm_compute. reflexivity.
  - vm_compute. reflexivity.
  - unfold MO_MAX_STRING_LENGTH. lia.
  - intros i pr Hi.
    destruct (demo_pairs_cases LINEAR i pr Hi) as [-> | ->];
      vm_compute; reflexivity.
  - intros i pr Hi.
    destruct (demo_pairs_cases LINEAR i pr Hi) as [-> | ->];
      cbn [original_len]; intros Hl; lia.
  - left. reflexivity.
Defined.

(** The catalog's invariants read the memory at the original strings only. *)
Lemma catalog_ok_agree cfg m m' c prs :
  (forall (i : nat) pr, prs !! i = Some pr ->
     bytes m' (original pr) (original_len pr)
     = bytes m (original pr) (original_len pr)) ->
  catalog_ok cfg m c prs -> catalog_ok cfg m' c prs.
Proof.
  intros Hag [(Hp & Hl & Hn & Hlens & Hh) Hb].
  assert (Hslot : forall (i : nat) pr, prs !! i = Some pr ->
            slot_of m' pr = slot_of m pr).
  { intros i pr Hi. unfold slot_of. f_equal.
    apply mo_hash_string_ext. by apply (Hag i). }
  split.
  - split; [done|]. split; [done|]. split; [done|]. split; [done|].
    intros Hm. destruct (Hh Hm) as (tbl & k & Ht & Hk & Hs & Hmask & Htl & Hslots).
    exists tbl, k. repeat (split; [done|]).
    intros j s Hj. destruct (Hslots j s Hj) as [?|(t & pr & Ht' & ->)]; [by left|].
    right. exists t, pr. split; [done|]. symmetry. by apply (Hslot t).
  - destruct (method cfg); [done| |].
    + intros i j p q Hi Hj Hij. specialize (Hb i j p q Hi Hj Hij).
      unfold mo_compare_pairs in *.
      destruct (Z.ltb_spec (original_len p) (original_len q)) as [|Hge]; [done|].
      destruct (Z.gtb_spec (original_len p) (original_len q)) as [|Hle]; [done|].
      unfold memcmp in *.
      rewrite (memcmp_n_ext m' m (original p) (original q) (original p) (original q));
        [done|by apply (Hag i)|].
      assert (original_len p = original_len q) as -> by lia. by apply (Hag j).
    + destruct Hb as (tbl & k & Ht & Hk & Hmask & [Hlen Hslots Hreach]).
      exists tbl, k. split; [done|]. split; [done|]. split; [done|].
      constructor; [done| |].
      * intros j s Hj.
        destruct (Hslots j s Hj) as [?|(t & pr & Hlt & Ht' & ->)]; [by left|].
        right. exists t, pr. repeat (split; [done|]). symmetry. by apply (Hslot t).
      * intros t pr Hlt Ht'. rewrite (Hslot t pr Ht'). by apply (Hreach t).
Qed.

(** X26.  With a context string, [mo_translate_cp] looks the singular up
    under the key [ctx EOT singular]: when the catalog holds an entry whose
    original is these bytes, the call returns the translation of such an
    entry.  (For [n == 1] or a null plural, a key shorter than the buffer,
    no cache entry for the buffer's address, and catalog strings lying
    outside the buffer.) *)
Theorem translate_cp_context_hit cfg limit m key c prs context_str singular
    plural n lc ls (i0 : nat) pr0 :
  catalog_ok cfg m c prs ->
  (forall (s : nat) item, cache c !! s = Some item -> c_original item <> key) ->
  (forall (i : nat) pr, prs !! i = Some pr ->
     (original pr + original_len pr <= key \/
      key + MO_MAX_STRING_LENGTH <= original pr) /\ translation pr <> key) ->
  key <> NULL -> singular <> NULL -> context_str <> NULL ->
  strlen limit m context_str = Some lc -> strlen limit m singular = Some ls ->
  lc + 1 + ls < MO_MAX_STRING_LENGTH ->
  prs !! i0 = Some pr0 -> original_len pr0 = lc + 1 + ls ->
  bytes m (original pr0) (lc + 1 + ls)
  = bytes m context_str lc ++ [4] ++ bytes m singular ls ->
  plural = NULL \/ n = 1 ->
  exists m1 c1 (j : nat) pr,
    mo_translate_cp cfg limit m key (Some c) context_str singular plural n
    = Some (m1, Some c1, translation pr) /\
    prs !! j = Some pr /\ original_len pr = lc + 1 + ls /\
    bytes m (original pr) (lc + 1 + ls)
    = bytes m context_str lc ++ [4] ++ bytes m singular ls.
Proof.
  intros Hok Hcache Hdisj Hkey Hsing Hctx Hsc Hss Hfit Hi0 Hl0 Hb0 Hpl.
  assert (Hlc : 0 <= lc).
  { unfold strlen in Hsc. apply strlen_from_inv in Hsc as (l & -> & _). lia. }
  assert (Hls : 0 <= ls).
  { unfold strlen in Hss. apply strlen_from_inv in Hss as (l & -> & _). lia. }
  set (out := bytes m context_str lc ++ [4] ++ bytes m singular ls) in *.
  assert (Hol : Z.of_nat (length out) = lc + 1 + ls).
  { unfold out, bytes. rewrite !length_app, !bytes_n_length. cbn [length]. lia. }
  assert (Hob : Forall (fun b => 0 <= b < 256) out).
  { unfold out, bytes. apply Forall_app. split; [apply bytes_n_range|].
    apply Forall_app. split; [|apply bytes_n_range]. by repeat constructor. }
  unfold mo_translate_cp.
  rewrite bool_decide_eq_false_2 by done.
  destruct (Z.eqb_spec singular NULL) as [|_]; [done|]. cbn [orb].
  destruct (Z.eqb_spec context_str NULL) as [|_]; [done|]. cbn [negb].
  unfold format_ctx. rewrite Hsc, Hss. cbn [mbind option_bind]. fold out.
  destruct (bytes_snprintf_list m key MO_MAX_STRING_LENGTH out) as [Hcopy Hret];
    [lia|done|done|].
  pose proof Hok as [(_ & _ & _ & Hlens & _) _].
  assert (Hout : forall (i : nat) pr, prs !! i = Some pr ->
            bytes (snprintf m key MO_MAX_STRING_LENGTH out).1 (original pr)
              (original_len pr)
            = bytes m (original pr) (original_len pr)).
  { intros i pr Hi. apply bytes_snprintf_out; [done|by destruct (Hlens i pr Hi)|].
    by destruct (Hdisj i pr Hi). }
  pose proof (catalog_ok_agree cfg m _ c prs Hout Hok) as Hok1.
  destruct (snprintf m key MO_MAX_STRING_LENGTH out) as [m1 key_len].
  cbn [fst snd] in *. subst key_len. rewrite Hol in *.
  destruct (Z.geb_spec (lc + 1 + ls) MO_MAX_STRING_LENGTH) as [|_]; [lia|].
  assert (Hm0 : matchb m1 key (lc + 1 + ls) pr0 = true).
  { unfold matchb. rewrite Hl0, Z.eqb_refl. cbn [andb]. apply Z.eqb_eq.
    rewrite memcmp_eq, Hcopy, <- Hb0, <- Hl0. by apply (Hout i0). }
  destruct (mo_translate_n_miss cfg m1 c prs key (lc + 1 + ls) (proj1 Hok1) Hkey)
    as (c1 & r & Hres & _ & _ & _ & _ & Hfound).
  { apply no_cache_entry; [|done]. intros s item Hs. by apply (Hcache s item). }
  destruct (Hfound Hok1 i0 pr0 Hi0 Hm0) as (_ & j & pr & Hj & Hm & ->).
  rewrite Hres. cbn [mbind option_bind].
  destruct (Z.eqb_spec (translation pr) key) as [E|_].
  { by destruct (Hdisj j pr Hj). }
  cbn [andb mbind option_bind].
  assert (Hskip : negb (plural =? NULL) && negb (n =? 1) = false).
  { destruct Hpl as [-> | ->]; [done|]. apply andb_false_r. }
  rewrite Hskip. exists m1, c1, j, pr. split; [done|]. split; [done|].
  unfold matchb in Hm. apply andb_true_iff in Hm as [Hl Hc].
  apply Z.eqb_eq in Hl. apply Z.eqb_eq in Hc. split; [done|].
  rewrite memcmp_eq, Hcopy in Hc. rewrite <- Hc, <- Hl. symmetry. by apply (Hout j).
Qed.

(** A catalog with the single entry ["menu" EOT "Save"] (at 100), translated
    ["Sauver"] (at 200), and the caller's strings ["menu"] at 6000 and
    ["Save"] at 6100. *)
Definition menu_memory : memory :=
  store_bytes
    (store_bytes
       (store_bytes
          (store_bytes (fun _ => 0) 100 [109; 101; 110; 117; 4; 83; 97; 118; 101; 0])
          200 [83; 97; 117; 118; 101; 114; 0])
       6000 [109; 101; 110; 117; 0])
    6100 [83; 97; 118; 101; 0].

Definition menu_pair : mo_string_pair_t :=
  {| original := 100; translation := 200; original_len := 9;
     translation_len := 6 |}.

Definition menu_context : mo_context :=
  {| data := 72; size := 135; pairs := Some [menu_pair]; num_strings := 1;
     hash_table := None; hash_table_size := 0; hash_table_mask := 0;
     hash_table_count := 0;
     cache := replicate (Z.to_nat MO_CACHE_SIZE) zero_cache_item;
     stats := zero_stats |}.

Lemma translate_cp_context_hit_witness :
  exists m1 c1 (j : nat) pr,
    mo_translate_cp (demo_build LINEAR) 100 menu_memory 9000 (Some menu_context)
      6000 6100 NULL 1
    = Some (m1, Some c1, translation pr) /\
    [menu_pair] !! j = Some pr /\ original_len pr = 4 + 1 + 4 /\
    bytes menu_memory (original pr) (4 + 1 + 4)
    = bytes menu_memory 6000 4 ++ [4] ++ bytes menu_memory 6100 4.
Proof.
  apply (translate_cp_context_hit (demo_build LINEAR) 100 menu_memory 9000
           menu_context [menu_pair] 6000 6100 NULL 1 4 4 0 menu_pair).
  - split; [|done]. split; [reflexivity|]. split; [reflexivity|].
    split; [cbn; lia|]. split; [|discriminate].
    intros [|i] pr Hi; [|destruct i; discriminate Hi].
    injection Hi as <-. cbn. lia.
  - intros s item Hs. cbn [cache menu_context] in Hs.
    apply lookup_replicate in Hs as [-> _]. cbn. unfold NULL. lia.
  - intros [|i] pr Hi; [|destruct i; discriminate Hi].
    injection Hi as <-. cbn [original original_len translation menu_pair].
    unfold MO_MAX_STRING_LENGTH. lia.
  - unfold NULL. lia.
  - unfold NULL. lia.
  - unfold NULL. lia.
  - vm_compute. reflexivity.
  - vm_compute. reflexivity.
  - unfold MO_MAX_STRING_LENGTH. lia.
  - reflexivity.
  - reflexivity.
  - vm_compute. reflexivity.
  - left. reflexivity.
Defined.
